(** * RegionManager of the multi-genome viewer (mgv)

    A shallow embedding of [RegionManager] (region/strip state, pixel layout,
    border resizing, zoom/scroll arithmetic, synteny-block coalescing and
    landmark alignment) together with the properties stated for it.

    Conventions of the embedding.
    - JavaScript numbers that hold pixel quantities or factors (widths,
      offsets, zoom and scroll amounts, anchors) are IEEE 754 binary64
      numbers ([float]); [+], [-], [*], [/] and the comparisons on them are
      the operations of the processor, rounding to nearest, ties to even.
    - Base-pair coordinates, lengths and block indices are integers ([Z]).
      Where the code computes with a coordinate as a number, the embedding
      converts it with [Double.ofZ]; where the code stores [Math.floor] or
      [Math.round] of a number in a coordinate, the embedding stores
      [Double.floor] or [Double.round] of it, which is that integer when the
      number is finite.  Statements about computed coordinates assume that
      the number is finite.  Integer arithmetic on coordinates is exact, as
      it is in the code for integers below 2^53 in magnitude.
    - A promise is run to completion on the single control thread: [.then]
      is sequential composition.
    - A thrown exception (a rejected promise) is the [Throw] result.
    - Collaborators that are not part of [RegionManager] (the data manager
      and the translator) are records of functions held by the application
      object, as in the source.
    - A region object carries its identity in the field [obj]; the strips
      hold the objects themselves, and no object occurs twice in them. *)

From Stdlib Require Import ZArith QArith Qround Qminmax Lqa Lia List Bool String
  Permutation Floats.
Import ListNotations.

Set Implicit Arguments.
Set Warnings "-inexact-float".

(* ------------------------------------------------------------------ *)
(** * Numbers *)

(** Exact arithmetic on integers and halves of integers, as
    [guessLandmarkRegion] uses it. *)
Module Num.

(** [Math.floor] *)
Definition floor (x : Q) : Z := Qfloor x.

End Num.

(** Double-precision numbers. *)
Module Double.

Local Open Scope float_scope.

(** The number that an integer denotes: the nearest double, ties to even;
    the integer itself when it is below 2^53 in magnitude. *)
Definition ofZ (z : Z) : float :=
  SF2Prim (binary_normalize prec emax z 0 false).

(** The integer [m * 2^e], rounded down. *)
Definition scaled (m e : Z) : Z :=
  if (0 <=? e)%Z then Z.shiftl m e else Z.shiftr m (- e).

(** [Math.floor] of a finite number, as an integer. *)
Definition floor (x : float) : Z :=
  match Prim2SF x with
  | S754_finite s m e => scaled (if s then Z.neg m else Z.pos m) e
  | _ => 0%Z
  end.

(** [Math.round] of a finite number, as an integer: the nearest integer,
    halves rounded up, that is the floor of the exact [x + 1/2]. *)
Definition round (x : float) : Z :=
  match Prim2SF x with
  | S754_finite s m e =>
      let v := if s then Z.neg m else Z.pos m in
      if (0 <=? e)%Z then Z.shiftl v e
      else Z.shiftr (2 * v + Z.shiftl 1 (- e)) (- e + 1)
  | _ => 0%Z
  end.

(** [Math.max] and [Math.min] of two numbers: NaN when either is NaN, and
    -0 is below +0. *)
Definition max (x y : float) : float :=
  if is_nan x || is_nan y then nan
  else if x <? y then y
  else if y <? x then x
  else if get_sign x then y else x.

Definition min (x y : float) : float :=
  if is_nan x || is_nan y then nan
  else if x <? y then x
  else if y <? x then y
  else if get_sign x then x else y.

(** A number as a condition: 0, -0 and NaN are false. *)
Definition falsy (x : float) : bool := (x =? 0) || is_nan x.

(** [x || d] for a number [x]. *)
Definition orElse (x d : float) : float := if falsy x then d else x.

(** Sum of a list of numbers, as [reduce((t, n) => t + n, 0)]. *)
Definition sum (l : list float) : float := fold_left add l 0.

(** The number [n / 2] for an integer [n]; it is a double when [n] is
    below 2^53 in magnitude. *)
Definition ofHalves (n : Z) : float :=
  SF2Prim (binary_normalize prec emax n (-1) false).

End Double.

Local Open Scope float_scope.

(* ------------------------------------------------------------------ *)
(** * Data model *)

Record Chromosome := mkChromosome {
  chr_name   : string;
  chr_length : Z
}.

Record Genome := mkGenome {
  g_name      : string;
  chromosomes : list Chromosome
}.

Inductive Strand := Plus | Minus.

(** A feature as the data manager hands it out; features are immutable. *)
Record Feature := mkFeature {
  ID       : string;
  f_genome : Genome;
  f_chr    : Chromosome;
  f_start  : Z;
  f_end    : Z;
  strand   : Strand
}.

(** A region object.  [obj] is the identity of the JavaScript object (what
    [===] and [indexOf] compare); it is not a field of the source.  [id] is
    absent on objects that were written as literals and never passed through
    [makeRegion]; [width] and [deltaX] read 0 and [reversed] reads [false]
    when the field was never assigned. *)
Record Region := mkRegion {
  obj      : nat;
  genome   : Genome;
  chr      : Chromosome;
  start    : Z;
  end_     : Z;
  width    : float;
  deltaX   : float;
  reversed : bool;
  id       : option nat;
  r_length : option Z
}.

Record Strip := mkStrip {
  s_genome : Genome;
  regions  : list Region
}.

(** A block returned by the translator. *)
Record Block := mkBlock {
  b_chr   : Chromosome;
  b_start : Z;
  b_end   : Z;
  index   : Z
}.

(** The landmark specification [lcoords]. *)
Record LCoords := mkLCoords {
  landmark  : option string;
  lgenome   : Genome;
  anchor    : option float;
  delta     : Z;
  lc_length : Z
}.

(** What [getGenolog] is asked about: an identifier or a feature. *)
Inductive FeatureRef :=
| ById (ident : option string)
| ByFeature (f : Feature).

(** [app.dataManager], a collaborator. *)
Record DataManager := mkDataManager {
  getGenolog        : FeatureRef -> Genome -> option Feature;
  getGenologs       : option string -> list Genome -> list (option Feature);
  getAllFeaturesNow : Genome -> Chromosome -> list Feature
}.

(** [app.translator], a collaborator; [translate] is the resolved value of
    the promise. *)
Record Translator := mkTranslator {
  translate : Genome -> string -> Z -> Z -> Genome -> list Block
}.

(** The part of the application object that [RegionManager] reads and
    writes. *)
Record App := mkApp {
  strips           : list Strip;
  rRegion          : option Region;
  scrollLock       : bool;
  lcoords          : option LCoords;
  currentSelection : list (option string);
  zoomWidth        : float;
  dataManager      : DataManager;
  translator       : Translator
}.

(** [RegionManager] itself.  [featureAlignment] is
    [config.ZoomRegion.featureAlignment] of the imported configuration;
    [nextObj] numbers the objects created so far. *)
Record RegionManager := mkRegionManager {
  app              : App;
  rCount           : nat;
  featureAlignment : option string;
  nextObj          : nat
}.

(** Field updates. *)
Definition set_width (r : Region) (w : float) : Region :=
  mkRegion (obj r) (genome r) (chr r) (start r) (end_ r) w (deltaX r)
           (reversed r) (id r) (r_length r).
Definition set_deltaX (r : Region) (d : float) : Region :=
  mkRegion (obj r) (genome r) (chr r) (start r) (end_ r) (width r) d
           (reversed r) (id r) (r_length r).
Definition set_genome (r : Region) (g : Genome) : Region :=
  mkRegion (obj r) g (chr r) (start r) (end_ r) (width r) (deltaX r)
           (reversed r) (id r) (r_length r).
Definition set_chr (r : Region) (c : Chromosome) : Region :=
  mkRegion (obj r) (genome r) c (start r) (end_ r) (width r) (deltaX r)
           (reversed r) (id r) (r_length r).
Definition set_start (r : Region) (s : Z) : Region :=
  mkRegion (obj r) (genome r) (chr r) s (end_ r) (width r) (deltaX r)
           (reversed r) (id r) (r_length r).
Definition set_end (r : Region) (e : Z) : Region :=
  mkRegion (obj r) (genome r) (chr r) (start r) e (width r) (deltaX r)
           (reversed r) (id r) (r_length r).
Definition set_length (r : Region) (l : Z) : Region :=
  mkRegion (obj r) (genome r) (chr r) (start r) (end_ r) (width r) (deltaX r)
           (reversed r) (id r) (Some l).
Definition set_regions (s : Strip) (rs : list Region) : Strip :=
  mkStrip (s_genome s) rs.
Definition set_strips (a : App) (ss : list Strip) : App :=
  mkApp ss (rRegion a) (scrollLock a) (lcoords a) (currentSelection a)
        (zoomWidth a) (dataManager a) (translator a).
Definition set_rRegion (a : App) (r : option Region) : App :=
  mkApp (strips a) r (scrollLock a) (lcoords a) (currentSelection a)
        (zoomWidth a) (dataManager a) (translator a).
Definition set_scrollLock (a : App) (b : bool) : App :=
  mkApp (strips a) (rRegion a) b (lcoords a) (currentSelection a)
        (zoomWidth a) (dataManager a) (translator a).
Definition set_lcoords (a : App) (l : option LCoords) : App :=
  mkApp (strips a) (rRegion a) (scrollLock a) l (currentSelection a)
        (zoomWidth a) (dataManager a) (translator a).
Definition set_currentSelection (a : App) (l : list (option string)) : App :=
  mkApp (strips a) (rRegion a) (scrollLock a) (lcoords a) l
        (zoomWidth a) (dataManager a) (translator a).

(** Identity of objects.  Genomes, chromosomes and features are immutable
    and compared by value; region objects by [obj]. *)
Definition Chromosome_eq_dec (x y : Chromosome) : {x = y} + {x <> y}.
Proof. decide equality; [apply Z.eq_dec | apply string_dec]. Defined.

Definition Genome_eq_dec (x y : Genome) : {x = y} + {x <> y}.
Proof.
  decide equality; [apply (list_eq_dec Chromosome_eq_dec) | apply string_dec].
Defined.

Definition Feature_eq_dec (x y : Feature) : {x = y} + {x <> y}.
Proof.
  decide equality; try apply Z.eq_dec; try apply string_dec.
  - decide equality.
  - apply Chromosome_eq_dec.
  - apply Genome_eq_dec.
Defined.

Definition sameChr (x y : Chromosome) : bool :=
  if Chromosome_eq_dec x y then true else false.
Definition sameGenome (x y : Genome) : bool :=
  if Genome_eq_dec x y then true else false.
Definition sameFeature (x y : Feature) : bool :=
  if Feature_eq_dec x y then true else false.
Definition sameRegion (x y : Region) : bool := Nat.eqb (obj x) (obj y).

(* ------------------------------------------------------------------ *)
(** * Arrays *)

(** [l[i]]: [undefined] outside the array, also for a negative index. *)
Definition at_ (A : Type) (l : list A) (i : Z) : option A :=
  if (i <? 0)%Z then None else nth_error l (Z.to_nat i).

(** [l[i] = x] for an index inside the array. *)
Fixpoint setNth (A : Type) (l : list A) (n : nat) (x : A) : list A :=
  match l, n with
  | [], _ => []
  | _ :: t, O => x :: t
  | h :: t, S n' => h :: setNth t n' x
  end.

Definition setAt (A : Type) (l : list A) (i : Z) (x : A) : list A :=
  if (i <? 0)%Z then l else setNth l (Z.to_nat i) x.

(** [l.indexOf(x)] under the equality test [same]; -1 when absent. *)
Fixpoint indexOf (A : Type) (same : A -> A -> bool) (l : list A) (x : A) : Z :=
  match l with
  | [] => -1
  | h :: t =>
      if same h x then 0
      else let k := indexOf same t x in
           if (k =? -1)%Z then -1 else (k + 1)%Z
  end.

(** [l.splice(i, 0, x)]: insert [x] before position [i]. *)
Definition insertAt (A : Type) (l : list A) (i : nat) (x : A) : list A :=
  firstn i l ++ x :: skipn i l.

(** [l.splice(i, 1)]: remove the element at position [i]. *)
Definition removeAt (A : Type) (l : list A) (i : nat) : list A :=
  firstn i l ++ skipn (S i) l.

(* ------------------------------------------------------------------ *)
(** * The state and error monad of the manager's methods *)

Inductive result (A : Type) : Type :=
| Ok (a : A)
| Throw (msg : string).
Arguments Ok {A} a.
Arguments Throw {A} msg.

Definition M (A : Type) : Type := RegionManager -> result (A * RegionManager).

Definition ret (A : Type) (x : A) : M A := fun rm => Ok (x, rm).
Definition bind (A B : Type) (m : M A) (k : A -> M B) : M B :=
  fun rm => match m rm with
            | Ok (x, rm') => k x rm'
            | Throw msg => Throw msg
            end.
Definition throw (A : Type) (msg : string) : M A := fun _ => Throw msg.
Arguments throw {A} msg.
Definition getApp : M App := fun rm => Ok (app rm, rm).
Definition putApp (a : App) : M unit :=
  fun rm => Ok (tt, mkRegionManager a (rCount rm) (featureAlignment rm)
                                    (nextObj rm)).
Definition modifyApp (f : App -> App) : M unit :=
  fun rm => Ok (tt, mkRegionManager (f (app rm)) (rCount rm)
                                    (featureAlignment rm) (nextObj rm)).
(** [this.rCount++] *)
Definition nextCount : M nat :=
  fun rm => Ok (rCount rm, mkRegionManager (app rm) (S (rCount rm))
                                           (featureAlignment rm) (nextObj rm)).
(** The identity of a newly created object. *)
Definition newObj : M nat :=
  fun rm => Ok (nextObj rm, mkRegionManager (app rm) (rCount rm)
                                            (featureAlignment rm)
                                            (S (nextObj rm))).

Declare Scope monad_scope.
Delimit Scope monad_scope with monad.
Notation "x <- m ;; k" := (bind m (fun x => k))
  (at level 61, m at next level, right associativity) : monad_scope.
Notation "m ;;; k" := (bind m (fun _ => k))
  (at level 61, right associativity) : monad_scope.
Local Open Scope monad_scope.

Fixpoint mapM (A B : Type) (f : A -> M B) (l : list A) : M (list B) :=
  match l with
  | [] => ret []
  | x :: t => y <- f x ;; ys <- mapM f t ;; ret (y :: ys)
  end.

(* ------------------------------------------------------------------ *)
(** * LayoutEngine *)

(** [scaleAdjust (nums, width, mWidth)].  The source tallies [deficit]
    inside the callback of [map]; here the tally is its own fold over the
    same list, in the same order. *)
Definition scaleAdjust (nums : list float) (width mWidth : float)
  : list float :=
  let sum := fold_left (fun t n => t + n) nums 0 in
  let f := width / sum in
  let deficit :=
    fold_left (fun d n => let n2 := f * n in
                          if n2 <? mWidth then d + (mWidth - n2) else d)
              nums 0 in
  let scaled :=
    map (fun n => let n2 := f * n in
                  if n2 <? mWidth then mWidth else n2) nums in
  if deficit =? 0 then scaled
  else
    let sum2 :=
      fold_left (fun t n => t + (if mWidth <? n then n else 0)) scaled 0 in
    map (fun n => n - deficit * (if mWidth <? n then n / sum2 else 0))
        scaled.

(** The [forEach] of [layoutStrip]: writes width, length and deltaX onto
    each region and advances [dx] by width plus gap. *)
Fixpoint placeRegions (rs : list Region) (widths : list float)
         (dx gap : float) : list Region :=
  match rs, widths with
  | r :: rs', w :: ws' =>
      set_deltaX (set_length (set_width r w) (end_ r - start r + 1)) dx
      :: placeRegions rs' ws' (dx + (w + gap)) gap
  | _, _ => []
  end.

Definition endCap : float := 12.
Definition regionGap : float := 2.
Definition minWidth : float := 25.

(** [layoutStrip (strip, width)]; [width] is [None] when the argument is
    omitted. *)
Definition layoutStrip (a : App) (strip : Strip) (totalWidth : option float)
  : Strip :=
  let width' := match totalWidth with
                | Some w => Double.orElse w (zoomWidth a)
                | None => zoomWidth a
                end in
  let dx := endCap in
  let gap := regionGap in
  let totalGap :=
    dx + gap * (Double.ofZ (Z.of_nat (List.length (regions strip))) - 1) in
  let availWidth := width' - totalGap in
  let widths0 :=
    map (fun r => Double.orElse (width r) minWidth) (regions strip) in
  let widths := scaleAdjust widths0 availWidth minWidth in
  set_regions strip (placeRegions (regions strip) widths dx gap).


(** [layout (strips, width)] on an explicit list of strips. *)
Definition layoutStrips (a : App) (ss : list Strip)
           (totalWidth : option float) : list Strip :=
  map (fun strip => layoutStrip a strip totalWidth) ss.

(** [layout (strips, width)]; with [strips] omitted it lays out
    [app.strips] in place. *)
Definition layout (ss : option (list Strip)) (totalWidth : option float)
  : M (list Strip) :=
  a <- getApp ;;
  match ss with
  | Some l => ret (layoutStrips a l totalWidth)
  | None =>
      let l := layoutStrips a (strips a) totalWidth in
      putApp (set_strips a l) ;;; ret l
  end.

(* ------------------------------------------------------------------ *)
(** * RegionModel *)

(** The argument of [makeRegion]: an object on which [width], [deltaX],
    [reversed] and [length] may be absent. *)
Record RegionInit := mkRegionInit {
  i_genome   : Genome;
  i_chr      : Chromosome;
  i_start    : Z;
  i_end      : Z;
  i_width    : option float;
  i_deltaX   : option float;
  i_reversed : option bool;
  i_length   : option Z
}.

(** The literal [{genome, chr, start, end}]. *)
Definition coordsOnly (g : Genome) (c : Chromosome) (s e : Z) : RegionInit :=
  mkRegionInit g c s e None None None None.

(** An existing region object passed as the argument. *)
Definition fieldsOf (r : Region) : RegionInit :=
  mkRegionInit (genome r) (chr r) (start r) (end_ r) (Some (width r))
               (Some (deltaX r)) (Some (reversed r)) (r_length r).

Definition orDefault (A : Type) (o : option A) (d : A) : A :=
  match o with Some x => x | None => d end.

(** [makeRegion (r)]: a copy of [r] with a new id and the defaults. *)
Definition makeRegion (r : RegionInit) : M Region :=
  o <- newObj ;;
  n <- nextCount ;;
  ret (mkRegion o (i_genome r) (i_chr r) (i_start r) (i_end r)
                (orDefault (i_width r) 1) (orDefault (i_deltaX r) 0)
                (orDefault (i_reversed r) false) (Some n) (i_length r)).

(** [findStrip (g)] *)
Definition findStrip (a : App) (g : Genome) : Z :=
  indexOf sameGenome (map s_genome (strips a)) g.

(** [findRegion (r)] *)
Definition findRegion (a : App) (r : Region) : Z * Z :=
  let i := findStrip a (genome r) in
  let j := if (i =? -1)%Z then (-1)%Z
           else match at_ (strips a) i with
                | Some s => indexOf sameRegion (regions s) r
                | None => (-1)%Z
                end in
  (i, j).

(** Modelled from the spec: [u.removeDups] of [lib/utils], which is not
    among the sources.  [currentGenomes] is documented to return the unique
    genomes; here that is the first occurrence of each element, in order. *)
Fixpoint removeDups (A : Type) (same : A -> A -> bool) (l : list A) : list A :=
  match l with
  | [] => []
  | x :: t => x :: filter (fun y => negb (same x y)) (removeDups same t)
  end.

(** [currentGenomes ()] *)
Definition currentGenomes (a : App) : list Genome :=
  removeDups sameGenome (map s_genome (strips a)).

(** [deleteStrip (g)] *)
Definition deleteStrip (g : Genome) : M unit :=
  a <- getApp ;;
  let i := findStrip a g in
  if (0 <=? i)%Z then
    let inStrip :=
      match at_ (strips a) i, rRegion a with
      | Some s, Some rr => negb (indexOf sameRegion (regions s) rr =? -1)%Z
      | _, _ => false
      end in
    let a1 := if inStrip then set_rRegion a None else a in
    putApp (set_strips a1 (removeAt (strips a1) (Z.to_nat i)))
  else ret tt.

(* ------------------------------------------------------------------ *)
(** * BorderResizer *)

(** The three assignments that end a step of [_move]:
    [a.width += amt; b.width -= amt; b.deltaX += amt], on the objects at
    positions [i] and [i + 1]. *)
Definition shiftBorder (regions : list Region) (i : Z) (amt : float)
  : list Region :=
  match at_ regions i with
  | Some a =>
      let regions1 := setAt regions i (set_width a (width a + amt)) in
      match at_ regions1 (i + 1) with
      | Some b =>
          setAt regions1 (i + 1)
                (set_deltaX (set_width b (width b - amt)) (deltaX b + amt))
      | None => regions1
      end
  | None => regions
  end.

(** The local function [_move (regions, i, amt, min)] of [moveBorder].  It
    returns the array after the call and the amount moved; [fuel] bounds the
    depth of the recursion and [None] means the bound was hit. *)
Fixpoint _move (fuel : nat) (regions : list Region) (i : Z)
         (amt min : float) : option (list Region * float) :=
  match fuel with
  | O => None
  | S fuel' =>
      match at_ regions i, at_ regions (i + 1) with
      | Some a, Some b =>
          if 0 <? amt then
            let shove := Double.max 0 (amt - (width b - min)) in
            let rec :=
              if 0 <? shove then
                match _move fuel' regions (i + 1) shove min with
                | Some (regions1, shoved) =>
                    Some (regions1, amt - (shove - shoved))
                | None => None
                end
              else Some (regions, amt) in
            match rec with
            | Some (regions1, amt1) =>
                Some (shiftBorder regions1 i amt1, amt1)
            | None => None
            end
          else if amt <? 0 then
            let shove := Double.min 0 (amt + (width a - min)) in
            let rec :=
              if shove <? 0 then
                match _move fuel' regions (i - 1) shove min with
                | Some (regions1, shoved) =>
                    Some (regions1, amt - (shove - shoved))
                | None => None
                end
              else Some (regions, amt) in
            match rec with
            | Some (regions1, amt1) =>
                Some (shiftBorder regions1 i amt1, amt1)
            | None => None
            end
          else Some (regions, 0)
      | _, _ => Some (regions, 0)
      end
  end.

(** [moveBorder (r1, amt)].  The recursion of [_move] visits each position
    at most once, so the length of the array plus one bounds its depth. *)
Definition moveBorder (r1 : Region) (amt : float) : M unit :=
  a <- getApp ;;
  let '(si, ri) := findRegion a r1 in
  if (ri =? -1)%Z then ret tt
  else
    match at_ (strips a) si with
    | Some s =>
        match _move (S (List.length (regions s))) (regions s) ri amt 25 with
        | Some (regions1, _) =>
            putApp (set_strips a (setAt (strips a) si (set_regions s regions1)))
        | None => throw "moveBorder: recursion bound"%string
        end
    | None => ret tt
    end.

(** [swap (r)] *)
Definition swap (r : Region) : M unit :=
  a <- getApp ;;
  let '(si, ri) := findRegion a r in
  if (ri =? -1)%Z then ret tt
  else
    match at_ (strips a) si with
    | Some s =>
        match at_ (regions s) ri with
        | Some r0 =>
            let rs1 := removeAt (regions s) (Z.to_nat ri) in
            let rs2 := insertAt rs1 (Z.to_nat ri + 1) r0 in
            putApp (set_strips a (setAt (strips a) si (set_regions s rs2))) ;;;
            layout None None ;;; ret tt
        | None => ret tt
        end
    | None => ret tt
    end.

(* ------------------------------------------------------------------ *)
(** * NavigationTransform *)

(** [zoomScrollRegion (r, zAmt, sAmt)] on the region object [r].  The
    helper [u.fail] of [lib/utils] is not among the sources; by the
    specification the call fails, which is the [Throw] result. *)
Definition zoomScrollRegion (r : Region) (zAmt sAmt : float)
  : result Region :=
  if zAmt <=? 0 then Throw "Bad parameter: zoom factor must be > 0"%string
  else
    let L := Double.ofZ (end_ r) - Double.ofZ (start r) + 1 in
    let L2 := zAmt * L in
    let delta := sAmt * Double.max L L2 * (if reversed r then -1 else 1) in
    let mid := (Double.ofZ (start r) + Double.ofZ (end_ r)) / 2 in
    let s2 := Double.floor (mid - L2 / 2 + delta + 1) in
    let e2 := Double.floor (Double.ofZ s2 + L2 - 1) in
    Ok (set_end (set_start r s2) e2).

(** All regions of one strip, in order; the first failure ends the loop. *)
Fixpoint zoomScrollRegions (rs : list Region) (zAmt sAmt : float)
  : result (list Region) :=
  match rs with
  | [] => Ok []
  | r :: t =>
      match zoomScrollRegion r zAmt sAmt with
      | Ok r' =>
          match zoomScrollRegions t zAmt sAmt with
          | Ok t' => Ok (r' :: t')
          | Throw m => Throw m
          end
      | Throw m => Throw m
      end
  end.

Fixpoint zoomScrollStrips (ss : list Strip) (zAmt sAmt : float)
  : result (list Strip) :=
  match ss with
  | [] => Ok []
  | s :: t =>
      match zoomScrollRegions (regions s) zAmt sAmt with
      | Ok rs =>
          match zoomScrollStrips t zAmt sAmt with
          | Ok t' => Ok (set_regions s rs :: t')
          | Throw m => Throw m
          end
      | Throw m => Throw m
      end
  end.

(** [app.lcoords && app.lcoords.landmark] as a condition: the landmark is
    set and is not the empty string. *)
Definition landmarkActive (a : App) : bool :=
  match lcoords a with
  | Some lc =>
      match landmark lc with
      | Some l => negb (String.eqb l EmptyString)
      | None => false
      end
  | None => false
  end.

(** [zoomScrollAllRegions (zAmt, sAmt)] *)
Definition zoomScrollAllRegions (zAmt sAmt : float) : M unit :=
  a <- getApp ;;
  match zoomScrollStrips (strips a) zAmt sAmt with
  | Throw m => throw m
  | Ok ss =>
      let a1 := set_strips a ss in
      match lcoords a1 with
      | Some lc =>
          if landmarkActive a1 then
            let L2 := zAmt * Double.ofZ (lc_length lc) in
            let d := sAmt * Double.ofZ (lc_length lc)
                     + Double.ofZ (delta lc) in
            putApp (set_lcoords a1
                      (Some (mkLCoords (landmark lc) (lgenome lc) (anchor lc)
                                       (Double.round d) (Double.round L2))))
          else putApp a1
      | None => putApp a1
      end
  end.

(** [reverseRegion (r)] on the region object [r]. *)
Definition reverseRegion (r : Region) : Region :=
  mkRegion (obj r) (genome r) (chr r) (start r) (end_ r) (width r) (deltaX r)
           (negb (reversed r)) (id r) (r_length r).

(** The two pieces of [splitRegion]: the object [r] after the assignments
    and the new sibling [r2], which starts as a copy of [r]. *)
Definition splitPieces (r r2 : Region) (frac : float) : Region * Region :=
  let w := width r in
  let l := Double.ofZ (end_ r) - Double.ofZ (start r) + 1 in
  let ll := Double.floor (frac * l) in
  let ra := set_width r (frac * w) in
  let rb := set_width r2 ((1 - frac) * w) in
  if reversed r then
    (set_start ra (end_ r - ll + 1), set_end rb (end_ r2 - ll))
  else
    (set_end ra (start r + ll - 1), set_start rb (start r + ll)).

(** [splitRegion (r, frac)] *)
Definition splitRegion (r : Region) (frac : float) : M unit :=
  a <- getApp ;;
  let '(si, ri) := findRegion a r in
  if (ri =? -1)%Z then ret tt
  else
    match at_ (strips a) si with
    | Some s =>
        match at_ (regions s) ri with
        | Some r0 =>
            r2 <- makeRegion (fieldsOf r0) ;;
            let '(ra, rb) := splitPieces r0 r2 frac in
            let rs1 := setAt (regions s) ri ra in
            let rs2 := insertAt rs1 (Z.to_nat ri + 1) rb in
            a' <- getApp ;;
            putApp (set_strips a' (setAt (strips a') si (set_regions s rs2))) ;;;
            layout None None ;;; ret tt
        | None => ret tt
        end
    | None => ret tt
    end.

(** [removeRegion (r)] *)
Definition removeRegion (r : Region) : M unit :=
  a <- getApp ;;
  let '(si, ri) := findRegion a r in
  if (ri =? -1)%Z then ret tt
  else
    match at_ (strips a) si with
    | Some s =>
        (if (Z.of_nat (List.length (regions s)) =? 1)%Z
         then deleteStrip (s_genome s)
         else putApp (set_strips a
                        (setAt (strips a) si
                               (set_regions s
                                  (removeAt (regions s) (Z.to_nat ri)))))) ;;;
        layout None None ;;; ret tt
    | None => ret tt
    end.

(* ------------------------------------------------------------------ *)
(** * SyntenyMapper *)

(** [regions.sort((a, b) => a.index - b.index)]: a stable sort by index. *)
Fixpoint insertByIndex (b : Block) (l : list Block) : list Block :=
  match l with
  | [] => [b]
  | y :: l' =>
      if (index b <=? index y)%Z then b :: y :: l'
      else y :: insertByIndex b l'
  end.

Fixpoint sortByIndex (l : list Block) : list Block :=
  match l with
  | [] => []
  | b :: t => insertByIndex b (sortByIndex t)
  end.

(** [nrs[nrs.length - 1]] *)
Fixpoint lastOf (A : Type) (l : list A) : option A :=
  match l with
  | [] => None
  | [x] => Some x
  | _ :: t => lastOf t
  end.

(** Assignment to the fields of the last element, in place. *)
Fixpoint setLast (A : Type) (l : list A) (x : A) : list A :=
  match l with
  | [] => []
  | [_] => [x]
  | h :: t => h :: setLast t x
  end.

(** The callback of [reduce] in [combineRegions]. *)
Definition combineStep (nrs : list Block) (r : Block) : list Block :=
  match lastOf nrs with
  | Some prev =>
      if (index prev =? index r)%Z then nrs
      else if (index prev + 1 =? index r)%Z then
        setLast nrs (mkBlock (b_chr prev) (b_start prev) (b_end r) (index r))
      else nrs ++ [r]
  | None => nrs ++ [r]
  end.

(** [combineRegions (regions)] *)
Definition combineRegions (regions : list Block) : list Block :=
  fold_left combineStep (sortByIndex regions) [].

(** A block of the translator as a region object of genome [g], with the
    width that [mapRegionToGenome] assigns. *)
Definition regionOfBlock (g : Genome) (b : Block) : M Region :=
  o <- newObj ;;
  ret (mkRegion o g (b_chr b) (b_start b) (b_end b)
                (Double.ofZ (b_end b) - Double.ofZ (b_start b) + 1) 0 false
                None None).

(** [mapRegionToGenome (r, g)] *)
Definition mapRegionToGenome (r : Region) (g : Genome) : M Strip :=
  if sameGenome (genome r) g then ret (mkStrip g [r])
  else
    a <- getApp ;;
    let rs := translate (translator a) (genome r) (chr_name (chr r))
                        (start r) (end_ r) g in
    rs' <- mapM (regionOfBlock g) (combineRegions rs) ;;
    ret (mkStrip g rs').

(** The per-strip loop of [computeMappedRegions]. *)
Definition remakeRegions (r : Region) (s : Strip) : M Strip :=
  let sized :=
    map (fun rr => set_width rr (Double.ofZ (end_ rr) - Double.ofZ (start rr)
                                 + 1))
        (regions s) in
  rs <- mapM (fun rr => if sameRegion rr r then ret rr
                        else makeRegion (fieldsOf rr)) sized ;;
  ret (set_regions s rs).

(** [computeMappedRegions (r, genomes)] *)
Definition computeMappedRegions (r : Region) (genomes : option (list Genome))
  : M unit :=
  a <- getApp ;;
  ss <- mapM (mapRegionToGenome r) (orDefault genomes (currentGenomes a)) ;;
  modifyApp (fun a => set_lcoords (set_scrollLock (set_rRegion a (Some r))
                                                  false) None) ;;;
  ss1 <- mapM (remakeRegions r) ss ;;
  ss2 <- layout (Some ss1) None ;;
  modifyApp (fun a => set_strips a ss2).

(* ------------------------------------------------------------------ *)
(** * LandmarkAligner *)

(** The anchor position [lmp] of [computeLandmarkRegion] on the copy [lm]
    of the landmark. *)
Definition anchorPos (lc : LCoords) (alignOn : option string) (lm : Feature)
  : float :=
  match anchor lc with
  | Some an =>
      Double.ofZ (f_start lm)
      + an * (Double.ofZ (f_end lm) - Double.ofZ (f_start lm) + 1)
  | None =>
      let case s := match alignOn with
                  | Some x => String.eqb x s
                  | None => false
                  end in
      let plus := match strand lm with Plus => true | Minus => false end in
      if case "3-prime"%string then
        Double.ofZ (if plus then f_end lm else f_start lm)
      else if case "proximal"%string then Double.ofZ (f_start lm)
      else if case "distal"%string then Double.ofZ (f_end lm)
      else if case "midpoint"%string then
        Double.ofZ (Double.floor ((Double.ofZ (f_start lm)
                                   + Double.ofZ (f_end lm)) / 2))
      else Double.ofZ (if plus then f_start lm else f_end lm)
  end.

(** The features that the loop of [findNeighborGenolog] visits, in the
    order it visits them: from position [k], stepping by [inc], while the
    position is inside the array. *)
Definition visited (neighbors : list Feature) (k inc : Z) : list Feature :=
  if (k <? 0)%Z || (Z.of_nat (List.length neighbors) <=? k)%Z then []
  else if (0 <? inc)%Z then skipn (Z.to_nat k) neighbors
  else rev (firstn (S (Z.to_nat k)) neighbors).

(** The loop of [findNeighborGenolog (inc)] over the features it visits. *)
Fixpoint firstGenolog (dm : DataManager) (lmf : Feature) (g : Genome)
         (inc : Z) (ns : list Feature) : option Feature :=
  match ns with
  | [] => None
  | n :: rest =>
      if (0 <? inc)%Z && (f_start n <? f_end lmf)%Z then
        firstGenolog dm lmf g inc rest
      else if (inc <? 0)%Z && (f_start lmf <? f_end n)%Z then
        firstGenolog dm lmf g inc rest
      else
        match getGenolog dm (ByFeature n) g with
        | Some ng => Some ng
        | None => firstGenolog dm lmf g inc rest
        end
  end.

Definition findNeighborGenolog (dm : DataManager) (neighbors : list Feature)
           (lmf : Feature) (lmi : Z) (g : Genome) (inc : Z) : option Feature :=
  firstGenolog dm lmf g inc (visited neighbors (lmi + inc) inc).

(** A region written as a literal [{genome, chr, start, end}] and used as
    it is. *)
Definition literalRegion (g : Genome) (c : Chromosome) (s e : Z) (w : float)
  : M Region :=
  o <- newObj ;;
  ret (mkRegion o g c s e w 0 false None None).

Local Open Scope Q_scope.

(** [guessLandmarkRegion (lcoords, genome)]; the result [None] is
    [null].  Its numbers are integers and halves of integers, on which the
    arithmetic is exact. *)
Definition guessLandmarkRegion (lc : LCoords) (g : Genome)
  : M (option Strip) :=
  a <- getApp ;;
  let dm := dataManager a in
  match getGenolog dm (ById (landmark lc)) (lgenome lc) with
  | None => throw "TypeError: lmf is null"%string
  | Some lmf =>
      let neighbors := getAllFeaturesNow dm (lgenome lc) (f_chr lmf) in
      let lmi := indexOf sameFeature neighbors lmf in
      let ng1 := findNeighborGenolog dm neighbors lmf lmi g (-1) in
      let ng2 := findNeighborGenolog dm neighbors lmf lmi g 1 in
      let both :=
        match ng1, ng2 with
        | None, None => None
        | None, Some n2 => Some (n2, n2)
        | Some n1, None => Some (n1, n1)
        | Some n1, Some n2 => Some (n1, n2)
        end in
      match both with
      | None => ret None
      | Some (ng1, ng2) =>
          let len := inject_Z (lc_length lc) in
          if sameChr (f_chr ng1) (f_chr ng2) then
            let mp := (inject_Z (Z.min (f_start ng1) (f_start ng2))
                       + inject_Z (Z.max (f_end ng1) (f_end ng2))) / 2 in
            let s := Num.floor (mp - len / 2) in
            r <- makeRegion (coordsOnly g (f_chr ng1) s
                                        (s + lc_length lc - 1)) ;;
            ret (Some (mkStrip g [r]))
          else
            let s1 := Num.floor (inject_Z (f_start ng1) - len / 2) in
            let s2 := Num.floor (inject_Z (f_start ng2) - len / 2) in
            r1 <- literalRegion g (f_chr ng1) s1 (s1 + lc_length lc - 1) 0 ;;
            r2 <- literalRegion g (f_chr ng2) s2 (s2 + lc_length lc - 1) 0 ;;
            ret (Some (mkStrip g [r1; r2]))
      end
  end.

Local Open Scope float_scope.

(** [x => x] as a filter on an array that may hold [null]. *)
Fixpoint present (A : Type) (l : list (option A)) : list A :=
  match l with
  | [] => []
  | Some x :: t => x :: present t
  | None :: t => present t
  end.

(** [computeLandmarkRegion (lcoords, genome)] *)
Definition computeLandmarkRegion (lc : LCoords) (g : Genome)
  : M (option Strip) :=
  a <- getApp ;;
  fun rm =>
  let dlt := delta lc in
  let w := lc_length lc in
  let alignOn := featureAlignment rm in
  let lms := present (getGenologs (dataManager a) (landmark lc) [g]) in
  if (Z.of_nat (List.length lms) =? 0)%Z then guessLandmarkRegion lc g rm
  else
    (rs <- mapM (fun lm =>
                   let lmp := anchorPos lc alignOn lm in
                   let s := (Double.round (lmp - Double.ofZ w / 2) + dlt)%Z in
                   makeRegion (coordsOnly g (f_chr lm) s (s + w - 1)))
                lms ;;
     ret (Some (mkStrip g rs))) rm.

(** [computeLandmarkRegions (lcoords, genomes)]; [ensureFeatures] has
    resolved. *)
Definition computeLandmarkRegions (lc : LCoords) (genomes : list Genome)
  : M (list (option Strip)) :=
  mapM (computeLandmarkRegion lc) genomes.

(* ------------------------------------------------------------------ *)
(** * StripController *)

(** Modelled from the spec: [u.mergeArrays] of [lib/utils], which is not
    among the sources.  The current array is reconciled with the new one by
    position: where both have an element the current one is merged in place;
    when the new array is longer its tail is appended, when it is shorter the
    tail of the current one is dropped. *)
Fixpoint mergeArrays (A : Type) (merge : A -> A -> A) (cur new : list A)
  : list A :=
  match cur, new with
  | x :: cur', y :: new' => merge x y :: mergeArrays merge cur' new'
  | [], _ => new
  | _ :: _, [] => []
  end.

(** [mergeRegion (r1, r2)] *)
Definition mergeRegion (r1 r2 : Region) : Region :=
  mkRegion (obj r1) (genome r2) (chr r2) (start r2) (end_ r2) (width r2)
           (deltaX r1) (reversed r1) (id r1) (r_length r1).

(** [mergeStrip (s1, s2)] *)
Definition mergeStrip (s1 s2 : Strip) : Strip :=
  mkStrip (s_genome s2) (mergeArrays mergeRegion (regions s1) (regions s2)).

(** An array of computed strips none of which is [null]. *)
Fixpoint allPresent (A : Type) (l : list (option A)) : option (list A) :=
  match l with
  | [] => Some []
  | Some x :: t =>
      match allPresent t with Some t' => Some (x :: t') | None => None end
  | None :: _ => None
  end.

(** [mergeUpdate (strips)].  A [null] among [strips] makes [mergeStrip], or
    the layout that every caller runs next, throw. *)
Definition mergeUpdate (ss : list (option Strip)) : M unit :=
  match allPresent ss with
  | Some l =>
      modifyApp (fun a => set_strips a (mergeArrays mergeStrip (strips a) l))
  | None => throw "TypeError: strip is null"%string
  end.

(** [alignOnLandmark (lcoords, genomes)] *)
Definition alignOnLandmark (lc : LCoords) (genomes : option (list Genome))
  : M unit :=
  a <- getApp ;;
  ss <- computeLandmarkRegions lc (orDefault genomes (currentGenomes a)) ;;
  mergeUpdate ss ;;;
  layout None None ;;;
  modifyApp (fun a =>
    set_currentSelection
      (set_rRegion (set_lcoords (set_scrollLock a true) (Some lc)) None)
      [landmark lc]).

(** The object that [app.rRegion] points to, as it is now: the region of
    the strips with that identity, or the designated value when no strip
    holds it. *)
Definition current (a : App) (r : Region) : Region :=
  match filter (fun x => sameRegion x r) (flat_map regions (strips a)) with
  | x :: _ => x
  | [] => r
  end.

(** The promise [p] of [addStrip]: the strip with the initial region or
    regions for genome [g]. *)
Definition initialStrip (a : App) (g : Genome) : M Strip :=
  if landmarkActive a then
    match lcoords a with
    | Some lc =>
        ss <- computeLandmarkRegions lc [g] ;;
        match ss with
        | Some strip :: _ => ret strip
        | _ => throw "TypeError: strip is null"%string
        end
    | None => throw "unreachable"%string
    end
  else
    match rRegion a with
    | Some rr => mapRegionToGenome (current a rr) g
    | None =>
        match chromosomes g with
        | c :: _ =>
            r0 <- literalRegion g c 1 (Z.min 10000000 (chr_length c)) 1 ;;
            ret (mkStrip g [r0])
        | [] => throw "TypeError: chr is undefined"%string
        end
    end.

(** [addStrip (g, r)] *)
Definition addStrip (g : Genome) (r : option Region) : M Strip :=
  a <- getApp ;;
  p <- initialStrip a g ;;
  a' <- getApp ;;
  let strip := layoutStrip a' p None in
  putApp (set_strips a' (strips a' ++ [strip])) ;;;
  ret strip.

(** [addRegion (r, only)].  In the branch without a strip the source
    evaluates [this.layout()] as the argument of [then], that is before the
    continuation of [addStrip] appends the new strip. *)
Definition addRegion (r : RegionInit) (only : bool) : M unit :=
  r' <- makeRegion r ;;
  a <- getApp ;;
  let si := findStrip a (genome r') in
  if (si =? -1)%Z then
    layout None None ;;; addStrip (genome r') (Some r') ;;; ret tt
  else
    match at_ (strips a) si with
    | Some s =>
        let w := match regions s with
                 | r0 :: _ => width r0
                 | [] => 1
                 end in
        let r1 := set_width r' w in
        let rs := if only then [r1] else regions s ++ [r1] in
        putApp (set_strips a (setAt (strips a) si (set_regions s rs))) ;;;
        layout None None ;;; ret tt
    | None => ret tt
    end.

(** [featureAlign (d)]: [basePos] and [region] of the event may be
    absent. *)
Definition featureAlign (f : Feature) (basePos : option Z)
           (region : option Region) : M unit :=
  let span := (f_end f - f_start f + 1)%Z in
  let anchor :=
    match basePos with
    | Some p => if (p =? 0)%Z then None
                else Some ((Double.ofZ p - Double.ofZ (f_start f) + 1)
                           / (Double.ofZ (f_end f) - Double.ofZ (f_start f)
                              + 1))
    | None => None
    end in
  let l := match region with
           | Some r => (end_ r - start r + 1)%Z
           | None => (3 * span)%Z
           end in
  alignOnLandmark (mkLCoords (Some (ID f)) (f_genome f) anchor 0 l) None.

(* ------------------------------------------------------------------ *)
(** * Navigation modes *)

(** The three modes as the application state encodes them. *)
Definition Locked (a : App) : Prop := scrollLock a = true.
Definition Reference (a : App) : Prop := rRegion a <> None.
Definition Landmark (a : App) : Prop :=
  exists lc l, lcoords a = Some lc /\ landmark lc = Some l.

(** The operations of the manager that the user interface invokes. *)
Inductive Op :=
| OpComputeMappedRegions (r : Region) (genomes : option (list Genome))
| OpAlignOnLandmark (lc : LCoords) (genomes : option (list Genome))
| OpAddStrip (g : Genome) (r : option Region)
| OpDeleteStrip (g : Genome)
| OpMoveBorder (r : Region) (amt : float)
| OpSwap (r : Region)
| OpZoomScrollAll (zAmt sAmt : float)
| OpSplitRegion (r : Region) (frac : float)
| OpRemoveRegion (r : Region)
| OpLayout.

Definition runOp (o : Op) : M unit :=
  match o with
  | OpComputeMappedRegions r gs => computeMappedRegions r gs
  | OpAlignOnLandmark lc gs => alignOnLandmark lc gs
  | OpAddStrip g r => addStrip g r ;;; ret tt
  | OpDeleteStrip g => deleteStrip g
  | OpMoveBorder r amt => moveBorder r amt
  | OpSwap r => swap r
  | OpZoomScrollAll z s => zoomScrollAllRegions z s
  | OpSplitRegion r f => splitRegion r f
  | OpRemoveRegion r => removeRegion r
  | OpLayout => layout None None ;;; ret tt
  end.

(** One completed operation. *)
Definition step (rm rm' : RegionManager) : Prop :=
  exists o, runOp o rm = Ok (tt, rm').

(** The state of a new application: no strips, no reference region, scroll
    lock off, a landmark specification without a landmark. *)
Definition initial (rm : RegionManager) : Prop :=
  strips (app rm) = [] /\ rRegion (app rm) = None /\
  scrollLock (app rm) = false /\
  (exists lc, lcoords (app rm) = Some lc /\ landmark lc = None).

Inductive reachable : RegionManager -> Prop :=
| reach_initial rm : initial rm -> reachable rm
| reach_step rm rm' : reachable rm -> step rm rm' -> reachable rm'.

(* ------------------------------------------------------------------ *)
(** * Sample data *)

Module Sample.

Definition chr1 : Chromosome := mkChromosome "1" 195000000.
Definition chr2 : Chromosome := mkChromosome "2" 182000000.
Definition chr3 : Chromosome := mkChromosome "3" 160000000.
Definition gA : Genome := mkGenome "A" [chr1; chr2; chr3].
Definition gB : Genome := mkGenome "B" [chr1; chr2; chr3].

(** A region of genome [gA] on [chr1] with the given identity, span and
    width. *)
Definition region (o : nat) (s e : Z) (w : float) : Region :=
  mkRegion o gA chr1 s e w 0 false (Some o) None.

(** Features of [gA] on [chr1], in genomic order; [lm] is the landmark. *)
Definition left  : Feature := mkFeature "L" gA chr1 100 200 Plus.
Definition lm    : Feature := mkFeature "LM" gA chr1 300 400 Plus.
Definition right : Feature := mkFeature "R" gA chr1 500 600 Plus.

(** Counterparts in [gB]. *)
Definition rightB (e : Z) : Feature := mkFeature "R" gB chr2 5000 e Plus.
Definition leftB : Feature := mkFeature "L" gB chr3 7000 7100 Minus.

(** A data manager in which the landmark has no counterpart in [gB]; the
    neighbours [left] and [right] have the counterparts [l] and [r]. *)
Definition dm (l r : option Feature) : DataManager :=
  mkDataManager
    (fun ref g =>
       match ref with
       | ById (Some i) =>
           if String.eqb i "LM" && sameGenome g gA then Some lm else None
       | ById None => None
       | ByFeature f =>
           if sameGenome g gB then
             if String.eqb (ID f) "L" then l
             else if String.eqb (ID f) "R" then r
             else None
           else None
       end)
    (fun _ gs => map (fun _ => None) gs)
    (fun _ _ => [left; lm; right]).

Definition noTranslation : Translator :=
  mkTranslator (fun _ _ _ _ _ => []).

Definition lc0 : LCoords := mkLCoords None gA None 0 1000000.
Definition lcLM : LCoords := mkLCoords (Some "LM"%string) gA None 0 1000.

Definition app0 (ss : list Strip) (d : DataManager) : App :=
  mkApp ss None false (Some lc0) [] 1000 d noTranslation.

Definition rm0 (ss : list Strip) (d : DataManager) : RegionManager :=
  mkRegionManager (app0 ss d) 100 None 100.

Definition strip3 (w1 w2 w3 : float) : Strip :=
  mkStrip gA [region 1 1 1000 w1; region 2 2001 3000 w2;
              region 3 4001 5000 w3].

End Sample.

(* ------------------------------------------------------------------ *)
(** * The statements of the specification, as definitions *)

(** The two numbers that a zoom and scroll rounds down, as the
    specification gives them: with [L = end - start + 1],
    [L2 = zoomFactor * L],
    [delta = scrollFactor * max (L, L2) * (-1 if reversed else +1)] and
    [mid = (start + end) / 2], they are [mid - L2 / 2 + delta + 1] and
    [newStart + L2 - 1], where [newStart] is the floor of the first. *)
Definition zoomScrollNumbers (s e : Z) (rev : bool)
           (zoomFactor scrollFactor : float) : float * float :=
  let L := Double.ofZ e - Double.ofZ s + 1 in
  let L2 := zoomFactor * L in
  let dlt := scrollFactor * Double.max L L2 * (if rev then -1 else 1) in
  let mid := (Double.ofZ s + Double.ofZ e) / 2 in
  let x := mid - L2 / 2 + dlt + 1 in
  (x, Double.ofZ (Double.floor x) + L2 - 1).

(** The coordinates after a zoom and scroll as the specification gives
    them. *)
Definition zoomScrollCoords (s e : Z) (rev : bool)
           (zoomFactor scrollFactor : float) : Z * Z :=
  let '(x, y) := zoomScrollNumbers s e rev zoomFactor scrollFactor in
  (Double.floor x, Double.floor y).

(** A number that is neither NaN nor an infinity. *)
Definition finite (x : float) : Prop := is_finite x = true.

(** A span of a chromosome. *)
Definition Span : Type := Chromosome * Z * Z.
Definition spanOf (b : Block) : Span := (b_chr b, b_start b, b_end b).

(** Coalescing as the specification words it, on blocks already sorted:
    [cur] is the group being built, [prevIndex] the index of the previous
    block; a block with the same index is dropped, a block with the next
    index extends the group to its end, any other block starts a group. *)
Fixpoint coalesce (cur : Span) (prevIndex : Z) (rest : list Block)
  : list Span :=
  match rest with
  | [] => [cur]
  | b :: rest' =>
      if (index b =? prevIndex)%Z then coalesce cur prevIndex rest'
      else if (prevIndex + 1 =? index b)%Z then
        let '(c, s, _) := cur in coalesce (c, s, b_end b) (index b) rest'
      else cur :: coalesce (spanOf b) (index b) rest'
  end.

Definition coalesced (sorted : list Block) : list Span :=
  match sorted with
  | [] => []
  | b :: rest => coalesce (spanOf b) (index b) rest
  end.

(** Blocks in non-decreasing order of index. *)
Fixpoint sortedByIndex (l : list Block) : Prop :=
  match l with
  | [] => True
  | b :: t =>
      match t with
      | [] => True
      | b' :: _ => (index b <= index b')%Z
      end /\ sortedByIndex t
  end.

(** What [moveBorder] must leave alone on a region. *)
Definition coords (r : Region) : nat * Genome * Chromosome * Z * Z :=
  (obj r, genome r, chr r, start r, end_ r).

(** The sum of the widths of the regions of a strip, added up from the
    left. *)
Definition sumWidths (rs : list Region) : float := Double.sum (map width rs).

(** One transfer of [t] pixels across the border after the region at
    position [i], on the widths of a strip: that region gets [t] more and
    its right-hand neighbour [t] less. *)
Fixpoint transfer (i : nat) (t : float) (ws : list float) : list float :=
  match i, ws with
  | O, a :: b :: rest => (a + t) :: (b - t) :: rest
  | S i', a :: rest => a :: transfer i' t rest
  | _, _ => ws
  end.

(** Transfers made one after the other. *)
Definition transfers (ts : list (nat * float)) (ws : list float)
  : list float :=
  fold_left (fun ws it => transfer (fst it) (snd it) ws) ts ws.

(** What [moveBorder] relates on a strip before and after. *)
Definition transferred (s s' : Strip) : Prop :=
  s_genome s' = s_genome s /\
  map coords (regions s') = map coords (regions s) /\
  exists ts, map width (regions s') = transfers ts (map width (regions s)).

(** The cascade of a border move to the right as the specification words
    it.  The border between a region of width [wa] and the regions of
    widths [ws] to its right is to move right by [amt]: the excess of
    [amt] over the slack of the neighbour (its width above the minimum) is
    pushed on to the border after the neighbour; what that border does not
    take is dropped from the move; at the end of the strip nothing moves.
    The result is the new widths of all these regions and the amount by
    which the border moved. *)
Fixpoint pushRight (amt min wa : float) (ws : list float)
  : list float * float :=
  match ws with
  | [] => ([wa], 0)
  | wb :: rest =>
      let excess := Double.max 0 (amt - (wb - min)) in
      let '(rs, moved) :=
        if 0 <? excess then
          let '(rs, absorbed) := pushRight excess min wb rest in
          (rs, amt - (excess - absorbed))
        else (wb :: rest, amt) in
      match rs with
      | wb' :: rest' => ((wa + moved) :: (wb' - moved) :: rest', moved)
      | [] => ([wa], 0)
      end
  end.

(** The cascade to the left.  The border between the regions of widths
    [ws], nearest first, and a region of width [wb] to their right is to
    move by the negative amount [amt]: the excess over the slack of the
    nearest region is pushed on to the border before it.  The result is the
    new widths of the regions on the left, nearest first, the new width of
    the region on the right, and the amount by which the border moved. *)
Fixpoint pushLeft (amt min : float) (ws : list float) (wb : float)
  : list float * float * float :=
  match ws with
  | [] => ([], wb, 0)
  | wa :: rest =>
      let excess := Double.min 0 (amt + (wa - min)) in
      let '(ls, moved) :=
        if excess <? 0 then
          let '(ls, wa', absorbed) := pushLeft excess min rest wa in
          (wa' :: ls, amt - (excess - absorbed))
        else (wa :: rest, amt) in
      match ls with
      | wa' :: rest' => ((wa' + moved) :: rest', wb - moved, moved)
      | [] => ([], wb, 0)
      end
  end.

(** The widths of a strip after the border behind the regions [front] and
    the region of width [wa] has been moved by [amt]. *)
Definition cascade (amt min : float) (front : list float) (wa : float)
           (back : list float) : list float :=
  match back with
  | [] => front ++ [wa]
  | wb :: rest =>
      if 0 <? amt then front ++ fst (pushRight amt min wa back)
      else if amt <? 0 then
        let '(ls, wb', _) := pushLeft amt min (wa :: rev front) wb in
        rev ls ++ wb' :: rest
      else front ++ wa :: back
  end.

(** The pieces of [scaleAdjust]: the scale factor, a scaled number with
    the minimum imposed, and the tally of what the minimum adds. *)
Definition scaleFactor (avail : float) (ws : list float) : float :=
  avail / Double.sum ws.
Definition clamp (f m n : float) : float := if f * n <? m then m else f * n.
Definition deficitOf (f m : float) (ws : list float) : float :=
  fold_left (fun d n => if f * n <? m then d + (m - f * n) else d) ws 0.

(** The width available to the regions of a strip of [n] regions. *)
Definition availWidth (totalWidth : float) (n : nat) : float :=
  totalWidth - (endCap + regionGap * (Double.ofZ (Z.of_nat n) - 1)).

(** The total width that [layoutStrip] works with. *)
Definition effectiveWidth (a : App) (totalWidth : option float) : float :=
  match totalWidth with
  | Some w => Double.orElse w (zoomWidth a)
  | None => zoomWidth a
  end.

(** The weights that [layoutStrip] reads off the regions. *)
Definition weights (rs : list Region) : list float :=
  map (fun r => Double.orElse (width r) minWidth) rs.

(** The available width of a strip under a total width. *)
Definition availOf (a : App) (totalWidth : option float) (s : Strip)
  : float :=
  availWidth (effectiveWidth a totalWidth) (List.length (regions s)).

(** A strip whose widths [scaleAdjust] gives back when they are taken as
    the weights. *)
Definition reproduced (a : App) (totalWidth : option float) (s : Strip)
  : Prop :=
  scaleAdjust (weights (regions s)) (availOf a totalWidth s) minWidth
  = map width (regions s).

(** A strip without regions, or one whose widths are all at least the
    minimum and add up, from the left and in double precision, exactly to
    its available width, a finite number other than 0. *)
Definition settled (a : App) (totalWidth : option float) (s : Strip)
  : Prop :=
  regions s = [] \/
  (Forall (fun r => (minWidth <=? width r) = true) (regions s) /\
   sumWidths (regions s) = availOf a totalWidth s /\
   finite (availOf a totalWidth s) /\
   (availOf a totalWidth s =? 0) = false).

(** The widths and offsets of the regions of some strips. *)
Definition geometry (ss : list Strip) : list (list (float * float)) :=
  map (fun s => map (fun r => (width r, deltaX r)) (regions s)) ss.

(** The span of a region. *)
Definition regionSpan (r : Region) : Span := (chr r, start r, end_ r).

(** The two counterparts that [guessLandmarkRegion] works from: the
    genologs of the nearest neighbours of the landmark [lmf] on each side
    that have one in genome [g]. *)
Definition neighborGenologs (a : App) (lc : LCoords) (g : Genome)
           (lmf : Feature) : option Feature * option Feature :=
  let dm := dataManager a in
  let neighbors := getAllFeaturesNow dm (lgenome lc) (f_chr lmf) in
  let lmi := indexOf sameFeature neighbors lmf in
  (findNeighborGenolog dm neighbors lmf lmi g (-1),
   findNeighborGenolog dm neighbors lmf lmi g 1).

Local Open Scope Q_scope.

(** The window of [len] bases whose start is [len / 2] before [x]. *)
Definition windowAt (c : Chromosome) (x : Q) (len : Z) : Span :=
  (c, Qfloor (x - inject_Z len / 2),
   (Qfloor (x - inject_Z len / 2) + len - 1)%Z).

(** The regions that the specification gives for two counterparts: on one
    chromosome, one window around the middle of their combined extent; on
    two chromosomes, one window per counterpart around its start. *)
Definition guessedSpans (len : Z) (n1 n2 : Feature) : list Span :=
  if sameChr (f_chr n1) (f_chr n2) then
    [windowAt (f_chr n1)
              ((inject_Z (Z.min (f_start n1) (f_start n2))
                + inject_Z (Z.max (f_end n1) (f_end n2))) / 2) len]
  else
    [windowAt (f_chr n1) (inject_Z (f_start n1)) len;
     windowAt (f_chr n2) (inject_Z (f_start n2)) len].

Local Open Scope float_scope.

(** A computation that, when it completes, leaves the application object
    as it found it (it may create objects and count regions). *)
Definition keepsApp (A : Type) (m : M A) : Prop :=
  forall rm x rm', m rm = Ok (x, rm') -> app rm' = app rm.

(** The modes carried from one state to the next: the scroll lock and the
    landmark are as before; the reference region is as before or has been
    cleared. *)
Definition modesKept (a a' : App) : Prop :=
  scrollLock a' = scrollLock a /\
  (rRegion a' = rRegion a \/ rRegion a' = None) /\
  option_map landmark (lcoords a') = option_map landmark (lcoords a).

(** A computation that, when it completes, carries the modes over. *)
Definition keepsModes (A : Type) (m : M A) : Prop :=
  forall rm x rm', m rm = Ok (x, rm') -> modesKept (app rm) (app rm').

(** Reference mode excludes the other two. *)
Definition referenceExclusive (a : App) : Prop :=
  Reference a -> ~ Locked a /\ ~ Landmark a.

(** Offsets that follow from the widths: the first region is at [dx] and
    every next one begins where the one before it ends, plus the gap. *)
Fixpoint abutting (dx : float) (rs : list Region) : Prop :=
  match rs with
  | [] => True
  | r :: t =>
      deltaX r = dx /\ abutting (deltaX r + (width r + regionGap)) t
  end.

(** Blocks whose indices increase by at least 2 from one to the next, so
    that no two of them could be combined. *)
Fixpoint separated (l : list Block) : Prop :=
  match l with
  | [] => True
  | b :: t =>
      match t with
      | [] => True
      | b' :: _ => (index b + 2 <= index b')%Z
      end /\ separated t
  end.

(** The place of the region object [r] in the view: [s] is the first strip
    of [r]'s genome, between the strips [pre] and [post], and [r0] is the
    first region of [s] that is the object [r], between the regions
    [before] and [after].  This is where [findRegion] looks. *)
Definition located (a : App) (r : Region) (pre : list Strip) (s : Strip)
           (post : list Strip) (before : list Region) (r0 : Region)
           (after : list Region) : Prop :=
  strips a = pre ++ s :: post /\
  Forall (fun t => s_genome t <> genome r) pre /\ s_genome s = genome r /\
  regions s = before ++ r0 :: after /\
  Forall (fun x => obj x <> obj r) before /\ obj r0 = obj r.

(** Whether a strip holds the region object [r]. *)
Definition holds (s : Strip) (r : Region) : bool :=
  existsb (fun x => sameRegion x r) (regions s).

(* ------------------------------------------------------------------ *)
(** * HomologyManager *)

(** A JavaScript object used as a dictionary from strings: its entries in
    the order in which the keys were added.  The methods below look keys
    up and enumerate them; what they store under a key does not depend on
    the order of the enumeration.  The dictionary holds the object's own
    properties: a key that names a member which every object inherits
    ([inherited] below) is outside the embedding, since a lookup under it
    finds that member on an object without the key. *)
Definition Dict (V : Type) : Type := list (string * V).

(** The names of the members of [Object.prototype]. *)
Definition inherited : list string :=
  ["constructor"; "hasOwnProperty"; "isPrototypeOf"; "propertyIsEnumerable";
   "toLocaleString"; "toString"; "valueOf"; "__proto__";
   "__defineGetter__"; "__defineSetter__"; "__lookupGetter__";
   "__lookupSetter__"]%string.

(** A key that names no inherited member. *)
Definition plainKey (k : string) : Prop := ~ In k inherited.

(** [d[k]]; [None] is [undefined]. *)
Fixpoint dget (V : Type) (d : Dict V) (k : string) : option V :=
  match d with
  | [] => None
  | (k', v) :: t => if String.eqb k' k then Some v else dget t k
  end.

(** [d[k] = v] *)
Fixpoint dput (V : Type) (d : Dict V) (k : string) (v : V) : Dict V :=
  match d with
  | [] => [(k, v)]
  | (k', v') :: t =>
      if String.eqb k' k then (k', v) :: t else (k', v') :: dput t k v
  end.

(** [o || {}] and [o || []]: objects and arrays are never falsy. *)
Definition orEmpty (A : Type) (o : option (list A)) : list A :=
  match o with Some l => l | None => [] end.

(** [this.index]: taxonA -> taxonB -> idA -> [idB]. *)
Definition Index : Type := Dict (Dict (Dict (list string))).

(** A row [[idA, taxonA, idB, taxonB, YNcode]] of the homology data. *)
Record Row := mkRow {
  row_idA : string;
  row_txA : string;
  row_idB : string;
  row_txB : string;
  row_yn  : string
}.

(** A row whose taxons and [idA], the keys it is stored under, are plain
    keys. *)
Definition plainRow (r : Row) : Prop :=
  plainKey (row_idA r) /\ plainKey (row_txA r) /\ plainKey (row_txB r).

(** The callback of [data.forEach] in the constructor. *)
Definition addRow (index : Index) (r : Row) : Index :=
  let i0 := orEmpty (dget index (row_txA r)) in
  let i1 := orEmpty (dget i0 (row_txB r)) in
  let ar := orEmpty (dget i1 (row_idA r)) in
  dput index (row_txA r)
       (dput i0 (row_txB r) (dput i1 (row_idA r) (ar ++ [row_idB r]))).

(** The index that the constructor builds from the fetched data. *)
Definition buildIndex (data : list Row) : Index := fold_left addRow data [].

(** [lib/utils], a collaborator that is not among the sources; only
    [flatten] is used here. *)
Record Utils := mkUtils {
  flatten : list (list string) -> list string
}.

(** [Array.from (new Set (l))]: the first occurrence of every element, in
    order. *)
Fixpoint uniq (l : list string) : list string :=
  match l with
  | [] => []
  | x :: t => x :: filter (fun y => negb (String.eqb x y)) (uniq t)
  end.

(** The body of [txBs.forEach] in [computeInferredParalogs]: the paralog
    index after the taxon [txB].  The dictionary [paraIx] is only ever
    built by assignments to its keys, so every key occurs once in it and
    the last loop can go over its entries. *)
Definition paralogsVia (u : Utils) (index : Index) (txA : string)
           (paraIx : Dict (list string)) (txB : string)
  : Dict (list string) :=
  if String.eqb txA txB then paraIx
  else
    let Aix := orEmpty (dget index txA) in
    let Bix := orEmpty (dget index txB) in
    let ABix := orEmpty (dget Aix txB) in
    let BAix := orEmpty (dget Bix txA) in
    let paraIx1 :=
      fold_left
        (fun p idA =>
           let idBs := orEmpty (dget ABix idA) in
           let idAs :=
             flatten u (map (fun idB => orEmpty (dget BAix idB)) idBs) in
           dput p idA (match dget p idA with
                       | Some l => l ++ idAs
                       | None => idAs
                       end))
        (map fst ABix) paraIx in
    map (fun e => (fst e, uniq (snd e))) paraIx1.

(** [computeInferredParalogs (txA, txBs)] *)
Definition computeInferredParalogs (u : Utils) (txA : string)
           (txBs : list string) (index : Index) : Index :=
  let Aix := orEmpty (dget index txA) in
  let paraIx := fold_left (paralogsVia u index txA) txBs [] in
  dput index txA (dput Aix txA paraIx).

(** [computeAllInferredParalogs (txAs)] with the taxons given. *)
Definition computeAllInferredParalogs (u : Utils) (txAs : list string)
           (index : Index) : Index :=
  fold_left (fun ix txA => computeInferredParalogs u txA txAs ix) txAs index.

(** The callback of [txBs.map] in [getHomologIds]: the array [homs] for
    the taxon [txB], and the index after the call.  An array found in the
    index is extended in place; an array made for a missing entry is not
    stored. *)
Definition homsOf (idA txA : string) (index : Index) (txB : string)
  : list string * Index :=
  let Aix := orEmpty (dget index txA) in
  let ABix := orEmpty (dget Aix txB) in
  match dget ABix idA with
  | Some homs =>
      if String.eqb txA txB && negb (existsb (String.eqb idA) homs) then
        (homs ++ [idA],
         dput index txA (dput Aix txB (dput ABix idA (homs ++ [idA]))))
      else (homs, index)
  | None =>
      if String.eqb txA txB then ([idA], index) else ([], index)
  end.

(** The array [homIds] of [getHomologIds]. *)
Fixpoint homIds (idA txA : string) (txBs : list string) (index : Index)
  : list (list string) * Index :=
  match txBs with
  | [] => ([], index)
  | txB :: t =>
      let '(h, index1) := homsOf idA txA index txB in
      let '(hs, index2) := homIds idA txA t index1 in
      (h :: hs, index2)
  end.

(** [getHomologIds (idA, txA, txBs)]: the ids and the index after the
    call. *)
Definition getHomologIds (u : Utils) (idA txA : string) (txBs : list string)
           (index : Index) : list string * Index :=
  let '(hs, index') := homIds idA txA txBs index in
  (flatten u hs, index').

(** [getOrthologIds (idA, txA, txBs)] *)
Definition getOrthologIds (u : Utils) (idA txA : string) (txBs : list string)
           (index : Index) : list string * Index :=
  getHomologIds u idA txA
                (filter (fun txB => negb (String.eqb txB txA)) txBs) index.

(** [getInferredParalogIds (idA, txA)] *)
Definition getInferredParalogIds (u : Utils) (idA txA : string)
           (index : Index) : list string * Index :=
  getHomologIds u idA txA [txA] index.

(** [getHomologIdsExt (idA, txA, txBs)] *)
Definition getHomologIdsExt (u : Utils) (idA txA : string)
           (txBs : list string) (index : Index) : list string * Index :=
  let '(idAs, index1) := getInferredParalogIds u idA txA index in
  let '(idBs, index2) :=
    fold_left (fun acc a =>
                 let '(l, ix) := acc in
                 let '(o, ix') := getOrthologIds u a txA txBs ix in
                 (l ++ [o], ix'))
              idAs ([], index1) in
  (uniq (flatten u (idBs ++ [idAs])), index2).

(** The entry of the index that the methods read for the taxons [a] and
    [b] and the id [i]: [((index[a] || {})[b] || {})[i]]. *)
Definition lookup3 (index : Index) (a b i : string) : option (list string) :=
  dget (orEmpty (dget (orEmpty (dget index a)) b)) i.

(** The ids [idB] of the rows of [data] with the taxons [a] and [b] and
    the id [i], in the order of the rows. *)
Definition homologsIn (data : list Row) (a b i : string) : list string :=
  map row_idB
      (filter (fun r => String.eqb (row_txA r) a && String.eqb (row_txB r) b
                        && String.eqb (row_idA r) i) data).


(** Sample homology data: a1 of taxon 1 has the homolog b1 in taxon 2,
    and b1 has the homologs a1 and a2 in taxon 1; [flatten] concatenates
    the arrays. *)
Module SampleHomology.

Definition t1 : string := "1".
Definition t2 : string := "2".
Definition a1 : string := "a1".
Definition a2 : string := "a2".
Definition b1 : string := "b1".
Definition utils : Utils := mkUtils (@List.concat string).
Definition index : Index :=
  buildIndex [mkRow a1 t1 b1 t2 "NY"; mkRow b1 t2 a1 t1 "NY";
              mkRow b1 t2 a2 t1 "NY"].

End SampleHomology.

(* ------------------------------------------------------------------ *)
(** * Properties *)

Unset Implicit Arguments.

(** ** Numbers *)

Lemma iter_pos_nat (A : Type) (f : A -> A) (p : positive) (x : A) :
  iter_pos f p x = Nat.iter (Pos.to_nat p) f x.
Proof.
  revert x. induction p as [p IH | p IH |]; intro x; cbn [iter_pos].
  - rewrite !IH, Pos2Nat.inj_xI. cbn [Nat.mul].
    rewrite Nat.add_0_r, Nat.iter_succ_r, Nat.iter_add. reflexivity.
  - rewrite !IH, Pos2Nat.inj_xO. cbn [Nat.mul].
    rewrite Nat.add_0_r, Nat.iter_add. reflexivity.
  - reflexivity.
Qed.

Lemma digits_shifted (n : nat) (m : positive) :
  Zpos (digits2_pos (Nat.iter n xO m)) = (Zpos (digits2_pos m) + Z.of_nat n)%Z.
Proof.
  induction n as [| n IH].
  - simpl. lia.
  - change (Nat.iter (S n) xO m) with (xO (Nat.iter n xO m)).
    cbn [digits2_pos]. rewrite Pos2Z.inj_succ, IH. lia.
Qed.

(** Shifting a mantissa that ends in [n] zeros right by [n] loses nothing. *)
Lemma shr_shifted (n : nat) (m : positive) :
  Nat.iter n shr_1 (Build_shr_record (Zpos (Nat.iter n xO m)) false false)
  = Build_shr_record (Zpos m) false false.
Proof.
  induction n as [| n IH].
  - reflexivity.
  - rewrite Nat.iter_succ_r.
    change (Nat.iter (S n) xO m) with (xO (Nat.iter n xO m)).
    cbn [shr_1 orb]. exact IH.
Qed.

Lemma canonical_fexp (m : positive) (e : Z) :
  bounded prec emax m e = true ->
  fexp prec emax (Zpos (digits2_pos m) + e) = e /\ (e <= emax - prec)%Z.
Proof.
  unfold bounded, canonical_mantissa. intro H.
  apply andb_true_iff in H. destruct H as [H1 H2].
  split; [apply Z.eqb_eq, H1 | apply Z.leb_le, H2].
Qed.

(** Rounding a number that is a double gives that double: the mantissa
    [m * 2^n] at exponent [e - n] rounds to [m] at [e]. *)
Lemma round_exact (sx : bool) (m : positive) (e : Z) (n : nat) :
  bounded prec emax m e = true ->
  binary_round_aux prec emax sx (Zpos (Nat.iter n xO m)) (e - Z.of_nat n)
                   loc_Exact
  = S754_finite sx m e.
Proof.
  intro B. destruct (canonical_fexp m e B) as [C L].
  unfold binary_round_aux, shr_fexp. cbn [Zdigits2].
  rewrite digits_shifted.
  replace (Zpos (digits2_pos m) + Z.of_nat n + (e - Z.of_nat n))%Z
    with (Zpos (digits2_pos m) + e)%Z by lia.
  rewrite C.
  replace (e - (e - Z.of_nat n))%Z with (Z.of_nat n) by lia.
  assert (S : shr (shr_record_of_loc (Zpos (Nat.iter n xO m)) loc_Exact)
                  (e - Z.of_nat n) (Z.of_nat n)
              = (Build_shr_record (Zpos m) false false, e)).
  { destruct n as [| n].
    - cbn. f_equal. lia.
    - cbn [Z.of_nat shr shr_record_of_loc]. rewrite iter_pos_nat.
      rewrite SuccNat2Pos.id_succ, shr_shifted. f_equal.
      pose proof (Zpos_P_of_succ_nat n). lia. }
  rewrite S. cbn [shr_m loc_of_shr_record round_nearest_even Zdigits2].
  rewrite C, Z.sub_diag. cbn [shr shr_record_of_loc shr_m].
  apply Z.leb_le in L. rewrite L. reflexivity.
Qed.

Lemma Prim2SF_bounded (x : float) (s : bool) (m : positive) (e : Z) :
  Prim2SF x = S754_finite s m e -> bounded prec emax m e = true.
Proof.
  intro E. pose proof (Prim2SF_valid x) as V. rewrite E in V. exact V.
Qed.

(** Multiplying by 1 changes nothing. *)
Lemma mul_1_r (x : float) : x * 1 = x.
Proof.
  apply Prim2SF_inj. rewrite mul_spec. unfold SF64mul.
  change (Prim2SF 1) with (S754_finite false 4503599627370496 (-52)).
  destruct (Prim2SF x) as [s | s | | s m e] eqn:E; cbn [SFmul].
  - rewrite xorb_false_r. reflexivity.
  - rewrite xorb_false_r. reflexivity.
  - reflexivity.
  - rewrite xorb_false_r, Pos.mul_comm.
    apply (round_exact s m e 52), (Prim2SF_bounded x s m e E).
Qed.

Lemma mul_1_l (x : float) : 1 * x = x.
Proof.
  apply Prim2SF_inj. rewrite mul_spec. unfold SF64mul.
  change (Prim2SF 1) with (S754_finite false 4503599627370496 (-52)).
  destruct (Prim2SF x) as [s | s | | s m e] eqn:E; cbn [SFmul xorb].
  - reflexivity.
  - reflexivity.
  - reflexivity.
  - rewrite Z.add_comm.
    apply (round_exact s m e 52), (Prim2SF_bounded x s m e E).
Qed.

(** Multiplying by -1 changes the sign. *)
Lemma mul_m1_r (x : float) : x * (-1) = - x.
Proof.
  apply Prim2SF_inj. rewrite mul_spec, opp_spec. unfold SF64mul.
  change (Prim2SF (-1)) with (S754_finite true 4503599627370496 (-52)).
  destruct (Prim2SF x) as [s | s | | s m e] eqn:E; cbn [SFmul SFopp].
  - rewrite xorb_true_r. reflexivity.
  - rewrite xorb_true_r. reflexivity.
  - reflexivity.
  - rewrite xorb_true_r, Pos.mul_comm.
    apply (round_exact (negb s) m e 52), (Prim2SF_bounded x s m e E).
Qed.

(** The sign of a factor passes to the product. *)
Lemma round_sign (s : bool) (m : Z) (e : Z) (l : location) :
  binary_round_aux prec emax (negb s) m e l
  = SFopp (binary_round_aux prec emax s m e l).
Proof.
  unfold binary_round_aux.
  destruct (shr_fexp prec emax m e l) as [mrs' e'].
  destruct (shr_fexp prec emax _ e' loc_Exact) as [mrs'' e''].
  destruct (shr_m mrs'') as [| p | p]; try reflexivity.
  destruct (e'' <=? emax - prec)%Z; reflexivity.
Qed.

Lemma mul_opp_l (x y : float) : (- x) * y = - (x * y).
Proof.
  apply Prim2SF_inj. rewrite opp_spec, !mul_spec, opp_spec. unfold SF64mul.
  destruct (Prim2SF x) as [s | s | | s m e];
    destruct (Prim2SF y) as [s' | s' | | s' m' e'];
    cbn [SFmul SFopp]; try (destruct s, s'; reflexivity); try reflexivity.
  destruct s, s'; cbn [xorb negb]; try apply (round_sign false);
    rewrite (round_sign false);
    destruct (binary_round_aux _ _ false _ _ _) as [[] | [] | | [] ? ?];
    reflexivity.
Qed.

(** A finite number that is not 0 divided by itself is 1. *)
Lemma div_same (x : float) (s : bool) (m : positive) (e : Z) :
  Prim2SF x = S754_finite s m e -> x / x = 1.
Proof.
  intro E. apply Prim2SF_inj. rewrite div_spec, E. unfold SF64div.
  change (Prim2SF 1) with (S754_finite false 4503599627370496 (-52)).
  unfold SFdiv, SFdiv_core_binary.
  rewrite !Z.sub_diag, xorb_nilpotent.
  change (IntDef.Z.min (fexp prec emax 0) 0) with (-53)%Z.
  change (0 - -53)%Z with 53%Z. cbv iota.
  change (IntDef.Z.div_eucl (IntDef.Z.shiftl (Zpos m) 53) (Zpos m))
    with (Z.div_eucl (Z.shiftl (Zpos m) 53) (Zpos m)).
  assert (D : Z.div_eucl (Z.shiftl (Zpos m) 53) (Zpos m)
              = (9007199254740992, 0)%Z).
  { rewrite Z.shiftl_mul_pow2 by lia.
    pose proof (Z_div_mod (Zpos m * 2 ^ 53) (Zpos m) eq_refl) as H.
    destruct (Z.div_eucl (Zpos m * 2 ^ 53) (Zpos m)) as [q r].
    destruct H as [H1 H2].
    assert (q = 2 ^ 53)%Z by nia.
    assert (r = 0)%Z by nia.
    subst. reflexivity. }
  rewrite D.
  assert (N : new_location (Zpos m) 0 = loc_Exact).
  { unfold new_location. destruct (IntDef.Z.even (Zpos m)); reflexivity. }
  rewrite N.
  exact (round_exact false 4503599627370496 (-52) 1 eq_refl).
Qed.

(** Comparisons. *)
Lemma SFcompare_antisym (x y : spec_float) :
  SFcompare y x = match SFcompare x y with
                  | Some c => Some (CompOpp c)
                  | None => None
                  end.
Proof.
  destruct x as [sx | sx | | sx mx ex]; destruct y as [sy | sy | | sy my ey];
    cbn [SFcompare]; try (destruct sx; reflexivity);
    try (destruct sy; reflexivity); try (destruct sx, sy; reflexivity);
    try reflexivity.
  change (IntDef.Z.compare ey ex) with (Z.compare ey ex).
  change (IntDef.Z.compare ex ey) with (Z.compare ex ey).
  change (PosDef.Pos.compare_cont Eq my mx) with (Pos.compare_cont Eq my mx).
  change (PosDef.Pos.compare_cont Eq mx my) with (Pos.compare_cont Eq mx my).
  rewrite (Z.compare_antisym ex ey).
  pose proof (Pos.compare_cont_antisym mx my Eq) as P. cbn [CompOpp] in P.
  rewrite <- P.
  destruct sx, sy; cbn [CompOpp]; try reflexivity;
    destruct (Z.compare ex ey); cbn [CompOpp]; reflexivity.
Qed.

Lemma ltb_leb (x y : float) : (x <? y) = true -> (y <=? x) = false.
Proof.
  rewrite ltb_spec, leb_spec. unfold SFltb, SFleb.
  rewrite (SFcompare_antisym (Prim2SF x) (Prim2SF y)).
  destruct (SFcompare (Prim2SF x) (Prim2SF y)) as [[] |];
    cbn [CompOpp]; intro H; try discriminate; reflexivity.
Qed.

Lemma leb_ltb (x y : float) : (x <=? y) = true -> (y <? x) = false.
Proof.
  rewrite ltb_spec, leb_spec. unfold SFltb, SFleb.
  rewrite (SFcompare_antisym (Prim2SF x) (Prim2SF y)).
  destruct (SFcompare (Prim2SF x) (Prim2SF y)) as [[] |];
    cbn [CompOpp]; intro H; try discriminate; reflexivity.
Qed.

Lemma ltb_asym (x y : float) : (x <? y) = true -> (y <? x) = false.
Proof.
  rewrite !ltb_spec. unfold SFltb.
  rewrite (SFcompare_antisym (Prim2SF x) (Prim2SF y)).
  destruct (SFcompare (Prim2SF x) (Prim2SF y)) as [[] |];
    cbn [CompOpp]; intro H; try discriminate; reflexivity.
Qed.

Lemma ltb_irrefl (x : float) : (x <? x) = false.
Proof.
  destruct (x <? x) eqn:E; [| reflexivity].
  rewrite (ltb_asym x x E) in E. discriminate.
Qed.

Lemma SFcompare_refl (x : spec_float) :
  x <> S754_nan -> SFcompare x x = Some Eq.
Proof.
  destruct x as [s | s | | s m e]; intro H; cbn [SFcompare].
  - reflexivity.
  - destruct s; reflexivity.
  - contradiction H; reflexivity.
  - change (IntDef.Z.compare e e) with (Z.compare e e).
    rewrite Z.compare_refl.
    change (PosDef.Pos.compare_cont Eq m m) with (Pos.compare m m).
    rewrite Pos.compare_refl. destruct s; reflexivity.
Qed.

(** A number that is at least a positive number is not 0 and not NaN. *)
Lemma leb_truthy (x w : float) (m : positive) (e : Z) :
  Prim2SF x = S754_finite false m e ->
  (x <=? w) = true -> Double.falsy w = false.
Proof.
  intros Hx H. unfold Double.falsy, is_nan.
  rewrite leb_spec, Hx in H. rewrite !eqb_spec.
  change (Prim2SF 0) with (S754_zero false).
  unfold SFleb in H. unfold SFeqb.
  destruct (Prim2SF w) as [s | s | | s p q] eqn:E.
  - discriminate H.
  - destruct s; [discriminate H | reflexivity].
  - discriminate H.
  - rewrite SFcompare_refl by discriminate.
    cbn [SFcompare]. destruct s; reflexivity.
Qed.

Lemma opp_involutive (x : float) : - - x = x.
Proof.
  apply Prim2SF_inj. rewrite !opp_spec.
  destruct (Prim2SF x) as [s | s | | s m e]; cbn [SFopp];
    rewrite ?negb_involutive; reflexivity.
Qed.

(** ** Numbers: integers and halves of integers *)

Lemma Zpos_iter_xO (t : nat) (p : positive) :
  Zpos (Nat.iter t xO p) = (Zpos p * 2 ^ Z.of_nat t)%Z.
Proof.
  induction t as [| t IH].
  - simpl. lia.
  - change (Nat.iter (S t) xO p) with (xO (Nat.iter t xO p)).
    rewrite Pos2Z.inj_xO, IH, Nat2Z.inj_succ, Z.pow_succ_r by lia. lia.
Qed.

Lemma digits2_lower (p : positive) :
  (2 ^ (Zpos (digits2_pos p) - 1) <= Zpos p)%Z.
Proof.
  induction p as [p IH | p IH |]; cbn [digits2_pos].
  - rewrite Pos2Z.inj_succ.
    replace (Z.succ (Zpos (digits2_pos p)) - 1)%Z
      with (Z.succ (Zpos (digits2_pos p) - 1))%Z by lia.
    rewrite Z.pow_succ_r by lia. lia.
  - rewrite Pos2Z.inj_succ.
    replace (Z.succ (Zpos (digits2_pos p)) - 1)%Z
      with (Z.succ (Zpos (digits2_pos p) - 1))%Z by lia.
    rewrite Z.pow_succ_r by lia. lia.
  - simpl. lia.
Qed.

Lemma digits2_small (p : positive) :
  (Zpos p < 2 ^ 53)%Z -> (Zpos (digits2_pos p) <= 53)%Z.
Proof.
  intro H. pose proof (digits2_lower p) as L.
  destruct (Z_le_gt_dec (Zpos (digits2_pos p)) 53) as [K | K]; [exact K |].
  exfalso.
  assert (2 ^ 53 <= 2 ^ (Zpos (digits2_pos p) - 1))%Z
    by (apply Z.pow_le_mono_r; lia).
  lia.
Qed.

Lemma bounded_small (m : positive) (e : Z) :
  (Zpos m < 2 ^ 53)%Z -> (-1000 <= e <= 900)%Z ->
  bounded prec emax
          (Nat.iter (Z.to_nat (53 - Zpos (digits2_pos m))) xO m)
          (e + Zpos (digits2_pos m) - 53) = true.
Proof.
  intros Hm He. pose proof (digits2_small m Hm) as Hd.
  pose proof (Pos2Z.is_pos (digits2_pos m)) as Hd0.
  unfold bounded, canonical_mantissa. rewrite digits_shifted.
  rewrite Z2Nat.id by lia.
  apply andb_true_iff. split.
  - apply Z.eqb_eq. unfold fexp, emin, prec, emax.
    change (IntDef.Z.max) with Z.max. change (IntDef.Z.sub) with Z.sub.
    lia.
  - apply Z.leb_le. unfold prec, emax. lia.
Qed.

(** Rounding a small integer, scaled by a power of 2, gives the number
    itself with a mantissa of 53 bits. *)
Lemma binary_round_small (s : bool) (m : positive) (e : Z) (t : nat) :
  (Zpos m < 2 ^ 53)%Z -> (-1000 <= e <= 900)%Z ->
  binary_round prec emax s (Nat.iter t xO m) (e - Z.of_nat t)
  = S754_finite s
      (Nat.iter (Z.to_nat (53 - Zpos (digits2_pos m))) xO m)
      (e + Zpos (digits2_pos m) - 53).
Proof.
  intros Hm He. pose proof (digits2_small m Hm) as Hd.
  pose proof (Pos2Z.is_pos (digits2_pos m)) as Hd0.
  pose proof (bounded_small m e Hm He) as B.
  set (d := Zpos (digits2_pos m)) in *.
  set (k := Z.to_nat (53 - d)) in *.
  unfold binary_round. rewrite digits_shifted. fold d.
  replace (d + Z.of_nat t + (e - Z.of_nat t))%Z with (d + e)%Z by lia.
  assert (Fx : fexp prec emax (d + e) = (e + d - 53)%Z).
  { unfold fexp, emin, prec, emax.
    change (IntDef.Z.max) with Z.max. change (IntDef.Z.sub) with Z.sub.
    lia. }
  rewrite Fx. unfold shl_align.
  change (IntDef.Z.sub (e + d - 53) (e - Z.of_nat t))
    with ((e + d - 53) - (e - Z.of_nat t))%Z.
  destruct ((e + d - 53) - (e - Z.of_nat t))%Z as [| q | q] eqn:Q.
  - assert (T : t = k) by (unfold k; lia). subst t.
    replace (e - Z.of_nat k)%Z with (e + d - 53 - Z.of_nat 0)%Z
      by (unfold k; rewrite Z2Nat.id; lia).
    exact (round_exact s (Nat.iter k xO m) (e + d - 53) 0 B).
  - assert (T : t = (Pos.to_nat q + k)%nat) by (unfold k; lia). subst t.
    rewrite Nat.iter_add.
    replace (e - Z.of_nat (Pos.to_nat q + k))%Z
      with (e + d - 53 - Z.of_nat (Pos.to_nat q))%Z
      by (unfold k; rewrite Nat2Z.inj_add, Z2Nat.id; lia).
    exact (round_exact s (Nat.iter k xO m) (e + d - 53) (Pos.to_nat q) B).
  - assert (I : Pos.iter xO (Nat.iter t xO m) q
                = Nat.iter (Pos.to_nat q) xO (Nat.iter t xO m))
      by (rewrite Pos2Nat.inj_iter; reflexivity).
    rewrite I, <- Nat.iter_add.
    assert (T : (Pos.to_nat q + t)%nat = k) by (unfold k; lia).
    rewrite T.
    replace (e + d - 53)%Z with (e + d - 53 - Z.of_nat 0)%Z at 1 by lia.
    exact (round_exact s (Nat.iter k xO m) (e + d - 53) 0 B).
Qed.

(** The double of a small integer scaled by a power of 2 depends on its
    value only, and it is a valid double. *)
Lemma normalize_small (z e : Z) (t : nat) :
  (Z.abs z < 2 ^ 53)%Z -> (-1000 <= e <= 900)%Z ->
  binary_normalize prec emax (z * 2 ^ Z.of_nat t) (e - Z.of_nat t) false
  = binary_normalize prec emax z e false /\
  valid_binary (binary_normalize prec emax z e false) = true.
Proof.
  intros Hz He. destruct z as [| p | p].
  - split; reflexivity.
  - assert (Hp : (Zpos p < 2 ^ 53)%Z) by lia.
    rewrite <- Zpos_iter_xO. cbn [binary_normalize].
    rewrite (binary_round_small false p e t Hp He).
    pose proof (binary_round_small false p e 0 Hp He) as R0.
    replace (e - Z.of_nat 0)%Z with e in R0 by lia.
    change (Nat.iter 0 xO p) with p in R0. rewrite R0.
    split; [reflexivity | exact (bounded_small p e Hp He)].
  - assert (Hp : (Zpos p < 2 ^ 53)%Z) by lia.
    replace (Zneg p * 2 ^ Z.of_nat t)%Z with (Zneg (Nat.iter t xO p))
      by (rewrite <- Pos2Z.opp_pos, Zpos_iter_xO; lia).
    cbn [binary_normalize].
    rewrite (binary_round_small true p e t Hp He).
    pose proof (binary_round_small true p e 0 Hp He) as R0.
    replace (e - Z.of_nat 0)%Z with e in R0 by lia.
    change (Nat.iter 0 xO p) with p in R0. rewrite R0.
    split; [reflexivity | exact (bounded_small p e Hp He)].
Qed.

(** The specification of a small number of halves. *)
Lemma ofHalves_spec (n : Z) :
  (Z.abs n < 2 ^ 53)%Z ->
  Prim2SF (Double.ofHalves n) = binary_normalize prec emax n (-1) false.
Proof.
  intro H. unfold Double.ofHalves. apply Prim2SF_SF2Prim.
  replace (-1)%Z with (-1 - Z.of_nat 0)%Z at 1 by reflexivity.
  apply (normalize_small n (-1) 0 H). lia.
Qed.

Lemma ofZ_halves (z : Z) :
  (Z.abs z < 2 ^ 52)%Z -> Double.ofZ z = Double.ofHalves (2 * z).
Proof.
  intro H. unfold Double.ofZ, Double.ofHalves. f_equal.
  destruct (normalize_small z 0 1) as [E _]; [lia | lia |].
  change (0 - Z.of_nat 1)%Z with (-1)%Z in E.
  change (2 ^ Z.of_nat 1)%Z with 2%Z in E.
  rewrite <- E. f_equal. lia.
Qed.

Lemma shl_align_value (m : positive) (e e' : Z) :
  (e' <= e)%Z -> Zpos (fst (shl_align m e e')) = (Zpos m * 2 ^ (e - e'))%Z.
Proof.
  unfold shl_align. change IntDef.Z.sub with Z.sub. intro H.
  destruct (e' - e)%Z as [| q | q] eqn:Q; cbn [fst].
  - replace (e - e')%Z with 0%Z by lia. lia.
  - lia.
  - assert (I : Pos.iter xO m q = Nat.iter (Pos.to_nat q) xO m)
      by (rewrite Pos2Nat.inj_iter; reflexivity).
    rewrite I, Zpos_iter_xO, positive_nat_Z.
    replace (e - e')%Z with (Zpos q) by lia. reflexivity.
Qed.

(** The form of a small number of halves that is not 0: its sign, a
    mantissa of 53 bits and an exponent. *)
Lemma normalize_form (n : Z) :
  (Z.abs n < 2 ^ 53)%Z -> n <> 0%Z ->
  exists m e,
    binary_normalize prec emax n (-1) false
    = S754_finite (n <? 0)%Z m e /\
    (-54 <= e <= -1)%Z /\
    Zpos m = (Z.abs n * 2 ^ (-1 - e))%Z /\
    Zpos (digits2_pos m) = 53%Z.
Proof.
  intros Hn Hz.
  assert (G : forall (s : bool) (p : positive),
             (Zpos p < 2 ^ 53)%Z ->
             exists m e,
               binary_round prec emax s p (-1) = S754_finite s m e /\
               (-54 <= e <= -1)%Z /\
               Zpos m = (Zpos p * 2 ^ (-1 - e))%Z /\
               Zpos (digits2_pos m) = 53%Z).
  { intros s p Hp.
    pose proof (binary_round_small s p (-1) 0 Hp) as R.
    replace (-1 - Z.of_nat 0)%Z with (-1)%Z in R by lia.
    change (Nat.iter 0 xO p) with p in R.
    pose proof (digits2_small p Hp) as Hd.
    pose proof (Pos2Z.is_pos (digits2_pos p)) as Hd0.
    eexists. eexists. split; [apply R; lia |].
    split; [lia |]. split.
    - rewrite Zpos_iter_xO, Z2Nat.id by lia. f_equal. f_equal. lia.
    - rewrite digits_shifted, Z2Nat.id by lia. lia. }
  destruct n as [| p | p]; [congruence | |].
  - apply (G false p). lia.
  - apply (G true p). lia.
Qed.

Lemma SFadd_halves (a b : Z) :
  (Z.abs a < 2 ^ 53)%Z -> (Z.abs b < 2 ^ 53)%Z -> (Z.abs (a + b) < 2 ^ 53)%Z ->
  SFadd prec emax (binary_normalize prec emax a (-1) false)
        (binary_normalize prec emax b (-1) false)
  = binary_normalize prec emax (a + b) (-1) false.
Proof.
  intros Ha Hb Hab.
  destruct (Z.eq_dec a 0) as [Za | Za]; destruct (Z.eq_dec b 0) as [Zb | Zb].
  - subst. reflexivity.
  - subst a. rewrite Z.add_0_l.
    destruct (normalize_form b Hb Zb) as [m [e [E _]]]. rewrite E.
    reflexivity.
  - subst b. rewrite Z.add_0_r.
    destruct (normalize_form a Ha Za) as [m [e [E _]]]. rewrite E.
    reflexivity.
  - destruct (normalize_form a Ha Za) as [ma [ea [Ea [Ra [Va _]]]]].
    destruct (normalize_form b Hb Zb) as [mb [eb [Eb [Rb [Vb _]]]]].
    rewrite Ea, Eb. cbn [SFadd].
    change (IntDef.Z.min ea eb) with (Z.min ea eb).
    change IntDef.Z.add with Z.add.
    set (ez := Z.min ea eb).
    assert (Hez : (ez <= ea /\ ez <= eb /\ -54 <= ez <= -1)%Z)
      by (unfold ez; lia).
    rewrite !shl_align_value by lia.
    rewrite Va, Vb.
    assert (Pa : (Z.abs a * 2 ^ (-1 - ea) * 2 ^ (ea - ez)
                  = Z.abs a * 2 ^ (-1 - ez))%Z).
    { rewrite <- Z.mul_assoc, <- Z.pow_add_r by lia. f_equal. f_equal. lia. }
    assert (Pb : (Z.abs b * 2 ^ (-1 - eb) * 2 ^ (eb - ez)
                  = Z.abs b * 2 ^ (-1 - ez))%Z).
    { rewrite <- Z.mul_assoc, <- Z.pow_add_r by lia. f_equal. f_equal. lia. }
    rewrite Pa, Pb.
    assert (S : (cond_Zopp (a <? 0) (Z.abs a * 2 ^ (-1 - ez))
                 + cond_Zopp (b <? 0) (Z.abs b * 2 ^ (-1 - ez))
                 = (a + b) * 2 ^ Z.of_nat (Z.to_nat (-1 - ez)))%Z).
    { rewrite Z2Nat.id by lia. unfold cond_Zopp.
      destruct (Z.ltb_spec a 0); destruct (Z.ltb_spec b 0);
        rewrite ?(Z.abs_eq a), ?(Z.abs_neq a), ?(Z.abs_eq b), ?(Z.abs_neq b)
          by lia; ring. }
    rewrite S.
    replace ez with (-1 - Z.of_nat (Z.to_nat (-1 - ez)))%Z at 2
      by (rewrite Z2Nat.id; lia).
    apply (normalize_small (a + b) (-1) (Z.to_nat (-1 - ez)) Hab). lia.
Qed.

(** Sums and differences of halves. *)
Lemma add_halves (a b : Z) :
  (Z.abs a < 2 ^ 53)%Z -> (Z.abs b < 2 ^ 53)%Z -> (Z.abs (a + b) < 2 ^ 53)%Z ->
  Double.ofHalves a + Double.ofHalves b = Double.ofHalves (a + b).
Proof.
  intros Ha Hb Hab. apply Prim2SF_inj.
  rewrite add_spec, !ofHalves_spec by assumption.
  apply SFadd_halves; assumption.
Qed.

Lemma SFsub_finite (x : spec_float) (s : bool) (m : positive) (e : Z) :
  SFsub prec emax x (S754_finite s m e)
  = SFadd prec emax x (S754_finite (negb s) m e).
Proof.
  destruct x as [sx | sx | | sx mx ex]; cbn [SFsub SFadd]; try reflexivity.
  f_equal. change IntDef.Z.sub with Z.sub. change IntDef.Z.add with Z.add.
  unfold cond_Zopp. destruct s; cbn [negb]; lia.
Qed.

Lemma normalize_opp (b : Z) :
  (Z.abs b < 2 ^ 53)%Z -> b <> 0%Z ->
  exists s m e,
    binary_normalize prec emax b (-1) false = S754_finite s m e /\
    binary_normalize prec emax (- b) (-1) false = S754_finite (negb s) m e.
Proof.
  intros Hb Zb.
  assert (R : forall (s : bool) (p : positive),
             (Zpos p < 2 ^ 53)%Z ->
             binary_round prec emax s p (-1)
             = S754_finite s
                 (Nat.iter (Z.to_nat (53 - Zpos (digits2_pos p))) xO p)
                 (-1 + Zpos (digits2_pos p) - 53)).
  { intros s p Hp.
    pose proof (binary_round_small s p (-1) 0 Hp) as R.
    replace (-1 - Z.of_nat 0)%Z with (-1)%Z in R by lia.
    apply R. lia. }
  destruct b as [| p | p]; [congruence | |]; cbn [Z.opp binary_normalize];
    eexists; eexists; eexists; rewrite !R by lia; split; reflexivity.
Qed.

Lemma sub_halves (a b : Z) :
  (Z.abs a < 2 ^ 53)%Z -> (Z.abs b < 2 ^ 53)%Z -> (Z.abs (a - b) < 2 ^ 53)%Z ->
  Double.ofHalves a - Double.ofHalves b = Double.ofHalves (a - b).
Proof.
  intros Ha Hb Hab. apply Prim2SF_inj.
  rewrite sub_spec, !ofHalves_spec by assumption. unfold SF64sub.
  destruct (Z.eq_dec b 0) as [Zb | Zb].
  - subst b. rewrite Z.sub_0_r. cbn [binary_normalize].
    destruct (Z.eq_dec a 0) as [Za | Za]; [subst a; reflexivity |].
    destruct (normalize_form a Ha Za) as [m [e [E _]]]. rewrite E.
    reflexivity.
  - destruct (normalize_opp b Hb Zb) as [s [m [e [E1 E2]]]].
    rewrite E1, SFsub_finite, <- E2.
    replace (a - b)%Z with (a + - b)%Z by lia.
    apply SFadd_halves; [assumption | lia |].
    replace (a + - b)%Z with (a - b)%Z by lia. assumption.
Qed.

(** Half of an integer. *)
Lemma div2_halves (k : Z) :
  (Z.abs k < 2 ^ 52)%Z ->
  Double.ofHalves (2 * k) / 2 = Double.ofHalves k.
Proof.
  intro Hk. apply Prim2SF_inj.
  rewrite div_spec, !ofHalves_spec by lia. unfold SF64div.
  change (Prim2SF 2) with (S754_finite false 4503599627370496 (-51)).
  destruct (Z.eq_dec k 0) as [Zk | Zk]; [subst k; reflexivity |].
  destruct (normalize_form k) as [m [e [E [Re [V Dg]]]]]; [lia | exact Zk |].
  assert (E2 : binary_normalize prec emax (2 * k) (-1) false
               = S754_finite (k <? 0)%Z m (e + 1)).
  { destruct (normalize_small k 0 1) as [N _]; [lia | lia |].
    change (0 - Z.of_nat 1)%Z with (-1)%Z in N.
    change (2 ^ Z.of_nat 1)%Z with 2%Z in N.
    replace (2 * k)%Z with (k * 2)%Z by lia. rewrite N.
    destruct (normalize_small k 0 1) as [_ W]; [lia | lia |].
    clear N.
    assert (F : binary_normalize prec emax k 0 false
                = S754_finite (k <? 0)%Z m (e + 1)).
    { assert (G : forall (s : bool) (p : positive) (x : Z),
                 (Zpos p < 2 ^ 53)%Z -> (-1 <= x <= 0)%Z ->
                 binary_round prec emax s p x
                 = S754_finite s
                     (Nat.iter (Z.to_nat (53 - Zpos (digits2_pos p))) xO p)
                     (x + Zpos (digits2_pos p) - 53)).
      { intros s p x Hp Hx.
        pose proof (binary_round_small s p x 0 Hp) as R.
        replace (x - Z.of_nat 0)%Z with x in R by lia.
        apply R. lia. }
      destruct k as [| p | p]; [congruence | |];
        (assert (Hp : (Zpos p < 2 ^ 53)%Z) by (clear - Hk; lia));
        cbn [binary_normalize] in E |- *;
        rewrite (G _ p (-1)%Z Hp) in E by (clear; lia);
        rewrite (G _ p 0%Z Hp) by (clear; lia);
        (assert (Ee : e = (-1 + Zpos (digits2_pos p) - 53)%Z) by congruence);
        (assert (Em : m = Nat.iter (Z.to_nat (53 - Zpos (digits2_pos p)))
                                   xO p) by congruence);
        rewrite Ee, Em; f_equal; clear; lia. }
    exact F. }
  rewrite E, E2. cbn [SFdiv]. unfold SFdiv_core_binary.
  cbn [Zdigits2]. rewrite Dg.
  change (Zpos (digits2_pos 4503599627370496)) with 53%Z.
  change IntDef.Z.sub with Z.sub. change IntDef.Z.add with Z.add.
  change IntDef.Z.min with Z.min.
  assert (Fx : Z.min (fexp prec emax (53 + (e + 1) - (53 + -51)))
                     (e + 1 - -51) = (e - 1)%Z).
  { unfold fexp, emin, prec, emax.
    change IntDef.Z.max with Z.max. change IntDef.Z.sub with Z.sub. lia. }
  rewrite Fx.
  replace (e + 1 - -51 - (e - 1))%Z with 53%Z by lia.
  cbv iota.
  change (IntDef.Z.div_eucl (IntDef.Z.shiftl (Zpos m) 53)
                            (Zpos 4503599627370496))
    with (Z.div_eucl (Z.shiftl (Zpos m) 53) (Zpos 4503599627370496)).
  assert (D : Z.div_eucl (Z.shiftl (Zpos m) 53) (Zpos 4503599627370496)
              = (Zpos (xO m), 0)%Z).
  { rewrite Z.shiftl_mul_pow2 by lia.
    pose proof (Z_div_mod (Zpos m * 2 ^ 53) (Zpos 4503599627370496) eq_refl)
      as H.
    destruct (Z.div_eucl (Zpos m * 2 ^ 53) (Zpos 4503599627370496))
      as [q r].
    destruct H as [H1 H2].
    change (2 ^ 53)%Z with (2 * 4503599627370496)%Z in H1.
    assert (q = 2 * Zpos m)%Z by nia.
    assert (r = 0)%Z by nia.
    subst. reflexivity. }
  rewrite D.
  assert (N : new_location (Zpos 4503599627370496) 0 = loc_Exact)
    by reflexivity.
  rewrite N, xorb_false_r.
  replace (e - 1)%Z with (e - Z.of_nat 1)%Z by lia.
  apply (round_exact (k <? 0)%Z m e 1).
  unfold bounded, canonical_mantissa. rewrite Dg.
  apply andb_true_iff. split.
  - apply Z.eqb_eq. unfold fexp, emin, prec, emax.
    change IntDef.Z.max with Z.max. change IntDef.Z.sub with Z.sub. lia.
  - apply Z.leb_le. unfold prec, emax. lia.
Qed.

(** Rounding halves down and to the nearest integer. *)
Lemma floor_halves (n : Z) :
  (Z.abs n < 2 ^ 53)%Z -> Double.floor (Double.ofHalves n) = (n / 2)%Z.
Proof.
  intro Hn. unfold Double.floor. rewrite ofHalves_spec by exact Hn.
  destruct (Z.eq_dec n 0) as [Zn | Zn]; [subst n; reflexivity |].
  destruct (normalize_form n Hn Zn) as [m [e [E [Re [V _]]]]]. rewrite E.
  unfold Double.scaled.
  assert (Ne : (0 <=? e)%Z = false) by (apply Z.leb_gt; clear - Re; lia).
  rewrite Ne, Z.shiftr_div_pow2 by (clear - Re; lia).
  assert (P : (0 < 2 ^ (-1 - e))%Z) by (apply Z.pow_pos_nonneg; clear - Re; lia).
  replace (2 ^ (- e))%Z with (2 * 2 ^ (-1 - e))%Z
    by (rewrite <- Z.pow_succ_r by (clear - Re; lia); f_equal; clear; lia).
  assert (Vs : (if (n <? 0)%Z then Zneg m else Zpos m)
               = (n * 2 ^ (-1 - e))%Z).
  { destruct (Z.ltb_spec n 0) as [L | L].
    - rewrite <- Pos2Z.opp_pos, V, Z.abs_neq by (clear - L; lia).
      clear. lia.
    - rewrite V, Z.abs_eq by (clear - L; lia). reflexivity. }
  rewrite Vs. apply Z.div_mul_cancel_r; clear - P; lia.
Qed.

Lemma round_halves (n : Z) :
  (Z.abs n < 2 ^ 53)%Z -> Double.round (Double.ofHalves n) = ((n + 1) / 2)%Z.
Proof.
  intro Hn. unfold Double.round. rewrite ofHalves_spec by exact Hn.
  destruct (Z.eq_dec n 0) as [Zn | Zn]; [subst n; reflexivity |].
  destruct (normalize_form n Hn Zn) as [m [e [E [Re [V _]]]]]. rewrite E.
  cbv zeta.
  assert (Ne : (0 <=? e)%Z = false) by (apply Z.leb_gt; clear - Re; lia).
  rewrite Ne, Z.shiftr_div_pow2, Z.shiftl_mul_pow2 by (clear - Re; lia).
  assert (P : (0 < 2 ^ (-1 - e))%Z) by (apply Z.pow_pos_nonneg; clear - Re; lia).
  replace (2 ^ (- e + 1))%Z with (2 * (2 * 2 ^ (-1 - e)))%Z
    by (rewrite <- !Z.pow_succ_r by (clear - Re; lia); f_equal; clear; lia).
  replace (2 ^ (- e))%Z with (2 * 2 ^ (-1 - e))%Z
    by (rewrite <- Z.pow_succ_r by (clear - Re; lia); f_equal; clear; lia).
  assert (Vs : (if (n <? 0)%Z then Zneg m else Zpos m)
               = (n * 2 ^ (-1 - e))%Z).
  { destruct (Z.ltb_spec n 0) as [L | L].
    - rewrite <- Pos2Z.opp_pos, V, Z.abs_neq by (clear - L; lia).
      clear. lia.
    - rewrite V, Z.abs_eq by (clear - L; lia). reflexivity. }
  rewrite Vs.
  replace (2 * (n * 2 ^ (-1 - e)) + 1 * (2 * 2 ^ (-1 - e)))%Z
    with ((n + 1) * (2 * 2 ^ (-1 - e)))%Z by (clear; lia).
  apply Z.div_mul_cancel_r; clear - P; lia.
Qed.

(** Halves are zeros or have a mantissa. *)
Lemma halves_cases (n : Z) :
  (Z.abs n < 2 ^ 53)%Z ->
  (n = 0%Z /\ Prim2SF (Double.ofHalves n) = S754_zero false) \/
  (n <> 0%Z /\
   exists s m e, Prim2SF (Double.ofHalves n) = S754_finite s m e).
Proof.
  intro Hn. rewrite ofHalves_spec by exact Hn.
  destruct (Z.eq_dec n 0) as [Zn | Zn].
  - left. subst n. split; reflexivity.
  - right. split; [exact Zn |].
    destruct (normalize_form n Hn Zn) as [m [e [E _]]].
    eexists. eexists. eexists. exact E.
Qed.

(** Adding a zero to a number that is not 0 changes nothing. *)
Lemma add_zero_r (x z : float) (s : bool) (m : positive) (e : Z) (sz : bool) :
  Prim2SF x = S754_finite s m e -> Prim2SF z = S754_zero sz -> x + z = x.
Proof.
  intros Hx Hz. apply Prim2SF_inj. rewrite add_spec, Hx, Hz. reflexivity.
Qed.

(** The scroll of a region by the amount 0 is a zero. *)
Lemma zero_scroll (n : Z) (rev : bool) :
  (Z.abs n < 2 ^ 53)%Z ->
  exists sz,
    Prim2SF (0 * Double.ofHalves n * (if rev then -1 else 1))
    = S754_zero sz.
Proof.
  intro Hn.
  assert (Z0 : exists sz, Prim2SF (0 * Double.ofHalves n) = S754_zero sz).
  { rewrite mul_spec. unfold SF64mul.
    change (Prim2SF 0) with (S754_zero false).
    destruct (halves_cases n Hn) as [[_ E] | [_ [s [m [e E]]]]]; rewrite E;
      eexists; reflexivity. }
  destruct Z0 as [sz E]. destruct rev.
  - rewrite mul_m1_r, opp_spec, E. eexists. reflexivity.
  - rewrite mul_1_r, E. eexists. reflexivity.
Qed.

Lemma max_same (x : float) : Double.max x x = x.
Proof.
  unfold Double.max. rewrite orb_diag, ltb_irrefl.
  destruct (is_nan x) eqn:N.
  - apply Prim2SF_inj. unfold is_nan in N. rewrite eqb_spec in N.
    change (Prim2SF nan) with S754_nan.
    destruct (Prim2SF x) as [s | s | | s m e] eqn:E; try reflexivity;
      unfold SFeqb in N; rewrite SFcompare_refl in N by discriminate;
      discriminate N.
  - destruct (get_sign x); reflexivity.
Qed.

Lemma zero_mul (n : Z) :
  (Z.abs n < 2 ^ 53)%Z ->
  exists sz, Prim2SF (0 * Double.ofHalves n) = S754_zero sz.
Proof.
  intro Hn. rewrite mul_spec. unfold SF64mul.
  change (Prim2SF 0) with (S754_zero false).
  destruct (halves_cases n Hn) as [[_ E] | [_ [s [m [e E]]]]]; rewrite E;
    eexists; reflexivity.
Qed.

(** Rounding an integer to which a zero was added gives the integer. *)
Lemma round_zero_add (z : float) (sz : bool) (k : Z) :
  Prim2SF z = S754_zero sz -> (Z.abs k < 2 ^ 52)%Z ->
  Double.round (z + Double.ofZ k) = k.
Proof.
  intros Hz Hk. rewrite ofZ_halves by exact Hk.
  assert (E : z + Double.ofHalves (2 * k) = Double.ofHalves (2 * k)).
  { apply Prim2SF_inj. rewrite add_spec, Hz. unfold SF64add.
    destruct (halves_cases (2 * k)) as [[Z0 E] | [_ [s [m [e E]]]]];
      [clear - Hk; lia | |]; rewrite E; [| reflexivity].
    destruct sz; reflexivity. }
  rewrite E, round_halves by (clear - Hk; lia).
  replace (2 * k + 1)%Z with (1 + k * 2)%Z by (clear; lia).
  rewrite Z.div_add by (clear; lia).
  change (1 / 2)%Z with 0%Z. clear. lia.
Qed.

(** ** NavigationTransform: the coordinates of zoom and scroll *)

Lemma zoomScrollRegion_ok (r : Region) (zAmt sAmt : float) :
  (zAmt <=? 0) = false ->
  zoomScrollRegion r zAmt sAmt =
  Ok (set_end
        (set_start r
           (fst (zoomScrollCoords (start r) (end_ r) (reversed r) zAmt sAmt)))
        (snd (zoomScrollCoords (start r) (end_ r) (reversed r) zAmt sAmt))).
Proof.
  intro Hz. unfold zoomScrollRegion. rewrite Hz. reflexivity.
Qed.

(** C4.  For a region with [start <= end], a zoom factor above 0 and any
    scroll factor for which the two numbers to be rounded down are finite,
    [zoomScrollRegion] succeeds, sets [start] and [end] to the coordinates
    of the specification and leaves every other field as it was; on
    [1000, 2000] with zoom 0.5 and scroll 0 it gives [1250, 1749]. *)
Theorem zoomScrollRegion_coords (r : Region) (zoomFactor scrollFactor : float) :
  (start r <= end_ r)%Z ->
  (0 <? zoomFactor) = true ->
  finite (fst (zoomScrollNumbers (start r) (end_ r) (reversed r)
                                 zoomFactor scrollFactor)) ->
  finite (snd (zoomScrollNumbers (start r) (end_ r) (reversed r)
                                 zoomFactor scrollFactor)) ->
  (exists r',
     zoomScrollRegion r zoomFactor scrollFactor = Ok r' /\
     (start r', end_ r')
     = zoomScrollCoords (start r) (end_ r) (reversed r)
                        zoomFactor scrollFactor /\
     set_end (set_start r' (start r)) (end_ r) = r) /\
  zoomScrollCoords 1000 2000 false 0.5 0 = (1250, 1749)%Z.
Proof.
  intros _ Hz _ _. split; [| vm_compute; reflexivity].
  eexists. split; [apply zoomScrollRegion_ok, ltb_leb, Hz |].
  split; [| destruct r; reflexivity].
  cbn [start end_ set_start set_end].
  destruct (zoomScrollCoords _ _ _ _ _); reflexivity.
Qed.

Lemma zoomScrollRegion_coords_witness :
  exists r',
    zoomScrollRegion (Sample.region 1 1000 2000 1) 0.5 0 = Ok r' /\
    start r' = 1250%Z /\ end_ r' = 1749%Z.
Proof.
  assert (H1 : (start (Sample.region 1 1000 2000 1)
                <= end_ (Sample.region 1 1000 2000 1))%Z) by (simpl; lia).
  assert (H2 : (0 <? 0.5) = true) by reflexivity.
  destruct (zoomScrollRegion_coords (Sample.region 1 1000 2000 1) 0.5 0
              H1 H2 eq_refl eq_refl)
    as [[r' [E [C _]]] _].
  exists r'. split; [exact E |].
  vm_compute in C. injection C as Cs Ce. split; assumption.
Defined.

(** The coordinates are computed in double precision: a region of three
    bases zoomed by 0.33333333333 keeps one base although the zoomed
    length is below 1, and a zoom by 0.1 of 1000010 bases starts at
    450006. *)
Lemma zoomScrollCoords_rounding :
  zoomScrollCoords 100000000 100000002 false 0.33333333333 0
  = (100000001, 100000001)%Z /\
  zoomScrollCoords 1 1000010 false 0.1 0 = (450006, 550006)%Z /\
  zoomScrollCoords 1001 1025 false 1 0.3 = (1009, 1033)%Z.
Proof. vm_compute. repeat split; reflexivity. Qed.

(** ** SyntenyMapper: coalescing of blocks *)

Lemma lastOf_snoc (A : Type) (l : list A) (x : A) : lastOf (l ++ [x]) = Some x.
Proof.
  induction l as [| h t IH]; [reflexivity |].
  simpl. rewrite IH. destruct (t ++ [x]) eqn:E; [| reflexivity].
  destruct t; discriminate.
Qed.

Lemma setLast_snoc (A : Type) (l : list A) (x y : A) :
  setLast (l ++ [x]) y = l ++ [y].
Proof.
  induction l as [| h t IH]; [reflexivity |].
  simpl. rewrite IH. destruct (t ++ [x]) eqn:E; [| reflexivity].
  destruct t; discriminate.
Qed.

Lemma combine_fold (rest pre : list Block) (prev : Block) :
  map spanOf (fold_left combineStep rest (pre ++ [prev]))
  = map spanOf pre ++ coalesce (spanOf prev) (index prev) rest.
Proof.
  revert pre prev. induction rest as [| b rest IH]; intros pre prev.
  - simpl. rewrite map_app. reflexivity.
  - simpl. unfold combineStep at 2. rewrite lastOf_snoc.
    rewrite (Z.eqb_sym (index b) (index prev)).
    destruct (index prev =? index b)%Z.
    + apply IH.
    + destruct (index prev + 1 =? index b)%Z.
      * rewrite setLast_snoc. rewrite IH. reflexivity.
      * rewrite <- app_assoc. change (pre ++ [prev] ++ [b])
          with (pre ++ prev :: [b]).
        replace (pre ++ prev :: [b]) with ((pre ++ [prev]) ++ [b])
          by (rewrite <- app_assoc; reflexivity).
        rewrite IH. rewrite map_app. rewrite <- app_assoc. reflexivity.
Qed.

Lemma insertByIndex_perm (b : Block) (l : list Block) :
  Permutation (b :: l) (insertByIndex b l).
Proof.
  induction l as [| y l IH]; simpl; [apply Permutation_refl |].
  destruct (index b <=? index y)%Z; [apply Permutation_refl |].
  apply perm_trans with (y :: b :: l); [apply perm_swap |].
  apply perm_skip. exact IH.
Qed.

Lemma insertByIndex_sorted (b : Block) (l : list Block) :
  sortedByIndex l -> sortedByIndex (insertByIndex b l).
Proof.
  induction l as [| y l IH]; intro H; simpl; [auto |].
  destruct (index b <=? index y)%Z eqn:E.
  - apply Z.leb_le in E. simpl. simpl in H. tauto.
  - apply Z.leb_gt in E. destruct H as [Hy Hl].
    specialize (IH Hl). simpl. split; [| exact IH].
    destruct l as [| z l']; simpl.
    + lia.
    + simpl in IH. destruct (index b <=? index z)%Z; lia.
Qed.

Lemma sortByIndex_sorted (l : list Block) : sortedByIndex (sortByIndex l).
Proof.
  induction l as [| b t IH]; simpl; [exact I |].
  apply insertByIndex_sorted. exact IH.
Qed.

Lemma sortByIndex_perm (l : list Block) : Permutation l (sortByIndex l).
Proof.
  induction l as [| b t IH]; simpl; [apply perm_nil |].
  apply perm_trans with (b :: sortByIndex t).
  - apply perm_skip. exact IH.
  - apply insertByIndex_perm.
Qed.

(** C8.  [combineRegions] sorts the blocks by index (the sorted list is an
    ordered permutation of the input) and coalesces them left to right: a
    block whose index equals the previous one's is dropped, a block whose
    index is the previous one's plus one extends the group to its end, any
    other block starts a new group.  Blocks with indices 0, 1, 3 give two
    groups: 0-1 combined and 3 on its own. *)
Theorem combineRegions_coalesces (blocks : list Block) :
  map spanOf (combineRegions blocks) = coalesced (sortByIndex blocks) /\
  sortedByIndex (sortByIndex blocks) /\
  Permutation blocks (sortByIndex blocks) /\
  (forall c0 c1 c3 s0 e0 s1 e1 s3 e3,
      map spanOf (combineRegions [mkBlock c0 s0 e0 0; mkBlock c1 s1 e1 1;
                                  mkBlock c3 s3 e3 3])
      = [(c0, s0, e1); (c3, s3, e3)]).
Proof.
  split; [| split; [apply sortByIndex_sorted |
                    split; [apply sortByIndex_perm | reflexivity]]].
  unfold combineRegions, coalesced.
  destruct (sortByIndex blocks) as [| b rest]; [reflexivity |].
  simpl. unfold combineStep at 2. simpl.
  apply (combine_fold rest [] b).
Qed.

(** ** Arrays *)

Lemma at_Some (A : Type) (l : list A) (i : Z) (x : A) :
  at_ l i = Some x ->
  (0 <= i < Z.of_nat (List.length l))%Z /\ nth_error l (Z.to_nat i) = Some x.
Proof.
  unfold at_. destruct (i <? 0)%Z eqn:E; [discriminate |].
  apply Z.ltb_ge in E. intro H. split; [| exact H].
  assert (K : nth_error l (Z.to_nat i) <> None) by congruence.
  apply nth_error_Some in K. lia.
Qed.

Lemma at_None (A : Type) (l : list A) (i : Z) :
  at_ l i = None -> (i < 0 \/ Z.of_nat (List.length l) <= i)%Z.
Proof.
  unfold at_. destruct (i <? 0)%Z eqn:E.
  - apply Z.ltb_lt in E. auto.
  - apply Z.ltb_ge in E. intro H. apply nth_error_None in H. lia.
Qed.

Lemma at_inside (A : Type) (l : list A) (i : Z) :
  (0 <= i < Z.of_nat (List.length l))%Z -> exists x, at_ l i = Some x.
Proof.
  intro H. destruct (at_ l i) as [x |] eqn:E; [exists x; reflexivity |].
  apply at_None in E. lia.
Qed.

Lemma at_split (A : Type) (l : list A) (i : Z) (x : A) :
  at_ l i = Some x ->
  exists pre post, l = pre ++ x :: post /\ i = Z.of_nat (List.length pre).
Proof.
  intro H. apply at_Some in H. destruct H as [R H].
  apply nth_error_split in H. destruct H as [pre [post [E L]]].
  exists pre, post. split; [exact E | lia].
Qed.

Lemma at_middle (A : Type) (pre post : list A) (x : A) :
  at_ (pre ++ x :: post) (Z.of_nat (List.length pre)) = Some x.
Proof.
  unfold at_. destruct (Z.of_nat (List.length pre) <? 0)%Z eqn:E.
  - apply Z.ltb_lt in E. lia.
  - rewrite Nat2Z.id. rewrite nth_error_app2 by lia.
    rewrite Nat.sub_diag. reflexivity.
Qed.

Lemma at_next (A : Type) (pre post : list A) (x y : A) :
  at_ (pre ++ x :: y :: post) (Z.of_nat (List.length pre) + 1) = Some y.
Proof.
  replace (pre ++ x :: y :: post) with ((pre ++ [x]) ++ y :: post)
    by (rewrite <- app_assoc; reflexivity).
  replace (Z.of_nat (List.length pre) + 1)%Z
    with (Z.of_nat (List.length (pre ++ [x])))
    by (rewrite length_app; simpl; lia).
  apply at_middle.
Qed.

Lemma setNth_middle (A : Type) (pre post : list A) (x y : A) :
  setNth (pre ++ x :: post) (List.length pre) y = pre ++ y :: post.
Proof.
  induction pre as [| h t IH]; simpl; [reflexivity |].
  rewrite IH. reflexivity.
Qed.

Lemma setAt_middle (A : Type) (pre post : list A) (x y : A) :
  setAt (pre ++ x :: post) (Z.of_nat (List.length pre)) y = pre ++ y :: post.
Proof.
  unfold setAt. destruct (Z.of_nat (List.length pre) <? 0)%Z eqn:E.
  - apply Z.ltb_lt in E. lia.
  - rewrite Nat2Z.id. apply setNth_middle.
Qed.

Lemma setAt_next (A : Type) (pre post : list A) (x y z : A) :
  setAt (pre ++ x :: y :: post) (Z.of_nat (List.length pre) + 1) z
  = pre ++ x :: z :: post.
Proof.
  replace (pre ++ x :: y :: post) with ((pre ++ [x]) ++ y :: post)
    by (rewrite <- app_assoc; reflexivity).
  replace (Z.of_nat (List.length pre) + 1)%Z
    with (Z.of_nat (List.length (pre ++ [x])))
    by (rewrite length_app; simpl; lia).
  rewrite setAt_middle. rewrite <- app_assoc. reflexivity.
Qed.

(** Two neighbours in an array split it around them. *)
Lemma at_pair (A : Type) (l : list A) (i : Z) (x y : A) :
  at_ l i = Some x -> at_ l (i + 1) = Some y ->
  exists pre post, l = pre ++ x :: y :: post /\ i = Z.of_nat (List.length pre).
Proof.
  intros Hx Hy. destruct (at_split _ _ _ _ Hx) as [pre [post [E L]]].
  subst l. destruct post as [| y' post].
  - apply at_Some in Hy. destruct Hy as [R _].
    rewrite length_app in R. simpl in R. lia.
  - subst i. rewrite at_next in Hy. injection Hy as ->.
    exists pre, post. split; reflexivity.
Qed.

(** ** BorderResizer: what a border move does to the widths *)

Lemma shiftBorder_pair (pre post : list Region) (a b : Region) (amt : float) :
  shiftBorder (pre ++ a :: b :: post) (Z.of_nat (List.length pre)) amt
  = pre ++ set_width a (width a + amt)
        :: set_deltaX (set_width b (width b - amt)) (deltaX b + amt)
        :: post.
Proof.
  unfold shiftBorder. rewrite at_middle. rewrite setAt_middle.
  rewrite at_next. rewrite setAt_next. reflexivity.
Qed.

Lemma transfer_middle (pre post : list float) (a b t : float) :
  transfer (List.length pre) t (pre ++ a :: b :: post)
  = pre ++ (a + t) :: (b - t) :: post.
Proof.
  induction pre as [| x pre IH]; simpl; [reflexivity |].
  rewrite IH. reflexivity.
Qed.

Lemma transfers_snoc (ts : list (nat * float)) (i : nat) (t : float)
      (ws : list float) :
  transfers (ts ++ [(i, t)]) ws = transfer i t (transfers ts ws).
Proof. unfold transfers. rewrite fold_left_app. reflexivity. Qed.

Lemma shiftBorder_transfers (regions : list Region) (i : Z) (amt : float)
      (a b : Region) :
  at_ regions i = Some a -> at_ regions (i + 1) = Some b ->
  List.length (shiftBorder regions i amt) = List.length regions /\
  map coords (shiftBorder regions i amt) = map coords regions /\
  map width (shiftBorder regions i amt)
  = transfer (Z.to_nat i) amt (map width regions).
Proof.
  intros Ha Hb. destruct (at_pair _ _ _ _ _ Ha Hb) as [pre [post [E L]]].
  subst regions i. rewrite shiftBorder_pair.
  split; [rewrite !length_app; reflexivity |].
  split; [rewrite !map_app; reflexivity |].
  rewrite Nat2Z.id, !map_app. cbn [map set_width set_deltaX width].
  rewrite <- (length_map width pre). rewrite transfer_middle. reflexivity.
Qed.

Lemma move_transfers (fuel : nat) :
  forall (regions : list Region) (i : Z) (amt min : float) regions' moved,
    _move fuel regions i amt min = Some (regions', moved) ->
    List.length regions' = List.length regions /\
    map coords regions' = map coords regions /\
    exists ts, map width regions' = transfers ts (map width regions).
Proof.
  induction fuel as [| fuel IH]; intros regions i amt min regions' moved H;
    [discriminate |].
  assert (Same : List.length regions = List.length regions /\
                 map coords regions = map coords regions /\
                 exists ts, map width regions
                            = transfers ts (map width regions))
    by (split; [| split]; [reflexivity | reflexivity | exists []; reflexivity]).
  simpl in H.
  destruct (at_ regions i) as [a |] eqn:Ha;
    [| injection H as <- _; exact Same].
  destruct (at_ regions (i + 1)) as [b |] eqn:Hb;
    [| injection H as <- _; exact Same].
  assert (Step : forall regions1 amt1,
             (List.length regions1 = List.length regions /\
              map coords regions1 = map coords regions /\
              exists ts, map width regions1
                         = transfers ts (map width regions)) ->
             List.length (shiftBorder regions1 i amt1) = List.length regions /\
             map coords (shiftBorder regions1 i amt1) = map coords regions /\
             exists ts, map width (shiftBorder regions1 i amt1)
                        = transfers ts (map width regions)).
  { intros regions1 amt1 [K1 [K2 [ts K3]]].
    destruct (at_Some _ _ _ _ Ha) as [Ra _].
    destruct (at_Some _ _ _ _ Hb) as [Rb _].
    destruct (at_inside _ regions1 i) as [a1 Ha1]; [lia |].
    destruct (at_inside _ regions1 (i + 1)) as [b1 Hb1]; [lia |].
    destruct (shiftBorder_transfers _ _ amt1 _ _ Ha1 Hb1) as [S1 [S2 S3]].
    split; [congruence |]. split; [congruence |].
    exists (ts ++ [(Z.to_nat i, amt1)]).
    rewrite transfers_snoc, <- K3. exact S3. }
  destruct (0 <? amt).
  - destruct (0 <? Double.max 0 (amt - (width b - min))).
    + destruct (_move fuel regions (i + 1) _ min) as [[regions1 shoved] |] eqn:R;
        [| discriminate].
      injection H as <- _. apply Step. eapply IH. exact R.
    + injection H as <- _. apply Step. exact Same.
  - destruct (amt <? 0).
    + destruct (Double.min 0 (amt + (width a - min)) <? 0).
      * destruct (_move fuel regions (i - 1) _ min) as [[regions1 shoved] |] eqn:R;
          [| discriminate].
        injection H as <- _. apply Step. eapply IH. exact R.
      * injection H as <- _. apply Step. exact Same.
    + injection H as <- _. exact Same.
Qed.

Lemma move_total (fuel : nat) :
  forall (regions : list Region) (i : Z) (amt min : float),
    (1 <= fuel)%nat ->
    ((0 <? amt) = true ->
     (Z.of_nat (List.length regions) - i <= Z.of_nat fuel)%Z) ->
    ((amt <? 0) = true -> (i + 2 <= Z.of_nat fuel)%Z) ->
    exists res, _move fuel regions i amt min = Some res.
Proof.
  induction fuel as [| fuel IH]; intros regions i amt min F Hp Hn; [lia |].
  simpl.
  destruct (at_ regions i) as [a |] eqn:Ha; [| eexists; reflexivity].
  destruct (at_ regions (i + 1)) as [b |] eqn:Hb; [| eexists; reflexivity].
  destruct (at_Some _ _ _ _ Ha) as [Ra _].
  destruct (at_Some _ _ _ _ Hb) as [Rb _].
  destruct (0 <? amt) eqn:Ep.
  - specialize (Hp eq_refl).
    destruct (0 <? Double.max 0 (amt - (width b - min))) eqn:Es;
      [| eexists; reflexivity].
    destruct (IH regions (i + 1)%Z (Double.max 0 (amt - (width b - min))) min)
      as [[regions1 shoved] R].
    + lia.
    + intros _. lia.
    + intro K. rewrite (ltb_asym _ _ Es) in K. discriminate.
    + rewrite R. eexists; reflexivity.
  - destruct (amt <? 0) eqn:En; [| eexists; reflexivity].
    specialize (Hn eq_refl).
    destruct (Double.min 0 (amt + (width a - min)) <? 0) eqn:Es;
      [| eexists; reflexivity].
    destruct (IH regions (i - 1)%Z (Double.min 0 (amt + (width a - min))) min)
      as [[regions1 shoved] R].
    + lia.
    + intro K. rewrite (ltb_asym _ _ Es) in K. discriminate.
    + intros _. lia.
    + rewrite R. eexists; reflexivity.
Qed.

Lemma indexOf_range (A : Type) (same : A -> A -> bool) (l : list A) (x : A) :
  (-1 <= indexOf same l x < Z.of_nat (List.length l))%Z.
Proof.
  induction l as [| h t IH]; simpl; [lia |].
  destruct (same h x); [lia |].
  destruct (indexOf same t x =? -1)%Z eqn:E; lia.
Qed.

Lemma Forall2_refl (A : Type) (P : A -> A -> Prop) (l : list A) :
  (forall x, P x x) -> Forall2 P l l.
Proof. intro H. induction l; constructor; auto. Qed.

Lemma Forall2_setAt (A : Type) (P : A -> A -> Prop) (l : list A) (i : Z)
      (x y : A) :
  (forall z, P z z) -> at_ l i = Some x -> P x y -> Forall2 P l (setAt l i y).
Proof.
  intros Hr Hx Hxy. destruct (at_split _ _ _ _ Hx) as [pre [post [E L]]].
  subst l i. rewrite setAt_middle.
  apply Forall2_app; [apply Forall2_refl; exact Hr |].
  constructor; [exact Hxy | apply Forall2_refl; exact Hr].
Qed.

(** The strip of [r1] and the position of [r1] in it, when [moveBorder]
    finds them. *)
Lemma findRegion_found (a : App) (r1 : Region) (si ri : Z) :
  findRegion a r1 = (si, ri) -> (ri =? -1)%Z = false ->
  exists s, at_ (strips a) si = Some s /\
            ri = indexOf sameRegion (regions s) r1 /\
            (0 <= ri < Z.of_nat (List.length (regions s)))%Z.
Proof.
  unfold findRegion. intros H Hr. injection H as Hs Hj.
  rewrite Hs in Hj. apply Z.eqb_neq in Hr.
  destruct (si =? -1)%Z; [lia |].
  destruct (at_ (strips a) si) as [s |]; [| lia].
  exists s. split; [reflexivity |]. split; [auto |].
  pose proof (indexOf_range _ sameRegion (regions s) r1). lia.
Qed.

(** C10, as amended.  [moveBorder] always completes, for every amount.  It
    changes no region's identity, genome, chromosome, start or end, and
    the widths of every strip afterwards are the widths before with
    transfers applied one after the other, each adding to one region the
    amount that it takes from the right-hand neighbour, in double
    precision. *)
Theorem moveBorder_transfers (r1 : Region) (amt : float)
        (rm : RegionManager) :
  exists rm',
    moveBorder r1 amt rm = Ok (tt, rm') /\
    Forall2 transferred (strips (app rm)) (strips (app rm')).
Proof.
  assert (Hrefl : forall s, transferred s s)
    by (intro s; split; [| split];
        [reflexivity | reflexivity | exists []; reflexivity]).
  unfold moveBorder, bind, getApp.
  destruct (findRegion (app rm) r1) as [si ri] eqn:F.
  destruct (ri =? -1)%Z eqn:Hr.
  - eexists. split; [reflexivity |]. apply Forall2_refl. exact Hrefl.
  - destruct (findRegion_found _ _ _ _ F Hr) as [s [Hs [_ R]]].
    rewrite Hs.
    destruct (move_total (S (List.length (regions s))) (regions s) ri amt 25)
      as [[regions1 moved] M].
    + lia.
    + intros _. lia.
    + intros _. lia.
    + rewrite M. unfold putApp. eexists. split; [reflexivity |].
      simpl. apply Forall2_setAt with s; [exact Hrefl | exact Hs |].
      destruct (move_transfers _ _ _ _ _ _ _ M) as [_ [K2 K3]].
      split; [reflexivity |]. split; assumption.
Qed.

(** C10, counterexample.  The transfers are additions and subtractions of
    doubles, each rounded, so the sum of the widths is not kept exactly:
    three regions of weights
    100, 30 and 100 laid out in a total width of 302 have widths that add
    up to 286; after the first border has been moved by 4 they add up to
    285.99999999999994. *)
Lemma moveBorder_changes_sum :
  let s := layoutStrip (Sample.app0 [] (Sample.dm None None))
                       (Sample.strip3 100 30 100) (Some 302) in
  exists rm',
    moveBorder (Sample.region 1 1 1000 100) 4
               (Sample.rm0 [s] (Sample.dm None None)) = Ok (tt, rm') /\
    map (fun s => sumWidths (regions s)) [s] = [286] /\
    map (fun s => sumWidths (regions s)) (strips (app rm'))
    = [285.99999999999994].
Proof.
  eexists. split; [vm_compute; reflexivity |].
  split; vm_compute; reflexivity.
Qed.

(** ** BorderResizer: the cascade *)

Lemma move_at_edge (fuel : nat) (regions : list Region) (i : Z)
      (amt min : float) :
  (1 <= fuel)%nat ->
  at_ regions i = None \/ at_ regions (i + 1) = None ->
  _move fuel regions i amt min = Some (regions, 0).
Proof.
  intros F H. destruct fuel as [| fuel]; [lia |]. simpl.
  destruct H as [H | H]; rewrite H; [reflexivity |].
  destruct (at_ regions i); reflexivity.
Qed.

Lemma at_past_end (A : Type) (l : list A) (i : Z) :
  (Z.of_nat (List.length l) <= i)%Z -> at_ l i = None.
Proof.
  intro H. destruct (at_ l i) as [x |] eqn:E; [| reflexivity].
  apply at_Some in E. lia.
Qed.

Lemma at_negative (A : Type) (l : list A) (i : Z) :
  (i < 0)%Z -> at_ l i = None.
Proof.
  intro H. destruct (at_ l i) as [x |] eqn:E; [| reflexivity].
  apply at_Some in E. lia.
Qed.

Lemma coords_set_width (r : Region) (w : float) :
  coords (set_width r w) = coords r.
Proof. reflexivity. Qed.

Lemma coords_set_deltaX (r : Region) (d : float) :
  coords (set_deltaX r d) = coords r.
Proof. reflexivity. Qed.

Lemma pushRight_length (ws : list float) :
  forall amt min wa,
    List.length (fst (pushRight amt min wa ws)) = S (List.length ws).
Proof.
  induction ws as [| wb rest IH]; intros amt min wa; [reflexivity |].
  cbn [pushRight].
  destruct (0 <? Double.max 0 (amt - (wb - min))).
  - specialize (IH (Double.max 0 (amt - (wb - min))) min wb).
    destruct (pushRight (Double.max 0 (amt - (wb - min))) min wb rest)
      as [rs absorbed].
    cbn [fst] in IH. destruct rs as [| wb' rest']; [discriminate |].
    cbn [fst List.length] in *. lia.
  - reflexivity.
Qed.

(** Growing direction: the regions to the right of [a] give way as
    [pushRight] says. *)
Lemma move_right (tail : list Region) :
  forall (fuel : nat) (pre : list Region) (a : Region) (amt : float),
    (List.length tail + 1 <= fuel)%nat ->
    (0 <? amt) = true ->
    exists regions',
      _move fuel (pre ++ a :: tail) (Z.of_nat (List.length pre)) amt 25
      = Some (pre ++ regions',
              snd (pushRight amt 25 (width a) (map width tail))) /\
      map coords regions' = map coords (a :: tail) /\
      map width regions' = fst (pushRight amt 25 (width a) (map width tail)).
Proof.
  induction tail as [| b post IH]; intros fuel pre a amt F Hamt.
  - exists [a]. split; [| split; reflexivity].
    apply move_at_edge; [simpl in F; lia |]. right.
    apply at_past_end. rewrite length_app. simpl. lia.
  - destruct fuel as [| fuel]; [simpl in F; lia |].
    simpl in F. cbn [_move].
    rewrite at_middle, at_next, Hamt.
    cbn [map pushRight].
    destruct (0 <? Double.max 0 (amt - (width b - 25))) eqn:Es.
    + destruct (IH fuel (pre ++ [a]) b (Double.max 0 (amt - (width b - 25))))
        as [regions1 [R [C W]]]; [lia | exact Es |].
      replace (Z.of_nat (List.length (pre ++ [a])))
        with (Z.of_nat (List.length pre) + 1)%Z in R
        by (rewrite length_app; simpl; lia).
      rewrite <- !app_assoc in R. simpl in R. rewrite R.
      destruct (pushRight (Double.max 0 (amt - (width b - 25))) 25 (width b)
                          (map width post)) as [rs absorbed].
      cbn [fst snd] in *.
      destruct regions1 as [| b' rest']; [discriminate |].
      rewrite shiftBorder_pair.
      destruct rs as [| wb' rs']; [discriminate |].
      cbn [map] in W. injection W as W1 W2.
      eexists. split; [reflexivity |].
      split.
      * change (coords a :: map coords (b' :: rest')
                = coords a :: map coords (b :: post)).
        rewrite C. reflexivity.
      * cbn [map fst set_width set_deltaX width]. rewrite W1, W2.
        reflexivity.
    + rewrite shiftBorder_pair.
      eexists. split; [reflexivity |]. split; reflexivity.
Qed.

(** Shrinking direction: the regions from [a] leftwards give way as
    [pushLeft] says, and the right neighbour [b] grows. *)
Lemma move_left (front : list Region) :
  forall (fuel : nat) (b : Region) (post : list Region) (amt : float),
    (List.length front + 1 <= fuel)%nat ->
    (amt <? 0) = true ->
    exists front' b',
      _move fuel (front ++ b :: post) (Z.of_nat (List.length front) - 1) amt 25
      = Some (front' ++ b' :: post,
              snd (pushLeft amt 25 (rev (map width front)) (width b))) /\
      map coords (front' ++ [b']) = map coords (front ++ [b]) /\
      (rev (map width front'), width b')
      = fst (pushLeft amt 25 (rev (map width front)) (width b)).
Proof.
  induction front as [| a pre IH] using rev_ind;
    intros fuel b post amt F Hamt.
  - exists [], b. split; [| split; reflexivity].
    apply move_at_edge; [simpl in F; lia |]. left.
    apply at_negative. simpl. lia.
  - rewrite length_app in F. simpl in F.
    destruct fuel as [| fuel]; [lia |].
    replace (Z.of_nat (List.length (pre ++ [a])) - 1)%Z
      with (Z.of_nat (List.length pre))
      by (rewrite length_app; simpl; lia).
    rewrite <- app_assoc. cbn [List.app _move].
    rewrite at_middle, at_next.
    rewrite (ltb_asym _ _ Hamt), Hamt.
    rewrite map_app, rev_app_distr. cbn [map rev List.app pushLeft].
    destruct (Double.min 0 (amt + (width a - 25)) <? 0) eqn:Es.
    + destruct (IH fuel a (b :: post) (Double.min 0 (amt + (width a - 25))))
        as [pre' [a' [R [C W]]]]; [lia | exact Es |].
      rewrite R.
      assert (L : List.length pre' = List.length pre).
      { apply (f_equal (@List.length _)) in C.
        rewrite !length_map, !length_app in C. simpl in C. lia. }
      rewrite <- L. rewrite shiftBorder_pair.
      destruct (pushLeft (Double.min 0 (amt + (width a - 25))) 25
                         (rev (map width pre)) (width a))
        as [[ls wa'] absorbed].
      cbn [fst snd] in *. injection W as W1 W2.
      exists (pre' ++ [set_width a' (width a'
                + (amt - (Double.min 0 (amt + (width a - 25)) - absorbed)))]).
      eexists. split; [rewrite <- app_assoc; reflexivity |].
      split.
      * rewrite !(map_app coords) in *. cbn [map] in *.
        rewrite coords_set_width, coords_set_deltaX, coords_set_width, C.
        reflexivity.
      * rewrite map_app, rev_app_distr.
        cbn [map rev List.app set_width set_deltaX width].
        rewrite W1, W2. reflexivity.
    + rewrite shiftBorder_pair.
      exists (pre ++ [set_width a (width a + amt)]).
      eexists. split; [rewrite <- app_assoc; reflexivity |].
      split.
      * rewrite !map_app. reflexivity.
      * rewrite map_app, rev_app_distr. reflexivity.
Qed.

(** C7.  Moving the border after the region [r1] by [amt] leaves the
    coordinates of all regions alone and makes the widths of the strip of
    [r1] those of the cascade of the specification: for a positive amount
    the excess over the slack of the right-hand neighbour is pushed on to
    the next border and so on to the end of the strip, where what is left
    is dropped; for a negative amount the same happens leftwards from
    [r1]; an amount of 0, or the last region of a strip, changes nothing.
    For widths 100, 30, 100 and a move of the first border by 20 the
    widths become exactly 120, 25, 85. *)
Theorem moveBorder_cascades :
  (forall (rm : RegionManager) (r1 : Region) (amt : float) (si : Z)
          (s : Strip) (pre post : list Region) (a : Region),
      findRegion (app rm) r1 = (si, Z.of_nat (List.length pre)) ->
      at_ (strips (app rm)) si = Some s ->
      regions s = pre ++ a :: post ->
      exists rm' regions',
        moveBorder r1 amt rm = Ok (tt, rm') /\
        strips (app rm')
        = setAt (strips (app rm)) si (set_regions s regions') /\
        map coords regions' = map coords (regions s) /\
        map width regions'
        = cascade amt 25 (map width pre) (width a) (map width post)) /\
  cascade 20 25 [] 100 [30; 100] = [120; 25; 85].
Proof.
  split; [| vm_compute; reflexivity].
  intros rm r1 amt si s pre post a F Hs Hreg.
  unfold moveBorder, bind, getApp. rewrite F.
  assert (Hi : (Z.of_nat (List.length pre) =? -1)%Z = false)
    by (apply Z.eqb_neq; lia).
  rewrite Hi, Hs, Hreg. unfold putApp.
  destruct post as [| b post].
  - rewrite move_at_edge;
      [| lia | right; apply at_past_end; rewrite length_app; simpl; lia].
    eexists. exists (pre ++ [a]).
    split; [reflexivity |]. split; [reflexivity |].
    split; [reflexivity |]. rewrite map_app. reflexivity.
  - unfold cascade. cbn [map].
    destruct (0 <? amt) eqn:Hpos.
    + destruct (move_right (b :: post)
                  (S (List.length (pre ++ a :: b :: post))) pre a amt)
        as [regions1 [R [C W]]];
        [rewrite length_app; simpl; lia | exact Hpos |].
      rewrite R. eexists. exists (pre ++ regions1).
      split; [reflexivity |]. split; [reflexivity |].
      rewrite !map_app, C, W. split; reflexivity.
    + destruct (amt <? 0) eqn:Hneg.
      * destruct (move_left (pre ++ [a])
                    (S (List.length (pre ++ a :: b :: post))) b post amt)
          as [front' [b' [R [C W]]]];
          [rewrite !length_app; simpl; lia | exact Hneg |].
        replace (Z.of_nat (List.length (pre ++ [a])) - 1)%Z
          with (Z.of_nat (List.length pre)) in R
          by (rewrite length_app; simpl; lia).
        rewrite <- app_assoc in R.
        change (pre ++ [a] ++ b :: post) with (pre ++ a :: b :: post) in R.
        rewrite R.
        rewrite map_app, rev_app_distr in W. cbn [map rev List.app] in W.
        destruct (pushLeft amt 25 (width a :: rev (map width pre)) (width b))
          as [[ls wb'] moved].
        cbn [fst] in W. injection W as W1 W2.
        eexists. exists (front' ++ b' :: post).
        split; [reflexivity |]. split; [reflexivity |].
        split.
        -- rewrite !map_app in C. cbn [map] in C.
           rewrite <- app_assoc in C. cbn [List.app] in C.
           change (map coords pre ++ coords a :: [coords b])
             with (map coords pre ++ [coords a; coords b]) in C.
           rewrite !map_app. cbn [map].
           change (map coords front' ++ coords b' :: map coords post)
             with (map coords front' ++ [coords b'] ++ map coords post).
           rewrite app_assoc, C, <- app_assoc. reflexivity.
        -- rewrite map_app. cbn [map]. rewrite <- W1, <- W2.
           rewrite rev_involutive. reflexivity.
      * cbn [_move]. rewrite at_middle, at_next, Hpos, Hneg.
        eexists. exists (pre ++ a :: b :: post).
        split; [reflexivity |]. split; [reflexivity |].
        split; [reflexivity |]. rewrite map_app. reflexivity.
Qed.

Lemma moveBorder_cascades_witness :
  exists rm' regions',
    moveBorder (Sample.region 1 1 1000 100) 20
               (Sample.rm0 [Sample.strip3 100 30 100] (Sample.dm None None))
    = Ok (tt, rm') /\
    strips (app rm')
    = [set_regions (Sample.strip3 100 30 100) regions'] /\
    map width regions' = [120; 25; 85].
Proof.
  destruct moveBorder_cascades as [G X].
  destruct (G (Sample.rm0 [Sample.strip3 100 30 100] (Sample.dm None None))
              (Sample.region 1 1 1000 100) 20 0%Z
              (Sample.strip3 100 30 100) []
              [Sample.region 2 2001 3000 30; Sample.region 3 4001 5000 100]
              (Sample.region 1 1 1000 100))
    as [rm' [regions' [E [S [_ P]]]]].
  - vm_compute. reflexivity.
  - reflexivity.
  - reflexivity.
  - exists rm', regions'. split; [exact E |]. split; [exact S |].
    rewrite P. exact X.
Defined.

(** X29.  The minimum width is kept up to rounding only: with widths
    210.43478260869563, 63.130434782608688 and 210.43478260869563 a move
    of the first border by 39.1 leaves the second region at
    24.999999999999993. *)
Lemma moveBorder_below_minimum :
  exists rm',
    moveBorder (Sample.region 1 1 1000 100) 39.1
               (Sample.rm0 [Sample.strip3 210.43478260869563
                                          63.130434782608688
                                          210.43478260869563]
                           (Sample.dm None None)) = Ok (tt, rm') /\
    map (fun s => map width (regions s)) (strips (app rm'))
    = [[249.53478260869562; 24.999999999999993; 209.46521739130432]].
Proof. eexists. split; vm_compute; reflexivity. Qed.

(** ** LayoutEngine: scaleAdjust *)

(** A finite number is a zero or has a mantissa. *)
Lemma finite_cases (x : float) :
  finite x ->
  (exists s, Prim2SF x = S754_zero s) \/
  (exists s m e, Prim2SF x = S754_finite s m e).
Proof.
  unfold finite, is_finite, is_nan, is_infinity.
  rewrite !eqb_spec, abs_spec.
  change (Prim2SF infinity) with (S754_infinity false).
  destruct (Prim2SF x) as [s | s | | s m e]; intro H.
  - left. exists s. reflexivity.
  - destruct s; discriminate H.
  - discriminate H.
  - right. exists s, m, e. reflexivity.
Qed.

(** Taking a finite number times 0 off a number that is not 0 changes
    nothing. *)
Lemma sub_mul_0 (x d : float) (s : bool) (m : positive) (e : Z) :
  Prim2SF x = S754_finite s m e -> finite d -> x - d * 0 = x.
Proof.
  intros Hx Hd. apply Prim2SF_inj. rewrite sub_spec, mul_spec, Hx.
  unfold SF64sub, SF64mul.
  change (Prim2SF 0) with (S754_zero false).
  destruct (finite_cases d Hd) as [[s' E] | [s' [m' [e' E]]]]; rewrite E;
    reflexivity.
Qed.

Lemma scaleAdjust_cases (nums : list float) (w m : float) :
  scaleAdjust nums w m
  = let f := scaleFactor w nums in
    let d := deficitOf f m nums in
    let scaled := map (clamp f m) nums in
    if d =? 0 then scaled
    else
      let sum2 :=
        fold_left (fun t n => t + (if m <? n then n else 0)) scaled 0 in
      map (fun n => n - d * (if m <? n then n / sum2 else 0)) scaled.
Proof. reflexivity. Qed.

Lemma scaleAdjust_length (nums : list float) (w m : float) :
  List.length (scaleAdjust nums w m) = List.length nums.
Proof.
  rewrite scaleAdjust_cases. cbv zeta.
  destruct (deficitOf _ m nums =? 0); rewrite ?length_map; reflexivity.
Qed.

(** Without a scaled value below the minimum nothing is tallied. *)
Lemma deficitOf_none (f m : float) (l : list float) :
  Forall (fun n => (f * n <? m) = false) l -> deficitOf f m l = 0.
Proof.
  unfold deficitOf. generalize 0. intros d H. revert d.
  induction H as [| n l Hn _ IH]; intro d; [reflexivity |].
  cbn [fold_left]. rewrite Hn. apply IH.
Qed.

Lemma clamp_none (f m : float) (l : list float) :
  Forall (fun n => (f * n <? m) = false) l ->
  map (clamp f m) l = map (fun n => f * n) l.
Proof.
  intro H. induction H as [| n l Hn _ IH]; [reflexivity |].
  cbn [map]. unfold clamp at 1. rewrite Hn, IH. reflexivity.
Qed.


(** Where no scaled value is below the minimum, [scaleAdjust] scales. *)
Lemma scaleAdjust_scaled (nums : list float) (w m : float) :
  Forall (fun n => (scaleFactor w nums * n <? m) = false) nums ->
  scaleAdjust nums w m = map (fun n => scaleFactor w nums * n) nums.
Proof.
  intro H. rewrite scaleAdjust_cases. cbv zeta.
  rewrite (deficitOf_none _ _ _ H). change (0 =? 0) with true.
  apply clamp_none, H.
Qed.

(** The redistribution of a finite deficit leaves a number at the minimum
    there. *)
Lemma redistribute_min (m d s2 : float) (s : bool) (p : positive) (e : Z) :
  Prim2SF m = S754_finite s p e -> finite d ->
  m - d * (if m <? m then m / s2 else 0) = m.
Proof.
  intros Hm Hd. rewrite ltb_irrefl. exact (sub_mul_0 m d s p e Hm Hd).
Qed.


(** ** LayoutEngine: layoutStrip *)

Lemma placeRegions_widths (rs : list Region) :
  forall (ws : list float) (dx gap : float),
    List.length ws = List.length rs ->
    map width (placeRegions rs ws dx gap) = ws.
Proof.
  induction rs as [| r rs IH]; intros ws dx gap L; destruct ws as [| w ws];
    try discriminate; [reflexivity |].
  simpl. rewrite IH; [reflexivity | simpl in L; lia].
Qed.

Lemma placeRegions_coords (rs : list Region) :
  forall (ws : list float) (dx gap : float),
    List.length ws = List.length rs ->
    map coords (placeRegions rs ws dx gap) = map coords rs.
Proof.
  induction rs as [| r rs IH]; intros ws dx gap L; destruct ws as [| w ws];
    try discriminate; [reflexivity |].
  simpl. rewrite IH; [reflexivity | simpl in L; lia].
Qed.

Lemma placeRegions_length (rs : list Region) :
  forall (ws : list float) (dx gap : float),
    List.length ws = List.length rs ->
    List.length (placeRegions rs ws dx gap) = List.length rs.
Proof.
  induction rs as [| r rs IH]; intros ws dx gap L; destruct ws as [| w ws];
    try discriminate; [reflexivity |].
  simpl. rewrite IH; [reflexivity | simpl in L; lia].
Qed.

Lemma layoutStrip_widths (a : App) (strip : Strip)
      (totalWidth : option float) :
  map width (regions (layoutStrip a strip totalWidth))
  = scaleAdjust (weights (regions strip))
                (availWidth (effectiveWidth a totalWidth)
                            (List.length (regions strip)))
                minWidth.
Proof.
  unfold layoutStrip. simpl. apply placeRegions_widths.
  rewrite scaleAdjust_length. apply length_map.
Qed.

Lemma layoutStrip_coords (a : App) (strip : Strip)
      (totalWidth : option float) :
  map coords (regions (layoutStrip a strip totalWidth))
  = map coords (regions strip).
Proof.
  unfold layoutStrip. simpl. apply placeRegions_coords.
  rewrite scaleAdjust_length. apply length_map.
Qed.

Lemma layoutStrip_length (a : App) (strip : Strip)
      (totalWidth : option float) :
  List.length (regions (layoutStrip a strip totalWidth))
  = List.length (regions strip).
Proof.
  unfold layoutStrip. simpl. apply placeRegions_length.
  rewrite scaleAdjust_length. apply length_map.
Qed.




(** The widths are doubles.  Weights 11, 5 and 6 in a total width of 66
    have the available width 50 and the scale 50/22; the double
    (50/22) * 11 is just above 25, so the first region loses the whole
    deficit of the other two. *)
Lemma layoutStrip_rounding :
  map width
      (regions (layoutStrip (Sample.app0 [] (Sample.dm None None))
                            (Sample.strip3 11 5 6) (Some 66)))
  = [3.5527136788005009e-15; 25; 25] /\
  50 / 22 * 11 = 25.000000000000004.
Proof. vm_compute. split; reflexivity. Qed.

(** ** LayoutEngine: a second run of the layout *)

Lemma placeRegions_again (rs : list Region) :
  forall (v : list float) (dx gap : float),
    placeRegions (placeRegions rs v dx gap) v dx gap
    = placeRegions rs v dx gap.
Proof.
  induction rs as [| r rs IH]; intros v dx gap; destruct v as [| w v];
    try reflexivity.
  cbn [placeRegions]. rewrite IH. reflexivity.
Qed.

(** A second run on a strip gives the strip of the first run exactly when
    [scaleAdjust] gives the widths of the first run back. *)
Lemma layoutStrip_again (a : App) (strip : Strip) (totalWidth : option float) :
  let s1 := layoutStrip a strip totalWidth in
  layoutStrip a s1 totalWidth = s1 <-> reproduced a totalWidth s1.
Proof.
  intro s1. unfold reproduced, availOf. split.
  - intro E. rewrite <- layoutStrip_widths. rewrite E. reflexivity.
  - intro E.
    assert (W : map width (regions s1)
                = scaleAdjust (weights (regions strip))
                    (availWidth (effectiveWidth a totalWidth)
                                (List.length (regions strip))) minWidth)
      by apply layoutStrip_widths.
    rewrite W in E.
    unfold layoutStrip at 1.
    change (map (fun r => Double.orElse (width r) minWidth) (regions s1))
      with (weights (regions s1)).
    change (match totalWidth with
            | Some w => Double.orElse w (zoomWidth a)
            | None => zoomWidth a
            end) with (effectiveWidth a totalWidth).
    change (effectiveWidth a totalWidth
            - (endCap + regionGap
                        * (Double.ofZ (Z.of_nat (List.length (regions s1)))
                           - 1)))
      with (availWidth (effectiveWidth a totalWidth)
                       (List.length (regions s1))).
    rewrite E. unfold s1, layoutStrip. cbn [regions set_regions].
    rewrite placeRegions_again. reflexivity.
Qed.

Lemma at_least_min (w : float) :
  (minWidth <=? w) = true ->
  Double.orElse w minWidth = w /\ (1 * w <? minWidth) = false.
Proof.
  intro H. split.
  - unfold Double.orElse.
    rewrite (leb_truthy minWidth w 7036874417766400 (-48) eq_refl H).
    reflexivity.
  - rewrite mul_1_l. apply leb_ltb. exact H.
Qed.

(** A settled strip is reproduced. *)
Lemma settled_reproduced (a : App) (totalWidth : option float) (s : Strip) :
  settled a totalWidth s -> reproduced a totalWidth s.
Proof.
  unfold settled, reproduced. intros [E | [Hmin [Hsum [Hfin Hnz]]]].
  - rewrite E. reflexivity.
  - assert (W : weights (regions s) = map width (regions s)).
    { unfold weights. apply map_ext_in. intros r Hr.
      rewrite Forall_forall in Hmin.
      apply (at_least_min (width r) (Hmin r Hr)). }
    assert (F1 : scaleFactor (availOf a totalWidth s) (map width (regions s))
                 = 1).
    { unfold scaleFactor. fold (sumWidths (regions s)). rewrite Hsum.
      destruct (finite_cases _ Hfin) as [[z E] | [z [m [e E]]]].
      - rewrite eqb_spec, E in Hnz. discriminate Hnz.
      - exact (div_same _ z m e E). }
    rewrite W, scaleAdjust_scaled; rewrite F1.
    + rewrite <- (map_id (map width (regions s))) at 2.
      apply map_ext. apply mul_1_l.
    + apply Forall_forall. intros w Hw. apply in_map_iff in Hw.
      destruct Hw as [r [<- Hr]]. rewrite Forall_forall in Hmin.
      apply (at_least_min (width r) (Hmin r Hr)).
Qed.

Lemma cons_inj (A : Type) (x y : A) (l l' : list A) :
  x :: l = y :: l' -> x = y /\ l = l'.
Proof. intro H. injection H as H1 H2. split; assumption. Qed.

(** C9, as amended.  A second run of the layout right after the first,
    with the same total width, gives every strip of the first run back
    unchanged, widths and offsets included, exactly when [scaleAdjust]
    reproduces the widths of the first run from themselves.  It does when
    every strip of the first run is settled: its widths are all at least
    25 and add up exactly to its available width. *)
Theorem layout_idempotent (a : App) (ss : list Strip)
        (totalWidth : option float) :
  let once := layoutStrips a ss totalWidth in
  (layoutStrips a once totalWidth = once
   <-> Forall (reproduced a totalWidth) once) /\
  (Forall (settled a totalWidth) once ->
   layoutStrips a once totalWidth = once /\
   geometry (layoutStrips a once totalWidth) = geometry once).
Proof.
  intro once.
  assert (Iff : layoutStrips a once totalWidth = once
                <-> Forall (reproduced a totalWidth) once).
  { unfold once. induction ss as [| s ss IH]; cbn [layoutStrips map].
    - split; [constructor | reflexivity].
    - split.
      + intro E. apply cons_inj in E. destruct E as [E1 E2]. constructor.
        * apply layoutStrip_again. exact E1.
        * apply IH. exact E2.
      + intro H. inversion H as [| ? ? H1 H2]; subst.
        f_equal; [apply layoutStrip_again; exact H1 | apply IH; exact H2]. }
  split; [exact Iff |].
  intro H.
  assert (E : layoutStrips a once totalWidth = once).
  { apply Iff. eapply Forall_impl; [| exact H].
    intros s. apply settled_reproduced. }
  split; [exact E | rewrite E; reflexivity].
Qed.

Lemma layout_idempotent_witness :
  let a := Sample.app0 [] (Sample.dm None None) in
  let ss := [mkStrip Sample.gA [Sample.region 1 1 1000 1;
                                Sample.region 2 2001 3000 9]] in
  geometry (layoutStrips a ss (Some 114)) = [[(25, 12); (75, 39)]] /\
  geometry (layoutStrips a (layoutStrips a ss (Some 114)) (Some 114))
  = [[(25, 12); (75, 39)]].
Proof.
  intros a ss.
  destruct (layout_idempotent a ss (Some 114)) as [_ H].
  destruct H as [_ G].
  - constructor; [| constructor]. right.
    split; [repeat constructor |].
    split; [reflexivity |]. split; reflexivity.
  - rewrite G. split; reflexivity.
Defined.

(** C9, counterexample.  Weights 11, 1 and 32 in a total width of 116:
    the first run gives the widths 19.186046511627911, 25 and
    55.8139534883721, the second 25, 25 and 50.000000000000014.  Without
    any region at the minimum the second run differs as well, by the
    rounding of the scaled widths: weights 100, 30 and 100 in a total
    width of 500. *)
Lemma layout_not_idempotent :
  let a := Sample.app0 [] (Sample.dm None None) in
  (map (map fst) (geometry (layoutStrips a [Sample.strip3 11 1 32]
                                         (Some 116)))
   = [[19.186046511627911; 25; 55.8139534883721]] /\
   map (map fst)
       (geometry (layoutStrips a (layoutStrips a [Sample.strip3 11 1 32]
                                               (Some 116)) (Some 116)))
   = [[25; 25; 50.000000000000014]]) /\
  (map (map fst) (geometry (layoutStrips a [Sample.strip3 100 30 100]
                                         (Some 500)))
   = [[210.43478260869563; 63.130434782608688; 210.43478260869563]] /\
   map (map fst)
       (geometry (layoutStrips a (layoutStrips a [Sample.strip3 100 30 100]
                                               (Some 500)) (Some 500)))
   = [[210.43478260869568; 63.130434782608702; 210.43478260869568]]).
Proof. vm_compute. repeat split; reflexivity. Qed.

(** ** Well-formed regions *)



Lemma layoutStrips_coords (a : App) (ss : list Strip)
      (totalWidth : option float) :
  map (fun s => map coords (regions s)) (layoutStrips a ss totalWidth)
  = map (fun s => map coords (regions s)) ss.
Proof.
  unfold layoutStrips. rewrite map_map. apply map_ext.
  intro s. apply layoutStrip_coords.
Qed.





Local Open Scope Q_scope.

(** ** LandmarkAligner: the fallback for a landmark without counterpart *)

Lemma floor_ge_iff (k : Z) (y : Q) :
  (k <= Qfloor y)%Z <-> inject_Z k <= y.
Proof.
  split; intro H.
  - apply Qle_trans with (inject_Z (Qfloor y)); [| apply Qfloor_le].
    rewrite <- Zle_Qle. exact H.
  - rewrite <- (Qfloor_Z k). apply Qfloor_resp_le. exact H.
Qed.

Lemma guessLandmarkRegion_both (rm : RegionManager) (lc : LCoords)
      (g : Genome) (lmf n1 n2 : Feature) (o1 o2 : option Feature) :
  getGenolog (dataManager (app rm)) (ById (landmark lc)) (lgenome lc)
  = Some lmf ->
  neighborGenologs (app rm) lc g lmf = (o1, o2) ->
  match o1, o2 with
  | None, None => None
  | None, Some y => Some (y, y)
  | Some x, None => Some (x, x)
  | Some x, Some y => Some (x, y)
  end = Some (n1, n2) ->
  exists strip rm',
    guessLandmarkRegion lc g rm = Ok (Some strip, rm') /\
    s_genome strip = g /\
    Forall (fun r => genome r = g) (regions strip) /\
    map regionSpan (regions strip) = guessedSpans (lc_length lc) n1 n2.
Proof.
  intros Hl Hn Hb. unfold neighborGenologs in Hn. injection Hn as H1 H2.
  unfold guessLandmarkRegion, bind, getApp. rewrite Hl.
  rewrite H1, H2, Hb. unfold guessedSpans, windowAt, Num.floor.
  destruct (sameChr (f_chr n1) (f_chr n2)).
  - eexists. eexists. split; [reflexivity |]. simpl.
    split; [reflexivity |]. split; [repeat constructor | reflexivity].
  - eexists. eexists. split; [reflexivity |]. simpl.
    split; [reflexivity |]. split; [repeat constructor | reflexivity].
Qed.

Lemma floor_eq_iff (k : Z) (y : Q) :
  Qfloor y = k <-> inject_Z k <= y /\ y < inject_Z (k + 1).
Proof.
  split.
  - intros <-. split; [apply Qfloor_le | apply Qlt_floor].
  - intros [H1 H2]. apply Z.le_antisymm.
    + apply Z.lt_succ_r. apply Z.nle_gt. intro K.
      assert (inject_Z (k + 1) <= y)
        by (apply floor_ge_iff; unfold Z.succ in K; lia).
      lra.
    + apply floor_ge_iff. exact H1.
Qed.

(** C6, as amended.  When the landmark is a feature of its own genome and
    has no counterpart in the target genome: with no counterpart of a
    neighbour on either side the result is [null] and nothing is thrown;
    with a counterpart on one side only it serves for both sides;
    counterparts on one chromosome give one region of the length of the
    specification whose start is half that length before the middle of
    their combined extent; counterparts on two chromosomes give two regions
    of that length, each starting half the length before the start of its
    counterpart.  With no left counterpart, a right counterpart on
    chromosome 2 from 5000 to [e] and the length 1000 the result is the one
    region on chromosome 2 that starts at [floor ((5000 + e) / 2 - 500)] and
    is 1000 long; it is 4500 to 5499 exactly when [e] is 5000 or 5001. *)
Theorem guessLandmarkRegion_fallback :
  (forall (rm : RegionManager) (lc : LCoords) (g : Genome) (lmf : Feature),
      getGenolog (dataManager (app rm)) (ById (landmark lc)) (lgenome lc)
      = Some lmf ->
      match neighborGenologs (app rm) lc g lmf with
      | (None, None) => guessLandmarkRegion lc g rm = Ok (None, rm)
      | (o1, o2) =>
          let n1 := orDefault o1 (orDefault o2 lmf) in
          let n2 := orDefault o2 (orDefault o1 lmf) in
          exists strip rm',
            guessLandmarkRegion lc g rm = Ok (Some strip, rm') /\
            s_genome strip = g /\
            Forall (fun r => genome r = g) (regions strip) /\
            map regionSpan (regions strip)
            = guessedSpans (lc_length lc) n1 n2 /\
            Forall (fun r => (end_ r - start r + 1 = lc_length lc)%Z)
                   (regions strip)
      end) /\
  (forall e : Z,
      exists r rm',
        guessLandmarkRegion Sample.lcLM Sample.gB
          (Sample.rm0 [] (Sample.dm None (Some (Sample.rightB e))))
        = Ok (Some (mkStrip Sample.gB [r]), rm') /\
        chr r = Sample.chr2 /\
        start r = Qfloor ((5000 + inject_Z e) / 2 - 500) /\
        end_ r = (start r + 999)%Z /\
        (start r = 4500%Z /\ end_ r = 5499%Z <-> (5000 <= e <= 5001)%Z)).
Proof.
  split.
  - intros rm lc g lmf Hl.
    assert (Len : forall n1 n2 (rs : list Region),
               map regionSpan rs = guessedSpans (lc_length lc) n1 n2 ->
               Forall (fun r => (end_ r - start r + 1 = lc_length lc)%Z) rs).
    { intros n1 n2 rs H. unfold guessedSpans, windowAt in H.
      destruct (sameChr (f_chr n1) (f_chr n2));
        repeat (destruct rs as [| ? rs]; try discriminate);
        unfold regionSpan in H; simpl in H; inversion H; subst;
        repeat constructor; lia. }
    destruct (neighborGenologs (app rm) lc g lmf) as [o1 o2] eqn:Hn.
    destruct o1 as [x |]; destruct o2 as [y |]; simpl.
    + destruct (guessLandmarkRegion_both rm lc g lmf x y _ _ Hl Hn eq_refl)
        as [strip [rm' [E [G [A S]]]]].
      exists strip, rm'. repeat split; try assumption. eapply Len. exact S.
    + destruct (guessLandmarkRegion_both rm lc g lmf x x _ _ Hl Hn eq_refl)
        as [strip [rm' [E [G [A S]]]]].
      exists strip, rm'. repeat split; try assumption. eapply Len. exact S.
    + destruct (guessLandmarkRegion_both rm lc g lmf y y _ _ Hl Hn eq_refl)
        as [strip [rm' [E [G [A S]]]]].
      exists strip, rm'. repeat split; try assumption. eapply Len. exact S.
    + unfold neighborGenologs in Hn. injection Hn as H1 H2.
      unfold guessLandmarkRegion, bind, getApp. rewrite Hl, H1, H2.
      reflexivity.
  - intro e.
    destruct (guessLandmarkRegion_both
                (Sample.rm0 [] (Sample.dm None (Some (Sample.rightB e))))
                Sample.lcLM Sample.gB Sample.lm
                (Sample.rightB e) (Sample.rightB e)
                None (Some (Sample.rightB e)))
      as [[sg rs] [rm' [E [G [_ S]]]]];
      [reflexivity | reflexivity | reflexivity |].
    simpl in G. subst sg.
    change (guessedSpans (lc_length Sample.lcLM) (Sample.rightB e)
                         (Sample.rightB e))
      with [windowAt Sample.chr2
                     ((inject_Z (Z.min 5000 5000) + inject_Z (Z.max e e)) / 2)
                     1000] in S.
    cbn [regions] in S.
    destruct rs as [| r [| r' rs]]; try discriminate.
    unfold regionSpan, windowAt in S. cbn [map] in S.
    assert (Ex : (inject_Z (Z.min 5000 5000) + inject_Z (Z.max e e)) / 2
                 - inject_Z 1000 / 2
                 == (5000 + inject_Z e) / 2 - 500).
    { clear. rewrite Z.max_id. change (Z.min 5000 5000) with 5000%Z.
      change (inject_Z 5000) with 5000. change (inject_Z 1000) with 1000.
      generalize (inject_Z e). intro q. field. }
    rewrite (Qfloor_comp _ _ Ex) in S.
    remember (Qfloor ((5000 + inject_Z e) / 2 - 500)) as fl eqn:Hfl.
    injection S as Sc Ss Se.
    exists r, rm'. split; [exact E |]. split; [exact Sc |].
    split; [exact Ss |]. split; [lia |].
    rewrite Se, Ss, Hfl. clear.
    set (x := (5000 + inject_Z e) / 2 - 500).
    assert (Hx : forall k : Z,
               inject_Z k <= x <-> (2 * k + 1000 <= 5000 + e)%Z).
    { assert (Xe : x == (5000 + inject_Z e) * (1 # 2) - 500)
        by (unfold x; generalize (inject_Z e); intro q; field).
      intro k. rewrite Xe, Zle_Qle.
      rewrite !inject_Z_plus, !inject_Z_mult.
      change (inject_Z 2) with 2. change (inject_Z 1000) with 1000.
      change (inject_Z 5000) with 5000.
      generalize (inject_Z e) (inject_Z k). intros q1 q2.
      split; intro H; lra. }
    split.
    + intros [H _]. apply floor_eq_iff in H. destruct H as [H1 H2].
      apply Hx in H1. apply Qlt_not_le in H2.
      assert (~ (2 * (4500 + 1) + 1000 <= 5000 + e)%Z)
        by (intro K; apply H2; apply Hx; exact K).
      lia.
    + intro H.
      assert (F : Qfloor x = 4500%Z).
      { apply floor_eq_iff. split; [apply Hx; lia |].
        apply Qnot_le_lt. intro K. apply Hx in K. lia. }
      rewrite F. split; reflexivity.
Qed.

Lemma guessLandmarkRegion_fallback_witness :
  getGenolog (dataManager (app (Sample.rm0 []
                (Sample.dm (Some Sample.leftB) (Some (Sample.rightB 6000))))))
             (ById (landmark Sample.lcLM)) (lgenome Sample.lcLM)
  = Some Sample.lm /\
  exists strip rm',
    guessLandmarkRegion Sample.lcLM Sample.gB
      (Sample.rm0 [] (Sample.dm (Some Sample.leftB)
                                (Some (Sample.rightB 6000))))
    = Ok (Some strip, rm') /\
    map regionSpan (regions strip)
    = [(Sample.chr3, 6500, 7499)%Z; (Sample.chr2, 4500, 5499)%Z].
Proof.
  assert (H : getGenolog (dataManager (app (Sample.rm0 []
                (Sample.dm (Some Sample.leftB) (Some (Sample.rightB 6000))))))
             (ById (landmark Sample.lcLM)) (lgenome Sample.lcLM)
              = Some Sample.lm) by reflexivity.
  split; [exact H |].
  destruct guessLandmarkRegion_fallback as [G _].
  specialize (G _ _ Sample.gB _ H).
  vm_compute neighborGenologs in G. cbv iota beta zeta in G.
  destruct G as [strip [rm' [E [_ [_ [S _]]]]]].
  exists strip, rm'. split; [exact E |]. rewrite S. reflexivity.
Defined.

(** C6, counterexample.  With no left counterpart and the right
    neighbour's counterpart on chromosome 2 from 5000 to 6000, the length
    1000 gives the region 5000 to 5999, not 4500 to 5499. *)
Lemma guessLandmarkRegion_example_fails :
  exists r rm',
    guessLandmarkRegion Sample.lcLM Sample.gB
      (Sample.rm0 [] (Sample.dm None (Some (Sample.rightB 6000))))
    = Ok (Some (mkStrip Sample.gB [r]), rm') /\
    regionSpan r = (Sample.chr2, 5000, 5999)%Z /\
    regionSpan r <> (Sample.chr2, 4500, 5499)%Z.
Proof.
  eexists. eexists. split; [vm_compute; reflexivity |].
  split; [reflexivity | discriminate].
Qed.

Local Open Scope float_scope.

(** ** StripController: the initial region of a new strip *)

Lemma regionSpan_coords (l : list Region) :
  map regionSpan l
  = map (fun p : nat * Genome * Chromosome * Z * Z =>
           let '(_, _, c, s, e) := p in (c, s, e)) (map coords l).
Proof.
  rewrite map_map. apply map_ext. intro r. reflexivity.
Qed.

(** C5.  [addStrip] never reads its region argument: with no landmark and
    no reference region the strip gets the default region on the first
    chromosome, from 1 to the smaller of 10,000,000 and the length of the
    chromosome, whether or not a region was supplied. *)
Theorem addStrip_ignores_region (g : Genome) (r : option Region)
        (rm : RegionManager) (c : Chromosome) (cs : list Chromosome) :
  landmarkActive (app rm) = false ->
  rRegion (app rm) = None ->
  chromosomes g = c :: cs ->
  exists strip rm',
    addStrip g r rm = Ok (strip, rm') /\
    map regionSpan (regions strip)
    = [(c, 1%Z, Z.min 10000000 (chr_length c))] /\
    strips (app rm') = strips (app rm) ++ [strip].
Proof.
  intros Hl Hr Hc. unfold addStrip, initialStrip, bind, getApp.
  rewrite Hl, Hr, Hc.
  unfold literalRegion, bind, newObj, ret, putApp. cbn [app].
  eexists. eexists. split; [reflexivity |]. split; [| reflexivity].
  cbn [regions layoutStrip set_regions].
  rewrite regionSpan_coords.
  rewrite placeRegions_coords; [reflexivity |].
  rewrite scaleAdjust_length. reflexivity.
Qed.

Lemma addStrip_ignores_region_witness :
  landmarkActive (app (Sample.rm0 [] (Sample.dm None None))) = false /\
  rRegion (app (Sample.rm0 [] (Sample.dm None None))) = None /\
  chromosomes Sample.gB = Sample.chr1 :: [Sample.chr2; Sample.chr3] /\
  exists strip rm',
    addStrip Sample.gB
             (Some (mkRegion 7 Sample.gB Sample.chr2 100 200 1 0 false
                             (Some 7%nat) None))
             (Sample.rm0 [] (Sample.dm None None))
    = Ok (strip, rm') /\
    map regionSpan (regions strip) = [(Sample.chr1, 1, 10000000)%Z].
Proof.
  split; [reflexivity | split; [reflexivity | split; [reflexivity |]]].
  destruct (addStrip_ignores_region Sample.gB
              (Some (mkRegion 7 Sample.gB Sample.chr2 100 200 1 0 false
                              (Some 7%nat) None))
              (Sample.rm0 [] (Sample.dm None None))
              Sample.chr1 [Sample.chr2; Sample.chr3]
              eq_refl eq_refl eq_refl) as [strip [rm' [E [S _]]]].
  exists strip, rm'. split; [exact E | exact S].
Defined.

(** ** Navigation modes *)

Lemma keepsApp_ret (A : Type) (x : A) : keepsApp (ret x).
Proof. intros rm y rm' H. injection H as _ <-. reflexivity. Qed.

Lemma keepsApp_throw (A : Type) (msg : string) : keepsApp (@throw A msg).
Proof. intros rm y rm' H. discriminate. Qed.

Lemma keepsApp_getApp : keepsApp getApp.
Proof. intros rm y rm' H. injection H as _ <-. reflexivity. Qed.

Lemma keepsApp_newObj : keepsApp newObj.
Proof. intros rm y rm' H. injection H as _ <-. reflexivity. Qed.

Lemma keepsApp_nextCount : keepsApp nextCount.
Proof. intros rm y rm' H. injection H as _ <-. reflexivity. Qed.

Lemma keepsApp_bind (A B : Type) (m : M A) (k : A -> M B) :
  keepsApp m -> (forall x, keepsApp (k x)) -> keepsApp (bind m k).
Proof.
  intros Hm Hk rm y rm' H. unfold bind in H.
  destruct (m rm) as [[x rm1] |] eqn:E; [| discriminate].
  rewrite (Hk x rm1 y rm' H). apply (Hm rm x rm1 E).
Qed.

Lemma keepsApp_mapM (A B : Type) (f : A -> M B) (l : list A) :
  (forall x, keepsApp (f x)) -> keepsApp (mapM f l).
Proof.
  intro Hf. induction l as [| x l IH]; simpl.
  - apply keepsApp_ret.
  - apply keepsApp_bind; [apply Hf |]. intro y.
    apply keepsApp_bind; [exact IH |]. intro ys. apply keepsApp_ret.
Qed.

Ltac keeps_step :=
  first [ apply keepsApp_bind; [| intro]
        | apply keepsApp_ret | apply keepsApp_throw | apply keepsApp_getApp
        | apply keepsApp_newObj | apply keepsApp_nextCount
        | apply keepsApp_mapM; intro ].

Lemma keepsApp_makeRegion (r : RegionInit) : keepsApp (makeRegion r).
Proof. unfold makeRegion. repeat keeps_step. Qed.

Lemma keepsApp_literalRegion (g : Genome) (c : Chromosome) (s e : Z) (w : float) :
  keepsApp (literalRegion g c s e w).
Proof. unfold literalRegion. repeat keeps_step. Qed.

Lemma keepsApp_regionOfBlock (g : Genome) (b : Block) :
  keepsApp (regionOfBlock g b).
Proof. unfold regionOfBlock. repeat keeps_step. Qed.

Lemma keepsApp_mapRegionToGenome (r : Region) (g : Genome) :
  keepsApp (mapRegionToGenome r g).
Proof.
  unfold mapRegionToGenome. destruct (sameGenome (genome r) g).
  - apply keepsApp_ret.
  - apply keepsApp_bind; [apply keepsApp_getApp |]. intro a.
    apply keepsApp_bind; [| intro; apply keepsApp_ret].
    apply keepsApp_mapM. intro b. apply keepsApp_regionOfBlock.
Qed.

Lemma keepsApp_remakeRegions (r : Region) (s : Strip) :
  keepsApp (remakeRegions r s).
Proof.
  unfold remakeRegions.
  apply keepsApp_bind; [| intro; apply keepsApp_ret].
  apply keepsApp_mapM. intro rr. destruct (sameRegion rr r).
  - apply keepsApp_ret.
  - apply keepsApp_makeRegion.
Qed.

Lemma keepsApp_guessLandmarkRegion (lc : LCoords) (g : Genome) :
  keepsApp (guessLandmarkRegion lc g).
Proof.
  unfold guessLandmarkRegion.
  apply keepsApp_bind; [apply keepsApp_getApp |]. intro a. cbv zeta.
  destruct (getGenolog (dataManager a) (ById (landmark lc)) (lgenome lc))
    as [lmf |]; [| apply keepsApp_throw].
  destruct (findNeighborGenolog _ _ _ _ _ (-1)) as [n1 |];
    destruct (findNeighborGenolog _ _ _ _ _ 1) as [n2 |];
    cbv beta iota;
    try apply keepsApp_ret;
    match goal with
    | |- keepsApp (if ?c then _ else _) => destruct c
    end;
    repeat first [ apply keepsApp_makeRegion
                 | apply keepsApp_literalRegion
                 | apply keepsApp_ret
                 | apply keepsApp_bind; [| intro] ].
Qed.

Lemma keepsApp_computeLandmarkRegion (lc : LCoords) (g : Genome) :
  keepsApp (computeLandmarkRegion lc g).
Proof.
  unfold computeLandmarkRegion. intros rm x rm' H.
  unfold bind at 1 in H. unfold getApp in H. cbv zeta in H.
  destruct (Z.of_nat _ =? 0)%Z.
  - apply (keepsApp_guessLandmarkRegion lc g rm x rm' H).
  - refine (keepsApp_bind _ _ _ _ _ _ rm x rm' H);
      [| intro; apply keepsApp_ret].
    apply keepsApp_mapM. intro lm. apply keepsApp_makeRegion.
Qed.

Lemma keepsApp_computeLandmarkRegions (lc : LCoords) (gs : list Genome) :
  keepsApp (computeLandmarkRegions lc gs).
Proof.
  unfold computeLandmarkRegions. apply keepsApp_mapM.
  intro g. apply keepsApp_computeLandmarkRegion.
Qed.

Lemma modesKept_refl (a : App) : modesKept a a.
Proof. unfold modesKept. auto. Qed.

Lemma modesKept_trans (a b c : App) :
  modesKept a b -> modesKept b c -> modesKept a c.
Proof.
  unfold modesKept. intros [H1 [H2 H3]] [K1 [K2 K3]].
  split; [congruence |]. split; [| congruence].
  destruct K2 as [K2 | K2]; [| right; exact K2].
  destruct H2 as [H2 | H2]; [left | right]; congruence.
Qed.

Lemma modesKept_strips (a : App) (ss : list Strip) :
  modesKept a (set_strips a ss).
Proof. unfold modesKept. simpl. auto. Qed.

Lemma keepsApp_keepsModes (A : Type) (m : M A) : keepsApp m -> keepsModes m.
Proof.
  intros H rm x rm' E. rewrite (H rm x rm' E). apply modesKept_refl.
Qed.

Lemma keepsModes_bind (A B : Type) (m : M A) (k : A -> M B) :
  keepsModes m -> (forall x, keepsModes (k x)) -> keepsModes (bind m k).
Proof.
  intros Hm Hk rm y rm' H. unfold bind in H.
  destruct (m rm) as [[x rm1] |] eqn:E; [| discriminate].
  apply modesKept_trans with (app rm1);
    [apply (Hm rm x rm1 E) | apply (Hk x rm1 y rm' H)].
Qed.

Lemma keepsModes_layout (ss : option (list Strip)) (tw : option float) :
  keepsModes (layout ss tw).
Proof.
  intros rm x rm' H. unfold layout, bind, getApp, putApp, ret in H.
  destruct ss as [l |]; injection H as _ <-.
  - apply modesKept_refl.
  - apply modesKept_strips.
Qed.

Lemma keepsModes_deleteStrip (g : Genome) : keepsModes (deleteStrip g).
Proof.
  intros rm x rm' H. unfold deleteStrip, bind, getApp, putApp, ret in H.
  destruct (0 <=? findStrip (app rm) g)%Z.
  - destruct (match at_ (strips (app rm)) (findStrip (app rm) g) with
              | Some s =>
                  match rRegion (app rm) with
                  | Some rr =>
                      negb (indexOf sameRegion (regions s) rr =? -1)%Z
                  | None => false
                  end
              | None => false
              end);
      injection H as _ <-; unfold modesKept; simpl; auto.
  - injection H as _ <-. apply modesKept_refl.
Qed.

Lemma keepsModes_moveBorder (r : Region) (amt : float) :
  keepsModes (moveBorder r amt).
Proof.
  intros rm x rm' H. unfold moveBorder, bind, getApp, putApp, ret, throw in H.
  destruct (findRegion (app rm) r) as [si ri].
  destruct (ri =? -1)%Z; [injection H as _ <-; apply modesKept_refl |].
  destruct (at_ (strips (app rm)) si) as [s |];
    [| injection H as _ <-; apply modesKept_refl].
  destruct (_move _ _ _ _ _) as [[regions1 moved] |]; [| discriminate].
  injection H as _ <-. apply modesKept_strips.
Qed.

Ltac after_layout H :=
  match type of H with
  | context [layout ?s ?w ?r] =>
      let L := fresh "L" in
      destruct (layout s w r) as [[? ?] | ?] eqn:L; [| discriminate];
      apply keepsModes_layout in L; cbn [app] in L
  end.

Lemma keepsModes_swap (r : Region) : keepsModes (swap r).
Proof.
  intros rm x rm' H. unfold swap, bind, getApp, putApp, ret in H.
  destruct (findRegion (app rm) r) as [si ri].
  destruct (ri =? -1)%Z; [injection H as _ <-; apply modesKept_refl |].
  destruct (at_ (strips (app rm)) si) as [s |];
    [| injection H as _ <-; apply modesKept_refl].
  destruct (at_ (regions s) ri) as [r0 |];
    [| injection H as _ <-; apply modesKept_refl].
  after_layout H. injection H as _ <-.
  eapply modesKept_trans; [| exact L]. apply modesKept_strips.
Qed.

Lemma keepsModes_zoomScrollAllRegions (zAmt sAmt : float) :
  keepsModes (zoomScrollAllRegions zAmt sAmt).
Proof.
  intros rm x rm' H.
  unfold zoomScrollAllRegions, bind, getApp, putApp, throw in H.
  destruct (zoomScrollStrips (strips (app rm)) zAmt sAmt) as [ss | m];
    [| discriminate].
  cbn [lcoords set_strips] in H.
  destruct (lcoords (app rm)) as [lc |] eqn:Hlc.
  - destruct (landmarkActive _); injection H as _ <-;
      unfold modesKept; cbn; rewrite ?Hlc; auto.
  - injection H as _ <-. unfold modesKept. cbn. rewrite ?Hlc. auto.
Qed.

Lemma keepsModes_splitRegion (r : Region) (frac : float) :
  keepsModes (splitRegion r frac).
Proof.
  intros rm x rm' H.
  unfold splitRegion, bind, getApp, putApp, ret in H.
  destruct (findRegion (app rm) r) as [si ri].
  destruct (ri =? -1)%Z; [injection H as _ <-; apply modesKept_refl |].
  destruct (at_ (strips (app rm)) si) as [s |];
    [| injection H as _ <-; apply modesKept_refl].
  destruct (at_ (regions s) ri) as [r0 |];
    [| injection H as _ <-; apply modesKept_refl].
  destruct (makeRegion (fieldsOf r0) rm) as [[r2 rm1] |] eqn:E;
    [| discriminate].
  apply keepsApp_makeRegion in E.
  destruct (splitPieces r0 r2 frac) as [ra rb].
  after_layout H. injection H as _ <-.
  eapply modesKept_trans; [| exact L]. rewrite E. apply modesKept_strips.
Qed.

Lemma keepsModes_removeRegion (r : Region) : keepsModes (removeRegion r).
Proof.
  intros rm x rm' H. unfold removeRegion, bind, getApp, ret in H.
  destruct (findRegion (app rm) r) as [si ri].
  destruct (ri =? -1)%Z; [injection H as _ <-; apply modesKept_refl |].
  destruct (at_ (strips (app rm)) si) as [s |];
    [| injection H as _ <-; apply modesKept_refl].
  destruct (Z.of_nat (List.length (regions s)) =? 1)%Z.
  - destruct (deleteStrip (s_genome s) rm) as [[u rm1] |] eqn:D;
      [| discriminate].
    apply keepsModes_deleteStrip in D.
    after_layout H. injection H as _ <-.
    eapply modesKept_trans; [exact D | exact L].
  - unfold putApp in H. after_layout H. injection H as _ <-.
    eapply modesKept_trans; [| exact L]. apply modesKept_strips.
Qed.

Lemma keepsApp_initialStrip (a : App) (g : Genome) :
  keepsApp (initialStrip a g).
Proof.
  unfold initialStrip. destruct (landmarkActive a).
  - destruct (lcoords a) as [lc |]; [| apply keepsApp_throw].
    apply keepsApp_bind; [apply keepsApp_computeLandmarkRegions |].
    intros [| [strip |] ss]; try apply keepsApp_throw. apply keepsApp_ret.
  - destruct (rRegion a) as [rr |];
      [apply keepsApp_mapRegionToGenome |].
    destruct (chromosomes g) as [| c cs]; [apply keepsApp_throw |].
    apply keepsApp_bind; [apply keepsApp_literalRegion |].
    intro r0. apply keepsApp_ret.
Qed.

Lemma keepsModes_addStrip (g : Genome) (r : option Region) :
  keepsModes (addStrip g r).
Proof.
  intros rm x rm' H. unfold addStrip in H.
  unfold bind at 1 in H. unfold getApp at 1 in H.
  unfold bind at 1 in H.
  destruct (initialStrip (app rm) g rm) as [[p rm1] |] eqn:P;
    [| discriminate].
  apply keepsApp_initialStrip in P.
  unfold bind, getApp, putApp, ret in H. injection H as _ <-.
  cbn [app]. rewrite P. apply modesKept_strips.
Qed.

(** What the two operations that enter a mode leave in the state. *)
Lemma computeMappedRegions_modes (r : Region) (gs : option (list Genome))
      (rm rm' : RegionManager) :
  computeMappedRegions r gs rm = Ok (tt, rm') ->
  rRegion (app rm') = Some r /\ scrollLock (app rm') = false /\
  lcoords (app rm') = None.
Proof.
  intro H. unfold computeMappedRegions in H.
  unfold bind, getApp, modifyApp, layout, ret in H.
  destruct (mapM (mapRegionToGenome r) _ rm) as [[ss rm1] |] eqn:E1;
    [| discriminate].
  destruct (mapM (remakeRegions r) ss _) as [[ss1 rm3] |] eqn:E2;
    [| discriminate].
  injection H as <-. cbn [app].
  apply (keepsApp_mapM _ _ (remakeRegions r) ss (keepsApp_remakeRegions r))
    in E2.
  cbn [app] in E2. rewrite E2. cbn. auto.
Qed.

Lemma alignOnLandmark_modes (lc : LCoords) (gs : option (list Genome))
      (rm rm' : RegionManager) :
  alignOnLandmark lc gs rm = Ok (tt, rm') ->
  scrollLock (app rm') = true /\ lcoords (app rm') = Some lc /\
  rRegion (app rm') = None /\ currentSelection (app rm') = [landmark lc].
Proof.
  intro H. unfold alignOnLandmark in H.
  unfold bind, getApp, modifyApp in H.
  destruct (computeLandmarkRegions lc _ rm) as [[ss rm1] |]; [| discriminate].
  destruct (mergeUpdate ss rm1) as [[u rm2] |]; [| discriminate].
  destruct (layout None None rm2) as [[l rm3] |]; [| discriminate].
  injection H as <-. cbn. auto.
Qed.

Lemma referenceExclusive_kept (a a' : App) :
  modesKept a a' -> referenceExclusive a -> referenceExclusive a'.
Proof.
  unfold modesKept, referenceExclusive, Reference, Locked, Landmark.
  intros [H1 [H2 H3]] Inv Href.
  destruct H2 as [H2 | H2]; [| congruence].
  rewrite H2 in Href. destruct (Inv Href) as [I1 I2].
  split; [congruence |].
  intros [lc' [l [K1 K2]]]. apply I2.
  rewrite K1 in H3. simpl in H3. rewrite K2 in H3.
  destruct (lcoords a) as [lc |]; [| discriminate].
  simpl in H3. exists lc, l. split; [reflexivity | congruence].
Qed.

Lemma step_referenceExclusive (rm rm' : RegionManager) :
  step rm rm' -> referenceExclusive (app rm) -> referenceExclusive (app rm').
Proof.
  intros [o E] Inv.
  assert (K : forall (m : M unit),
             keepsModes m -> m rm = Ok (tt, rm') ->
             referenceExclusive (app rm'))
    by (intros m Hm Hr; eapply referenceExclusive_kept;
        [apply (Hm rm tt rm' Hr) | exact Inv]).
  assert (Kt : forall (A : Type) (m : M A),
             keepsModes m -> keepsModes (bind m (fun _ => ret tt))).
  { intros A m Hm. apply keepsModes_bind; [exact Hm |].
    intro y. apply keepsApp_keepsModes. apply keepsApp_ret. }
  destruct o; simpl in E.
  - apply computeMappedRegions_modes in E. destruct E as [E1 [E2 E3]].
    intros _. unfold Locked, Landmark. split; [congruence |].
    intros [lc [l [K1 _]]]. congruence.
  - apply alignOnLandmark_modes in E. destruct E as [_ [_ [E3 _]]].
    intro Href. exfalso. apply Href. exact E3.
  - eapply K; [| exact E]. apply Kt. apply keepsModes_addStrip.
  - eapply K; [| exact E]. apply keepsModes_deleteStrip.
  - eapply K; [| exact E]. apply keepsModes_moveBorder.
  - eapply K; [| exact E]. apply keepsModes_swap.
  - eapply K; [| exact E]. apply keepsModes_zoomScrollAllRegions.
  - eapply K; [| exact E]. apply keepsModes_splitRegion.
  - eapply K; [| exact E]. apply keepsModes_removeRegion.
  - eapply K; [| exact E]. apply Kt. apply keepsModes_layout.
Qed.

(** C1, as amended.  [computeMappedRegions] enters Reference mode and
    clears the other two modes; [alignOnLandmark] enters Landmark mode,
    clears Reference mode and turns the scroll lock on; in every state
    reached from the initial one by operations of the manager, Reference
    mode is never active together with Locked or Landmark mode. *)
Theorem modes_exclusive :
  (forall (r : Region) (gs : option (list Genome)) (rm rm' : RegionManager),
      computeMappedRegions r gs rm = Ok (tt, rm') ->
      rRegion (app rm') = Some r /\
      ~ Locked (app rm') /\ ~ Landmark (app rm')) /\
  (forall (lc : LCoords) (gs : option (list Genome))
          (rm rm' : RegionManager),
      alignOnLandmark lc gs rm = Ok (tt, rm') ->
      lcoords (app rm') = Some lc /\
      Locked (app rm') /\ ~ Reference (app rm')) /\
  (forall rm : RegionManager,
      reachable rm -> referenceExclusive (app rm)).
Proof.
  split; [| split].
  - intros r gs rm rm' H.
    apply computeMappedRegions_modes in H. destruct H as [H1 [H2 H3]].
    split; [exact H1 |]. unfold Locked, Landmark.
    split; [congruence |]. intros [lc [l [K _]]]. congruence.
  - intros lc gs rm rm' H.
    apply alignOnLandmark_modes in H. destruct H as [H1 [H2 [H3 _]]].
    split; [exact H2 |]. unfold Locked, Reference.
    split; [exact H1 |]. intro K. apply K. exact H3.
  - intros rm H. induction H as [rm [_ [Hr _]] | rm rm' _ IH Hs].
    + intro Href. exfalso. apply Href. exact Hr.
    + apply (step_referenceExclusive rm rm' Hs IH).
Qed.

Lemma modes_exclusive_witness :
  exists rm',
    computeMappedRegions (Sample.region 1 100 199 50) None
      (Sample.rm0 [mkStrip Sample.gA [Sample.region 1 100 199 50]]
                  (Sample.dm None None))
    = Ok (tt, rm') /\
    rRegion (app rm') = Some (Sample.region 1 100 199 50) /\
    ~ Locked (app rm') /\ ~ Landmark (app rm').
Proof.
  destruct modes_exclusive as [H _].
  assert (E : exists rm',
             computeMappedRegions (Sample.region 1 100 199 50) None
               (Sample.rm0 [mkStrip Sample.gA [Sample.region 1 100 199 50]]
                           (Sample.dm None None))
             = Ok (tt, rm'))
    by (eexists; vm_compute; reflexivity).
  destruct E as [rm' E]. exists rm'. split; [exact E |].
  exact (H _ _ _ _ E).
Defined.

(** C1, counterexample.  From the initial state, aligning on the landmark
    "LM" leaves the scroll lock on and the landmark set: Locked and Landmark
    mode are active together. *)
Lemma modes_not_exclusive :
  exists rm',
    reachable rm' /\ Locked (app rm') /\ Landmark (app rm').
Proof.
  assert (E : exists rm',
             alignOnLandmark Sample.lcLM (Some [Sample.gB])
               (Sample.rm0 [] (Sample.dm None (Some (Sample.rightB 6000))))
             = Ok (tt, rm'))
    by (eexists; vm_compute; reflexivity).
  destruct E as [rm' E]. exists rm'. split.
  - apply reach_step
      with (Sample.rm0 [] (Sample.dm None (Some (Sample.rightB 6000)))).
    + apply reach_initial. unfold initial. simpl.
      repeat split. exists Sample.lc0. split; reflexivity.
    + exists (OpAlignOnLandmark Sample.lcLM (Some [Sample.gB])).
      exact E.
  - apply alignOnLandmark_modes in E. destruct E as [E1 [E2 _]].
    split; [exact E1 |].
    exists Sample.lcLM, "LM"%string. split; [exact E2 | reflexivity].
Qed.

(* ------------------------------------------------------------------ *)

(** * Further properties of the operations *)

(** ** NavigationTransform *)

(** X3.  Reversing a region mirrors scrolling: zooming and scrolling the
    reversed region by [sAmt] gives the coordinates that the region itself
    gets for [- sAmt]. *)
Theorem zoomScrollRegion_reversed (r : Region) (zAmt sAmt : float) :
  (0 <? zAmt) = true ->
  exists r1 r2,
    zoomScrollRegion (reverseRegion r) zAmt sAmt = Ok r1 /\
    zoomScrollRegion r zAmt (- sAmt) = Ok r2 /\
    start r1 = start r2 /\ end_ r1 = end_ r2.
Proof.
  intro Hz. apply ltb_leb in Hz. eexists. eexists.
  split; [apply zoomScrollRegion_ok; exact Hz |].
  split; [apply zoomScrollRegion_ok; exact Hz |].
  unfold zoomScrollCoords, zoomScrollNumbers.
  cbn [start end_ set_start set_end reverseRegion reversed fst snd].
  assert (E : forall m : float,
             sAmt * m * (if negb (reversed r) then -1 else 1)
             = - sAmt * m * (if reversed r then -1 else 1)).
  { intro m. destruct (reversed r); cbn [negb].
    - rewrite mul_1_r, mul_m1_r, mul_opp_l, opp_involutive. reflexivity.
    - rewrite mul_1_r, mul_m1_r, mul_opp_l. reflexivity. }
  rewrite E. split; reflexivity.
Qed.

Lemma zoomScrollRegion_reversed_witness :
  exists r1 r2,
    zoomScrollRegion (reverseRegion (Sample.region 1 1000 2000 1)) 2 0.3
    = Ok r1 /\
    zoomScrollRegion (Sample.region 1 1000 2000 1) 2 (- 0.3) = Ok r2 /\
    start r1 = start r2 /\ end_ r1 = end_ r2.
Proof.
  exact (zoomScrollRegion_reversed (Sample.region 1 1000 2000 1) 2 0.3
                                   eq_refl).
Defined.

Lemma zoomScrollRegion_fails (r : Region) (zAmt sAmt : float) :
  (zAmt <=? 0) = true -> exists m, zoomScrollRegion r zAmt sAmt = Throw m.
Proof.
  intro H. unfold zoomScrollRegion. rewrite H. eexists. reflexivity.
Qed.

Lemma zoomScrollRegions_each (rs : list Region) (zAmt sAmt : float) :
  (zAmt <=? 0) = false ->
  exists rs',
    zoomScrollRegions rs zAmt sAmt = Ok rs' /\
    Forall2 (fun r r' => zoomScrollRegion r zAmt sAmt = Ok r') rs rs'.
Proof.
  intro Hz. induction rs as [| r rs [rs' [E F]]].
  - exists []. split; [reflexivity | constructor].
  - simpl. rewrite (zoomScrollRegion_ok r zAmt sAmt Hz), E.
    eexists. split; [reflexivity |].
    constructor; [apply zoomScrollRegion_ok; exact Hz | exact F].
Qed.

Lemma zoomScrollStrips_each (ss : list Strip) (zAmt sAmt : float) :
  (zAmt <=? 0) = false ->
  exists ss',
    zoomScrollStrips ss zAmt sAmt = Ok ss' /\
    Forall2 (fun s s' =>
               s_genome s' = s_genome s /\
               Forall2 (fun r r' => zoomScrollRegion r zAmt sAmt = Ok r')
                       (regions s) (regions s'))
            ss ss'.
Proof.
  intro Hz. induction ss as [| s ss [ss' [E F]]].
  - exists []. split; [reflexivity | constructor].
  - simpl. destruct (zoomScrollRegions_each (regions s) zAmt sAmt Hz)
      as [rs' [Er Fr]].
    rewrite Er, E. eexists. split; [reflexivity |].
    constructor; [| exact F]. split; [reflexivity | exact Fr].
Qed.

Lemma zoomScrollStrips_empty (ss : list Strip) (zAmt sAmt : float) :
  Forall (fun s => regions s = []) ss ->
  zoomScrollStrips ss zAmt sAmt = Ok ss.
Proof.
  intro H. induction H as [| s ss Hs _ IH]; [reflexivity |].
  simpl. rewrite Hs. simpl. rewrite IH. destruct s. simpl in Hs. subst.
  reflexivity.
Qed.

Lemma zoomScrollStrips_fails (ss : list Strip) (zAmt sAmt : float) :
  (zAmt <=? 0) = true -> ~ Forall (fun s => regions s = []) ss ->
  exists m, zoomScrollStrips ss zAmt sAmt = Throw m.
Proof.
  intros Hz. induction ss as [| s ss IH]; intro H.
  - exfalso. apply H. constructor.
  - simpl. destruct (regions s) as [| r rs] eqn:E.
    + simpl. destruct IH as [m Em].
      * intro K. apply H. constructor; assumption.
      * rewrite Em. eexists. reflexivity.
    + simpl. destruct (zoomScrollRegion_fails r zAmt sAmt Hz) as [m Em].
      rewrite Em. eexists. reflexivity.
Qed.

Lemma zoomScrollAllRegions_after (zAmt sAmt : float) (rm : RegionManager)
      (ss : list Strip) :
  zoomScrollStrips (strips (app rm)) zAmt sAmt = Ok ss ->
  exists rm',
    zoomScrollAllRegions zAmt sAmt rm = Ok (tt, rm') /\
    strips (app rm') = ss.
Proof.
  intro E. unfold zoomScrollAllRegions, bind, getApp, putApp. rewrite E.
  cbn [lcoords set_strips].
  destruct (lcoords (app rm)) as [lc |];
    [destruct (landmarkActive _) |]; eexists; split; reflexivity.
Qed.

(** X4.  [zoomScrollAllRegions] completes exactly when the test
    [zAmt <= 0] fails (the zoom factor is above 0, or NaN) or no strip has
    a region: the check of the zoom factor is made per region.  When it
    completes, every strip keeps its genome and every region is the result
    of [zoomScrollRegion] on it. *)
Theorem zoomScrollAllRegions_completes (zAmt sAmt : float)
        (rm : RegionManager) :
  ((exists rm', zoomScrollAllRegions zAmt sAmt rm = Ok (tt, rm'))
   <-> ((zAmt <=? 0) = false
        \/ Forall (fun s => regions s = []) (strips (app rm)))) /\
  (forall rm',
      (zAmt <=? 0) = false ->
      zoomScrollAllRegions zAmt sAmt rm = Ok (tt, rm') ->
      Forall2 (fun s s' =>
                 s_genome s' = s_genome s /\
                 Forall2 (fun r r' => zoomScrollRegion r zAmt sAmt = Ok r')
                         (regions s) (regions s'))
              (strips (app rm)) (strips (app rm'))).
Proof.
  split; [split |].
  - intros [rm' E].
    destruct (zAmt <=? 0) eqn:Hz; [right | left; reflexivity].
    assert (Dec : forall l : list Strip,
               Forall (fun s => regions s = []) l \/
               ~ Forall (fun s => regions s = []) l).
    { induction l as [| s l [IH | IH]].
      - left. constructor.
      - destruct (regions s) as [| r rs] eqn:Er.
        + left. constructor; assumption.
        + right. intro K. inversion K; subst. congruence.
      - right. intro K. inversion K; subst. apply IH. assumption. }
    destruct (Dec (strips (app rm))) as [D | D]; [exact D | exfalso].
    destruct (zoomScrollStrips_fails _ zAmt sAmt Hz D) as [m Em].
    unfold zoomScrollAllRegions, bind, getApp, throw in E.
    rewrite Em in E. discriminate.
  - intros [Hz | He].
    + destruct (zoomScrollStrips_each (strips (app rm)) zAmt sAmt Hz)
        as [ss [E _]].
      destruct (zoomScrollAllRegions_after zAmt sAmt rm ss E) as [rm' [R _]].
      exists rm'. exact R.
    + destruct (zoomScrollAllRegions_after zAmt sAmt rm _
                  (zoomScrollStrips_empty _ zAmt sAmt He)) as [rm' [R _]].
      exists rm'. exact R.
  - intros rm' Hz E.
    destruct (zoomScrollStrips_each (strips (app rm)) zAmt sAmt Hz)
      as [ss [Es F]].
    destruct (zoomScrollAllRegions_after zAmt sAmt rm ss Es) as [rm2 [R S]].
    rewrite R in E. injection E as <-. rewrite S. exact F.
Qed.

Lemma zoomScrollAllRegions_completes_witness :
  exists rm',
    zoomScrollAllRegions (-1) 0
      (Sample.rm0 [mkStrip Sample.gA []] (Sample.dm None None))
    = Ok (tt, rm').
Proof.
  apply (zoomScrollAllRegions_completes (-1) 0
           (Sample.rm0 [mkStrip Sample.gA []] (Sample.dm None None))).
  right. repeat constructor.
Defined.

(** ** NavigationTransform: the unit zoom *)

(** Zooming a region with coordinates below 2^50 in magnitude by 1 and
    scrolling it by 0 gives its coordinates back: all the numbers involved
    are integers and halves of integers that doubles hold exactly. *)
Lemma zoomScrollRegion_unit (r : Region) :
  (Z.abs (start r) < 2 ^ 50)%Z -> (Z.abs (end_ r) < 2 ^ 50)%Z ->
  zoomScrollRegion r 1 0 = Ok r.
Proof.
  intros Hs He.
  rewrite zoomScrollRegion_ok by reflexivity.
  unfold zoomScrollCoords, zoomScrollNumbers.
  rewrite !(ofZ_halves (start r)), !(ofZ_halves (end_ r)) by lia.
  change 1 with (Double.ofHalves 2).
  rewrite (sub_halves (2 * end_ r) (2 * start r)) by lia.
  rewrite (add_halves (2 * end_ r - 2 * start r) 2) by lia.
  change (Double.ofHalves 2) with 1. rewrite mul_1_l, max_same.
  change 1 with (Double.ofHalves 2).
  rewrite (add_halves (2 * start r) (2 * end_ r)) by lia.
  replace (2 * start r + 2 * end_ r)%Z with (2 * (start r + end_ r))%Z by lia.
  replace (2 * end_ r - 2 * start r + 2)%Z
    with (2 * (end_ r - start r + 1))%Z by lia.
  rewrite !div2_halves by lia.
  rewrite (sub_halves (start r + end_ r) (end_ r - start r + 1)) by lia.
  change (if reversed r then -1 else Double.ofHalves 2)
    with (if reversed r then -1 else 1).
  destruct (zero_scroll (2 * (end_ r - start r + 1)) (reversed r))
    as [sz Z0]; [lia |].
  destruct (halves_cases (start r + end_ r - (end_ r - start r + 1)))
    as [[Z1 _] | [_ [s [m [e E]]]]]; [lia | lia |].
  rewrite (add_zero_r _ _ s m e sz E Z0).
  rewrite (add_halves (start r + end_ r - (end_ r - start r + 1)) 2) by lia.
  cbn [fst snd]. rewrite floor_halves by lia.
  replace ((start r + end_ r - (end_ r - start r + 1) + 2) / 2)%Z
    with (start r).
  2:{ replace (start r + end_ r - (end_ r - start r + 1) + 2)%Z
        with (1 + start r * 2)%Z by lia.
      rewrite Z.div_add by lia. change (1 / 2)%Z with 0%Z. lia. }
  rewrite (ofZ_halves (start r)) by lia.
  rewrite (add_halves (2 * start r) (2 * (end_ r - start r + 1))) by lia.
  rewrite (sub_halves (2 * start r + 2 * (end_ r - start r + 1)) 2) by lia.
  rewrite floor_halves by lia.
  replace (2 * start r + 2 * (end_ r - start r + 1) - 2)%Z
    with (end_ r * 2)%Z by lia.
  rewrite Z.div_mul by lia. destruct r. reflexivity.
Qed.

Lemma zoomScrollRegions_unit (rs : list Region) :
  Forall (fun r => (Z.abs (start r) < 2 ^ 50)%Z /\
                   (Z.abs (end_ r) < 2 ^ 50)%Z) rs ->
  zoomScrollRegions rs 1 0 = Ok rs.
Proof.
  intro H. induction H as [| r rs [Hs He] _ IH]; [reflexivity |].
  cbn [zoomScrollRegions].
  rewrite (zoomScrollRegion_unit r Hs He), IH. reflexivity.
Qed.

Lemma zoomScrollStrips_unit (ss : list Strip) :
  Forall (fun s => Forall (fun r => (Z.abs (start r) < 2 ^ 50)%Z /\
                                    (Z.abs (end_ r) < 2 ^ 50)%Z)
                          (regions s)) ss ->
  zoomScrollStrips ss 1 0 = Ok ss.
Proof.
  intro H. induction H as [| s ss Hs _ IH]; [reflexivity |].
  cbn [zoomScrollStrips]. rewrite (zoomScrollRegions_unit _ Hs), IH.
  destruct s. reflexivity.
Qed.

(** X5.  Zooming by the factor 1 and scrolling by 0 changes nothing:
    when the coordinates of the regions and the length and the shift of
    the landmark coordinates are below 2^50 in magnitude,
    [zoomScrollAllRegions (1, 0)] leaves every region, and the length and
    the shift of an active landmark, as they were. *)
Theorem zoomScrollAllRegions_unit (rm : RegionManager) :
  Forall (fun s => Forall (fun r => (Z.abs (start r) < 2 ^ 50)%Z /\
                                    (Z.abs (end_ r) < 2 ^ 50)%Z)
                          (regions s)) (strips (app rm)) ->
  (forall lc, lcoords (app rm) = Some lc ->
              (Z.abs (lc_length lc) < 2 ^ 50)%Z /\
              (Z.abs (delta lc) < 2 ^ 50)%Z) ->
  zoomScrollAllRegions 1 0 rm = Ok (tt, rm).
Proof.
  intros Hr Hl.
  unfold zoomScrollAllRegions, bind, getApp, putApp.
  rewrite (zoomScrollStrips_unit _ Hr). cbn [lcoords set_strips].
  destruct rm as [a n fa o]. destruct a as [ss rr sl lco cs zw dmg tr].
  cbn [app strips rRegion scrollLock lcoords currentSelection zoomWidth
       dataManager translator rCount featureAlignment nextObj] in *.
  destruct lco as [lc |]; [| reflexivity].
  destruct (landmarkActive _); [| reflexivity].
  destruct (Hl lc eq_refl) as [Hlen Hdelta].
  unfold set_lcoords, set_strips.
  cbn [strips rRegion scrollLock lcoords currentSelection zoomWidth
       dataManager translator].
  assert (RL : Double.round (1 * Double.ofZ (lc_length lc)) = lc_length lc).
  { rewrite mul_1_l, ofZ_halves, round_halves by lia.
    replace (2 * lc_length lc + 1)%Z with (1 + lc_length lc * 2)%Z by lia.
    rewrite Z.div_add by lia. change (1 / 2)%Z with 0%Z. lia. }
  assert (RD : Double.round (0 * Double.ofZ (lc_length lc)
                             + Double.ofZ (delta lc)) = delta lc).
  { rewrite (ofZ_halves (lc_length lc)) by lia.
    destruct (zero_mul (2 * lc_length lc)) as [sz Z0]; [lia |].
    apply (round_zero_add _ sz (delta lc) Z0). lia. }
  rewrite RL, RD. destruct lc. reflexivity.
Qed.

Lemma zoomScrollAllRegions_unit_witness :
  let rm := Sample.rm0 [Sample.strip3 100 30 100] (Sample.dm None None) in
  zoomScrollAllRegions 1 0 rm = Ok (tt, rm).
Proof.
  intro rm. apply zoomScrollAllRegions_unit.
  - repeat constructor; cbn; lia.
  - intros lc E. injection E as <-. split; cbn; lia.
Defined.

(** ** LayoutEngine: offsets and the minimum width *)

Lemma placeRegions_abutting (rs : list Region) :
  forall (ws : list float) (dx : float),
    abutting dx (placeRegions rs ws dx regionGap).
Proof.
  induction rs as [| r rs IH]; intros ws dx; destruct ws as [| w ws];
    try exact I.
  cbn [placeRegions abutting]. split; [reflexivity |]. apply IH.
Qed.

Lemma placeRegions_lengths (rs : list Region) :
  forall (ws : list float) (dx gap : float),
    Forall (fun r => r_length r = Some (end_ r - start r + 1)%Z)
           (placeRegions rs ws dx gap).
Proof.
  induction rs as [| r rs IH]; intros ws dx gap; destruct ws as [| w ws];
    try constructor.
  - reflexivity.
  - apply IH.
Qed.

(** X6.  After [layoutStrip] the regions of the strip lie side by side:
    the first one is 12 pixels from the left and every next one begins at
    the offset of the one before it plus that region's width and the gap
    of 2; each region carries its length in bases. *)
Theorem layoutStrip_offsets (a : App) (strip : Strip)
        (totalWidth : option float) :
  abutting 12 (regions (layoutStrip a strip totalWidth)) /\
  Forall (fun r => r_length r = Some (end_ r - start r + 1)%Z)
         (regions (layoutStrip a strip totalWidth)).
Proof.
  unfold layoutStrip. cbn [regions set_regions]. split.
  - apply (placeRegions_abutting (regions strip)).
  - apply placeRegions_lengths.
Qed.

Lemma Forall2_map_In (A B : Type) (P : A -> B -> Prop) (g : A -> B)
      (l : list A) :
  (forall x, In x l -> P x (g x)) -> Forall2 P l (map g l).
Proof.
  induction l as [| x l IH]; intro H; cbn [map]; constructor.
  - apply H. left. reflexivity.
  - apply IH. intros y Hy. apply H. right. exact Hy.
Qed.

(** X8.  For a minimum that is a finite number other than 0 and a finite
    tally of the deficit, [scaleAdjust] gives every number whose scaled
    value is below the minimum exactly the minimum, also when a deficit is
    taken off the others; and when no scaled value is below the minimum,
    every number is just scaled by the width over the sum. *)
Theorem scaleAdjust_minimum (nums : list float) (w m : float) (s : bool)
        (p : positive) (e : Z) :
  Prim2SF m = S754_finite s p e ->
  finite (deficitOf (scaleFactor w nums) m nums) ->
  Forall2 (fun n out =>
             ((scaleFactor w nums * n <? m) = true -> out = m) /\
             (Forall (fun k => (scaleFactor w nums * k <? m) = false) nums ->
              out = scaleFactor w nums * n))
          nums (scaleAdjust nums w m).
Proof.
  intros Hm Hd. rewrite scaleAdjust_cases. cbv zeta.
  destruct (deficitOf (scaleFactor w nums) m nums =? 0) eqn:D.
  - apply Forall2_map_In. intros n Hn. unfold clamp. split.
    + intro K. rewrite K. reflexivity.
    + intro K. rewrite Forall_forall in K. rewrite (K n Hn). reflexivity.
  - rewrite map_map. apply Forall2_map_In. intros n Hn. unfold clamp. split.
    + intro K. rewrite K. exact (redistribute_min m _ _ s p e Hm Hd).
    + intro K. rewrite (deficitOf_none _ _ _ K) in D. discriminate D.
Qed.

(** Weights 1 and 9 in a width of 100 with minimum 25: the first scales to
    10 and comes out at 25. *)
Lemma scaleAdjust_minimum_witness :
  Forall2 (fun n out => n = 1 -> out = 25) [1; 9] (scaleAdjust [1; 9] 100 25).
Proof.
  apply Forall2_impl
    with (2 := scaleAdjust_minimum [1; 9] 100 25 false 7036874417766400 (-48)
                 eq_refl eq_refl).
  intros n out [Hmin _] En. apply Hmin. rewrite En. reflexivity.
Defined.

(** With a sum of 0 the scale is not a number and neither are the
    results. *)
Lemma scaleAdjust_no_sum : scaleAdjust [0; 0] 50 25 = [nan; nan].
Proof. vm_compute. reflexivity. Qed.

(** ** SyntenyMapper: the combined blocks *)

Lemma insertByIndex_head (b : Block) (l : list Block) :
  match l with [] => True | y :: _ => (index b <= index y)%Z end ->
  insertByIndex b l = b :: l.
Proof.
  destruct l as [| y l]; intro H; simpl; [reflexivity |].
  apply Z.leb_le in H. rewrite H. reflexivity.
Qed.

Lemma separated_sorted (l : list Block) : separated l -> sortByIndex l = l.
Proof.
  induction l as [| b t IH]; intro H; [reflexivity |].
  destruct H as [Hb Ht]. simpl. rewrite (IH Ht).
  apply insertByIndex_head. destruct t; [exact I | lia].
Qed.

Lemma separated_snoc (pre : list Block) (prev b : Block) :
  separated (pre ++ [prev]) -> (index prev + 2 <= index b)%Z ->
  separated ((pre ++ [prev]) ++ [b]).
Proof.
  induction pre as [| h t IH]; intros H Hb.
  - simpl. auto.
  - destruct H as [Hh Ht]. specialize (IH Ht Hb).
    change (((h :: t) ++ [prev]) ++ [b]) with (h :: ((t ++ [prev]) ++ [b])).
    split; [| exact IH].
    destruct t as [| h' t']; simpl in *; lia.
Qed.

Lemma separated_last (pre : list Block) (prev b : Block) :
  separated (pre ++ [prev]) -> (index prev <= index b)%Z ->
  separated (pre ++ [b]).
Proof.
  induction pre as [| h t IH]; intros H Hb.
  - simpl. auto.
  - destruct H as [Hh Ht]. specialize (IH Ht Hb).
    change ((h :: t) ++ [b]) with (h :: (t ++ [b])).
    split; [| exact IH].
    destruct t as [| h' t']; simpl in *; lia.
Qed.

Lemma combine_separated (rest pre : list Block) (prev : Block) :
  separated (pre ++ [prev]) -> sortedByIndex (prev :: rest) ->
  separated (fold_left combineStep rest (pre ++ [prev])).
Proof.
  revert pre prev. induction rest as [| b rest IH]; intros pre prev HS HO.
  - exact HS.
  - simpl fold_left. unfold combineStep at 2. rewrite lastOf_snoc.
    destruct HO as [Hb Hr].
    destruct (index prev =? index b)%Z eqn:E1.
    + apply IH; [exact HS |]. apply Z.eqb_eq in E1.
      destruct rest as [| c rest']; [simpl; auto |].
      destruct Hr as [Hc Hr]. split; [lia | exact Hr].
    + destruct (index prev + 1 =? index b)%Z eqn:E2.
      * rewrite setLast_snoc. apply IH.
        -- apply (separated_last pre prev); [exact HS | simpl; lia].
        -- destruct rest as [| c rest']; [simpl; auto |].
           destruct Hr as [Hc Hr]. split; [exact Hc | exact Hr].
      * apply Z.eqb_neq in E1. apply Z.eqb_neq in E2. apply IH.
        -- apply separated_snoc; [exact HS | lia].
        -- exact Hr.
Qed.

Lemma combine_fixed (rest pre : list Block) (prev : Block) :
  separated (prev :: rest) ->
  fold_left combineStep rest (pre ++ [prev]) = pre ++ prev :: rest.
Proof.
  revert pre prev. induction rest as [| b rest IH]; intros pre prev H.
  - reflexivity.
  - simpl fold_left. unfold combineStep at 2. rewrite lastOf_snoc.
    destruct H as [Hb Hr].
    assert (E1 : (index prev =? index b)%Z = false) by (apply Z.eqb_neq; lia).
    assert (E2 : (index prev + 1 =? index b)%Z = false)
      by (apply Z.eqb_neq; lia).
    rewrite E1, E2. rewrite (IH (pre ++ [prev]) b Hr).
    rewrite <- app_assoc. reflexivity.
Qed.

Lemma combineRegions_separated (blocks : list Block) :
  separated (combineRegions blocks).
Proof.
  unfold combineRegions.
  pose proof (sortByIndex_sorted blocks) as HO.
  destruct (sortByIndex blocks) as [| b rest]; [exact I |].
  simpl fold_left. unfold combineStep at 2. simpl lastOf.
  apply (combine_separated rest [] b); [simpl; auto | exact HO].
Qed.

(** X9.  The indices of the blocks that [combineRegions] returns increase
    by at least 2 from each block to the next, so no two of them are
    duplicates or neighbours; combining them again changes nothing, and a
    list that is already like this is returned as it is. *)
Theorem combineRegions_idempotent (blocks : list Block) :
  separated (combineRegions blocks) /\
  combineRegions (combineRegions blocks) = combineRegions blocks /\
  (separated blocks <-> combineRegions blocks = blocks).
Proof.
  assert (Fix : forall l, separated l -> combineRegions l = l).
  { intros l H. unfold combineRegions. rewrite (separated_sorted l H).
    destruct l as [| b rest]; [reflexivity |].
    simpl fold_left. unfold combineStep at 2. simpl lastOf.
    apply (combine_fixed rest [] b H). }
  split; [apply combineRegions_separated |].
  split; [apply Fix; apply combineRegions_separated |].
  split; [apply Fix |].
  intro E. rewrite <- E. apply combineRegions_separated.
Qed.

(** Blocks with the indices 0 and 2 are returned as they are. *)
Lemma combineRegions_idempotent_witness :
  let l := [mkBlock Sample.chr1 1 100 0; mkBlock Sample.chr1 301 400 2] in
  separated l /\ combineRegions l = l.
Proof.
  intro l.
  assert (H : separated l) by (simpl; lia).
  split; [exact H |].
  exact (proj1 (proj2 (proj2 (combineRegions_idempotent l))) H).
Defined.

(** ** Finding strips and regions *)

Lemma sameGenome_true (x y : Genome) : sameGenome x y = true <-> x = y.
Proof.
  unfold sameGenome. destruct (Genome_eq_dec x y); split; intro H;
    congruence.
Qed.

Lemma sameGenome_false (x y : Genome) : sameGenome x y = false <-> x <> y.
Proof.
  unfold sameGenome. destruct (Genome_eq_dec x y); split; intro H;
    congruence.
Qed.

Lemma sameRegion_true (x y : Region) : sameRegion x y = true <-> obj x = obj y.
Proof. unfold sameRegion. apply Nat.eqb_eq. Qed.

Lemma sameRegion_false (x y : Region) :
  sameRegion x y = false <-> obj x <> obj y.
Proof. unfold sameRegion. apply Nat.eqb_neq. Qed.

Lemma indexOf_absent (A : Type) (same : A -> A -> bool) (l : list A) (x : A) :
  Forall (fun h => same h x = false) l <-> indexOf same l x = (-1)%Z.
Proof.
  induction l as [| h t IH]; simpl.
  - split; [reflexivity | constructor].
  - pose proof (indexOf_range _ same t x) as R.
    destruct (same h x) eqn:E.
    + split; intro H; [inversion H; congruence | lia].
    + destruct (indexOf same t x =? -1)%Z eqn:K.
      * apply Z.eqb_eq in K. split; [reflexivity |].
        intros _. constructor; [exact E | apply IH; exact K].
      * apply Z.eqb_neq in K. split; intro H; [| lia].
        inversion H; subst. exfalso. apply K. apply IH. assumption.
Qed.

Lemma indexOf_first (A : Type) (same : A -> A -> bool) (pre post : list A)
      (y x : A) :
  Forall (fun h => same h x = false) pre -> same y x = true ->
  indexOf same (pre ++ y :: post) x = Z.of_nat (List.length pre).
Proof.
  intros Hpre Hy. induction pre as [| h t IH].
  - simpl. rewrite Hy. reflexivity.
  - inversion Hpre; subst. change ((h :: t) ++ y :: post)
      with (h :: (t ++ y :: post)).
    cbn [indexOf]. rewrite H1. rewrite (IH H2).
    destruct (Z.of_nat (List.length t) =? -1)%Z eqn:K.
    + apply Z.eqb_eq in K. lia.
    + cbn [List.length]. lia.
Qed.

Lemma indexOf_found (A : Type) (same : A -> A -> bool) (l : list A) (x : A) :
  indexOf same l x <> (-1)%Z ->
  exists pre y post,
    l = pre ++ y :: post /\
    indexOf same l x = Z.of_nat (List.length pre) /\
    Forall (fun h => same h x = false) pre /\ same y x = true.
Proof.
  induction l as [| h t IH]; simpl; [intro H; lia |].
  destruct (same h x) eqn:E.
  - intros _. exists [], h, t. repeat split; [constructor | exact E].
  - destruct (indexOf same t x =? -1)%Z eqn:K; [intro H; lia |].
    apply Z.eqb_neq in K. intros _.
    destruct (IH K) as [pre [y [post [El [Ei [Hp Hy]]]]]].
    exists (h :: pre), y, post. rewrite El at 1. rewrite Ei.
    split; [reflexivity |]. split; [cbn [List.length]; lia |].
    split; [constructor; assumption | exact Hy].
Qed.

Lemma at_In (A : Type) (l : list A) (i : Z) (x : A) :
  at_ l i = Some x -> In x l.
Proof.
  intro H. destruct (at_split _ _ _ _ H) as [pre [post [E _]]].
  subst l. apply in_or_app. right. left. reflexivity.
Qed.

Lemma removeAt_middle (A : Type) (pre post : list A) (x : A) :
  removeAt (pre ++ x :: post) (List.length pre) = pre ++ post.
Proof.
  unfold removeAt.
  rewrite firstn_app, Nat.sub_diag, firstn_all. simpl firstn.
  rewrite app_nil_r.
  replace (S (List.length pre)) with (List.length (pre ++ [x]))
    by (rewrite length_app; simpl; lia).
  replace (pre ++ x :: post) with ((pre ++ [x]) ++ post)
    by (rewrite <- app_assoc; reflexivity).
  rewrite skipn_app, Nat.sub_diag, skipn_all. reflexivity.
Qed.

Lemma insertAt_middle (A : Type) (pre post : list A) (x : A) :
  insertAt (pre ++ post) (List.length pre) x = pre ++ x :: post.
Proof.
  unfold insertAt.
  rewrite firstn_app, Nat.sub_diag, firstn_all. simpl firstn.
  rewrite app_nil_r.
  rewrite skipn_app, Nat.sub_diag, skipn_all. reflexivity.
Qed.

(** A region object that no strip holds is not found. *)
Lemma findRegion_absent (a : App) (r : Region) :
  Forall (fun s => Forall (fun x => obj x <> obj r) (regions s)) (strips a) ->
  snd (findRegion a r) = (-1)%Z.
Proof.
  intro H. unfold findRegion. cbn [snd].
  destruct (findStrip a (genome r) =? -1)%Z; [reflexivity |].
  destruct (at_ (strips a) (findStrip a (genome r))) as [s |] eqn:E;
    [| reflexivity].
  apply at_In in E. rewrite Forall_forall in H. specialize (H s E).
  apply indexOf_absent. apply Forall_impl with (2 := H).
  intros x Hx. apply sameRegion_false. exact Hx.
Qed.

(** The strip and the position that [findRegion] returns for a region it
    finds: the first strip of the region's genome, and the first position
    in it that holds the region object. *)
Lemma findRegion_position (a : App) (r : Region) (si ri : Z) :
  findRegion a r = (si, ri) -> ri <> (-1)%Z ->
  exists pre s post before r0 after,
    strips a = pre ++ s :: post /\ si = Z.of_nat (List.length pre) /\
    Forall (fun t => s_genome t <> genome r) pre /\ s_genome s = genome r /\
    regions s = before ++ r0 :: after /\
    ri = Z.of_nat (List.length before) /\
    Forall (fun x => obj x <> obj r) before /\ obj r0 = obj r.
Proof.
  unfold findRegion. intros H Hr. injection H as Hs Hj. rewrite Hs in Hj.
  destruct (si =? -1)%Z eqn:E; [congruence |]. apply Z.eqb_neq in E.
  unfold findStrip in Hs.
  assert (E' : indexOf sameGenome (map s_genome (strips a)) (genome r)
               <> (-1)%Z) by congruence.
  destruct (indexOf_found _ sameGenome _ _ E')
    as [gpre [g [gpost [El [Ei [Hp Hg]]]]]].
  apply map_eq_app in El. destruct El as [pre [rest [El [Epre Erest]]]].
  apply map_eq_cons in Erest. destruct Erest as [s [post [Er [Eg Epost]]]].
  subst rest. rewrite El in Hj.
  assert (Esi : si = Z.of_nat (List.length pre)).
  { rewrite <- Hs, Ei, <- Epre, length_map. reflexivity. }
  rewrite Esi, at_middle in Hj.
  assert (Hj' : indexOf sameRegion (regions s) r <> (-1)%Z) by congruence.
  destruct (indexOf_found _ sameRegion _ _ Hj')
    as [before [r0 [after [Erl [Eri [Hb H0]]]]]].
  exists pre, s, post, before, r0, after.
  split; [exact El |]. split; [exact Esi |].
  split.
  { rewrite <- Epre in Hp. rewrite Forall_map in Hp.
    apply Forall_impl with (2 := Hp). intros t Ht.
    apply sameGenome_false. exact Ht. }
  split; [rewrite Eg; apply sameGenome_true; exact Hg |].
  split; [exact Erl |]. split; [congruence |].
  split; [| apply sameRegion_true; exact H0].
  apply Forall_impl with (2 := Hb). intros x Hx.
  apply sameRegion_false. exact Hx.
Qed.

(** X10.  For a region object that no strip of the view holds,
    [moveBorder], [swap], [splitRegion] and [removeRegion] complete and
    leave the whole state as it was: no layout is run, no id is used up. *)
Theorem stale_region_ignored (rm : RegionManager) (r : Region) (amt frac : float) :
  Forall (fun s => Forall (fun x => obj x <> obj r) (regions s))
         (strips (app rm)) ->
  moveBorder r amt rm = Ok (tt, rm) /\
  swap r rm = Ok (tt, rm) /\
  splitRegion r frac rm = Ok (tt, rm) /\
  removeRegion r rm = Ok (tt, rm).
Proof.
  intro H. apply findRegion_absent in H.
  unfold moveBorder, swap, splitRegion, removeRegion, bind, getApp.
  destruct (findRegion (app rm) r) as [si ri]. cbn [snd] in H. subst ri.
  change ((-1 =? -1)%Z) with true. cbv iota.
  repeat split.
Qed.

(** A strip of genome A holds the objects 1, 2 and 3; the object 9 is in
    no strip. *)
Lemma stale_region_ignored_witness :
  let rm := Sample.rm0 [Sample.strip3 100 200 300] (Sample.dm None None) in
  let r := Sample.region 9 1 100 50 in
  Forall (fun s => Forall (fun x => obj x <> obj r) (regions s))
         (strips (app rm)) /\
  moveBorder r 10 rm = Ok (tt, rm) /\
  swap r rm = Ok (tt, rm) /\
  splitRegion r 0.5 rm = Ok (tt, rm) /\
  removeRegion r rm = Ok (tt, rm).
Proof.
  intros rm r.
  assert (H : Forall (fun s => Forall (fun x => obj x <> obj r) (regions s))
                     (strips (app rm))).
  { repeat constructor; simpl; lia. }
  split; [exact H |].
  exact (stale_region_ignored rm r 10 0.5 H).
Defined.

Lemma indexOf_existsb (A : Type) (same : A -> A -> bool) (l : list A) (x : A) :
  negb (indexOf same l x =? -1)%Z = existsb (fun h => same h x) l.
Proof.
  induction l as [| h t IH]; [reflexivity |].
  cbn [indexOf existsb]. destruct (same h x); [reflexivity |].
  rewrite <- IH. cbn [orb].
  destruct (indexOf same t x =? -1)%Z eqn:K; [reflexivity |].
  apply Z.eqb_neq in K. pose proof (indexOf_range _ same t x) as R.
  destruct (indexOf same t x + 1 =? -1)%Z eqn:K2; [| reflexivity].
  apply Z.eqb_eq in K2. lia.
Qed.

Lemma findStrip_first (a : App) (g : Genome) (pre post : list Strip)
      (s : Strip) :
  strips a = pre ++ s :: post ->
  Forall (fun t => s_genome t <> g) pre -> s_genome s = g ->
  findStrip a g = Z.of_nat (List.length pre).
Proof.
  intros E Hp Hs. unfold findStrip. rewrite E, map_app. cbn [map].
  rewrite <- (length_map s_genome pre). apply indexOf_first.
  - rewrite Forall_map. apply Forall_impl with (2 := Hp).
    intros t Ht. apply sameGenome_false. exact Ht.
  - apply sameGenome_true. exact Hs.
Qed.

Lemma findRegion_located (a : App) (r : Region) (pre : list Strip) (s : Strip)
      (post : list Strip) (before : list Region) (r0 : Region)
      (after : list Region) :
  located a r pre s post before r0 after ->
  findRegion a r = (Z.of_nat (List.length pre),
                    Z.of_nat (List.length before)).
Proof.
  intros [E [Hp [Hs [Er [Hb H0]]]]]. unfold findRegion.
  rewrite (findStrip_first a (genome r) pre post s E Hp Hs).
  destruct (Z.of_nat (List.length pre) =? -1)%Z eqn:K;
    [apply Z.eqb_eq in K; lia |].
  rewrite E, at_middle, Er. f_equal. apply indexOf_first.
  - apply Forall_impl with (2 := Hb). intros x Hx.
    apply sameRegion_false. exact Hx.
  - apply sameRegion_true. exact H0.
Qed.

Lemma deleteStrip_present (g : Genome) (rm : RegionManager)
      (pre post : list Strip) (s : Strip) :
  strips (app rm) = pre ++ s :: post ->
  Forall (fun t => s_genome t <> g) pre -> s_genome s = g ->
  deleteStrip g rm
  = Ok (tt, mkRegionManager
              (set_strips
                 (match rRegion (app rm) with
                  | Some rr => if holds s rr then set_rRegion (app rm) None
                               else app rm
                  | None => app rm
                  end) (pre ++ post))
              (rCount rm) (featureAlignment rm) (nextObj rm)).
Proof.
  intros E Hp Hs. unfold deleteStrip, bind, getApp.
  rewrite (findStrip_first (app rm) g pre post s E Hp Hs).
  destruct (0 <=? Z.of_nat (List.length pre))%Z eqn:K;
    [| apply Z.leb_gt in K; lia].
  assert (A : at_ (strips (app rm)) (Z.of_nat (List.length pre)) = Some s)
    by (rewrite E; apply at_middle).
  rewrite A, Nat2Z.id. unfold putApp, holds.
  destruct (rRegion (app rm)) as [rr |].
  - rewrite indexOf_existsb.
    destruct (existsb (fun x => sameRegion x rr) (regions s));
      cbn [set_rRegion strips]; rewrite E, removeAt_middle; reflexivity.
  - rewrite E, removeAt_middle. reflexivity.
Qed.

(** X11.  [deleteStrip] always completes.  When no strip is of genome
    [g] the state is unchanged.  Otherwise exactly the first strip of
    genome [g] is taken out, the other strips keep their order, and the
    reference region is cleared exactly when that strip holds the
    reference region object; scroll lock, landmark coordinates and the id
    counter are unchanged. *)
Theorem deleteStrip_removes (g : Genome) (rm : RegionManager) :
  (Forall (fun t => s_genome t <> g) (strips (app rm)) ->
   deleteStrip g rm = Ok (tt, rm)) /\
  (forall (pre post : list Strip) (s : Strip),
      strips (app rm) = pre ++ s :: post ->
      Forall (fun t => s_genome t <> g) pre -> s_genome s = g ->
      exists rm',
        deleteStrip g rm = Ok (tt, rm') /\
        strips (app rm') = pre ++ post /\
        rRegion (app rm')
        = match rRegion (app rm) with
          | Some rr => if holds s rr then None else Some rr
          | None => None
          end /\
        scrollLock (app rm') = scrollLock (app rm) /\
        lcoords (app rm') = lcoords (app rm) /\
        rCount rm' = rCount rm).
Proof.
  split.
  - intro H. unfold deleteStrip, bind, getApp, findStrip.
    assert (E : indexOf sameGenome (map s_genome (strips (app rm))) g
                = (-1)%Z).
    { apply indexOf_absent. rewrite Forall_map.
      apply Forall_impl with (2 := H). intros t Ht.
      apply sameGenome_false. exact Ht. }
    rewrite E. reflexivity.
  - intros pre post s E Hp Hs. eexists.
    split; [apply (deleteStrip_present g rm pre post s E Hp Hs) |].
    cbn [app rCount]. destruct (rRegion (app rm)) as [rr |] eqn:R.
    + destruct (holds s rr); cbn; rewrite ?R; repeat split.
    + cbn. rewrite R. repeat split.
Qed.

(** Strips of the genomes A and B; the strip of B holds the reference
    region and is deleted. *)
Lemma deleteStrip_removes_witness :
  let rB := mkRegion 7 Sample.gB Sample.chr1 1 100 50 0 false (Some 7%nat)
                     None in
  let sA := Sample.strip3 100 200 300 in
  let sB := mkStrip Sample.gB [rB] in
  let rm := mkRegionManager
              (mkApp [sA; sB] (Some rB) false None [] 1000
                     (Sample.dm None None) Sample.noTranslation)
              100 None 100 in
  exists rm',
    deleteStrip Sample.gB rm = Ok (tt, rm') /\
    strips (app rm') = [sA] /\ rRegion (app rm') = None.
Proof.
  intros rB sA sB rm.
  destruct (proj2 (deleteStrip_removes Sample.gB rm) [sA] [] sB)
    as [rm' [E [S [R _]]]].
  - reflexivity.
  - repeat constructor. discriminate.
  - reflexivity.
  - exists rm'. split; [exact E |]. split; [exact S | exact R].
Defined.

(** ** Operations on a region that is found *)

Lemma layout_in_place (rm : RegionManager) :
  layout None None rm
  = Ok (layoutStrips (app rm) (strips (app rm)) None,
        mkRegionManager
          (set_strips (app rm) (layoutStrips (app rm) (strips (app rm)) None))
          (rCount rm) (featureAlignment rm) (nextObj rm)).
Proof. reflexivity. Qed.

(** The layout reads nothing of the application but the width of the
    view. *)
Lemma layoutStrips_app (a a' : App) (ss : list Strip) (tw : option float) :
  zoomWidth a = zoomWidth a' -> layoutStrips a ss tw = layoutStrips a' ss tw.
Proof.
  intro E. unfold layoutStrips. apply map_ext. intro s.
  unfold layoutStrip. rewrite E. reflexivity.
Qed.

Lemma layoutStrips_nonempty (a : App) (ss : list Strip) (tw : option float) :
  Forall (fun s => regions s <> []) ss ->
  Forall (fun s => regions s <> []) (layoutStrips a ss tw).
Proof.
  intro H. unfold layoutStrips. rewrite Forall_map.
  apply Forall_impl with (2 := H). intros s Hs E.
  pose proof (layoutStrip_coords a s tw) as C. rewrite E in C.
  destruct (regions s); [apply Hs; reflexivity | discriminate].
Qed.

Lemma located_at (a : App) (r : Region) (pre : list Strip) (s : Strip)
      (post : list Strip) (before : list Region) (r0 : Region)
      (after : list Region) :
  located a r pre s post before r0 after ->
  at_ (strips a) (Z.of_nat (List.length pre)) = Some s /\
  at_ (regions s) (Z.of_nat (List.length before)) = Some r0.
Proof.
  intros [E [_ [_ [Er _]]]]. rewrite E, Er. split; apply at_middle.
Qed.

Lemma neq_minus_one (n : nat) : (Z.of_nat n =? -1)%Z = false.
Proof. apply Z.eqb_neq. lia. Qed.

Lemma removeRegion_located (rm : RegionManager) (r : Region)
      (pre : list Strip) (s : Strip) (post : list Strip)
      (before : list Region) (r0 : Region) (after : list Region) :
  located (app rm) r pre s post before r0 after ->
  exists rm',
    removeRegion r rm = Ok (tt, rm') /\
    strips (app rm')
    = layoutStrips (app rm)
                   (match before ++ after with
                    | [] => pre ++ post
                    | rest => pre ++ set_regions s rest :: post
                    end) None /\
    rRegion (app rm')
    = match before ++ after, rRegion (app rm) with
      | [], Some rr => if sameRegion r0 rr then None else Some rr
      | _, o => o
      end /\
    rCount rm' = rCount rm.
Proof.
  intro H. pose proof (findRegion_located _ _ _ _ _ _ _ _ H) as F.
  destruct (located_at _ _ _ _ _ _ _ _ H) as [As Ar].
  destruct H as [E [Hp [Hs [Er [Hb H0]]]]].
  unfold removeRegion, bind, getApp. rewrite F, neq_minus_one, As.
  destruct (Z.of_nat (List.length (regions s)) =? 1)%Z eqn:K.
  - apply Z.eqb_eq in K. rewrite Er, length_app in K. cbn [List.length] in K.
    assert (Eb : before = []) by (destruct before; [reflexivity |
                                                    cbn [List.length] in K; lia]).
    assert (Ea : after = []) by (destruct after; [reflexivity |
                                                  cbn [List.length] in K; lia]).
    subst before after. cbn [app].
    rewrite (deleteStrip_present (s_genome s) rm pre post s E);
      [| rewrite Hs; exact Hp | reflexivity].
    rewrite layout_in_place. unfold ret. eexists. split; [reflexivity |].
    cbn [app rCount List.app]. unfold holds.
    destruct (rRegion (app rm)) as [rr |] eqn:R.
    + rewrite Er. cbn [existsb List.app]. rewrite Bool.orb_false_r.
      destruct (sameRegion r0 rr); cbn; rewrite ?R; repeat split;
        apply layoutStrips_app; reflexivity.
    + cbn. rewrite R. repeat split.
  - apply Z.eqb_neq in K. rewrite Er, length_app in K. cbn [List.length] in K.
    unfold putApp. rewrite layout_in_place. unfold ret.
    eexists. split; [reflexivity |].
    cbn [app rCount set_strips strips rRegion].
    rewrite Nat2Z.id, Er, removeAt_middle, E, setAt_middle.
    destruct (before ++ after) as [| x rest] eqn:B.
    + apply app_eq_nil in B. destruct B; subst. cbn [List.length] in K. lia.
    + repeat split.
Qed.

(** X12.  [removeRegion] on a region that is found takes exactly that
    region out of its strip and lays all strips out again; when it is the
    only region of its strip, the strip itself is taken out, and only
    then is the reference region cleared if it is the region removed.  If
    no strip was empty before, none is empty afterwards. *)
Theorem removeRegion_removes (rm : RegionManager) (r : Region) :
  (forall (pre : list Strip) (s : Strip) (post : list Strip)
          (before : list Region) (r0 : Region) (after : list Region),
      located (app rm) r pre s post before r0 after ->
      exists rm',
        removeRegion r rm = Ok (tt, rm') /\
        strips (app rm')
        = layoutStrips (app rm)
                       (match before ++ after with
                        | [] => pre ++ post
                        | rest => pre ++ set_regions s rest :: post
                        end) None /\
        rRegion (app rm')
        = match before ++ after, rRegion (app rm) with
          | [], Some rr => if sameRegion r0 rr then None else Some rr
          | _, o => o
          end /\
        rCount rm' = rCount rm) /\
  (Forall (fun s => regions s <> []) (strips (app rm)) ->
   exists rm',
     removeRegion r rm = Ok (tt, rm') /\
     Forall (fun s => regions s <> []) (strips (app rm'))).
Proof.
  split; [apply removeRegion_located |].
  intro N. destruct (findRegion (app rm) r) as [si ri] eqn:F.
  destruct (Z.eq_dec ri (-1)) as [Hr | Hr].
  - exists rm. split; [| exact N].
    unfold removeRegion, bind, getApp. rewrite F. subst ri. reflexivity.
  - destruct (findRegion_position _ _ _ _ F Hr)
      as [pre [s [post [before [r0 [after [E [_ [Hp [Hs [Er [_ [Hb H0]]]]]]]]]]]]].
    assert (L : located (app rm) r pre s post before r0 after)
      by exact (conj E (conj Hp (conj Hs (conj Er (conj Hb H0))))).
    destruct (removeRegion_located rm r pre s post before r0 after L)
      as [rm' [R [S _]]].
    exists rm'. split; [exact R |]. rewrite S.
    apply layoutStrips_nonempty. rewrite E in N.
    apply Forall_app in N. destruct N as [Npre Npost].
    inversion Npost as [| ? ? Ns Npost']; subst.
    destruct (before ++ after) as [| x rest].
    + apply Forall_app. split; assumption.
    + apply Forall_app. split; [assumption |].
      constructor; [discriminate | assumption].
Qed.

(** A strip of genome A holds the objects 1, 2 and 3 and object 2 is the
    reference region; removing it leaves the objects 1 and 3 and the
    reference region still set. *)
Lemma removeRegion_removes_witness :
  let r := Sample.region 2 2001 3000 200 in
  let rm := mkRegionManager
              (mkApp [Sample.strip3 100 200 300] (Some r) false None [] 1000
                     (Sample.dm None None) Sample.noTranslation)
              100 None 100 in
  exists rm',
    removeRegion r rm = Ok (tt, rm') /\
    map (fun s => map obj (regions s)) (strips (app rm')) = [[1; 3]%nat] /\
    rRegion (app rm') = Some r.
Proof.
  intros r rm.
  destruct (proj1 (removeRegion_removes rm r) [] (Sample.strip3 100 200 300)
                  [] [Sample.region 1 1 1000 100] r
                  [Sample.region 3 4001 5000 300])
    as [rm' [E [S [R _]]]].
  - unfold located. repeat split.
    + constructor.
    + repeat constructor. simpl. lia.
  - exists rm'. split; [exact E |]. split; [| exact R].
    rewrite S. reflexivity.
Defined.

Lemma insertAt_after (A : Type) (before after : list A) (x : A) :
  insertAt (before ++ after) (List.length before + 1) x
  = match after with
    | [] => before ++ [x]
    | n :: rest => before ++ n :: x :: rest
    end.
Proof.
  destruct after as [| n rest].
  - unfold insertAt. rewrite app_nil_r.
    rewrite firstn_all2 by lia. rewrite skipn_all2 by lia. reflexivity.
  - replace (before ++ n :: rest) with ((before ++ [n]) ++ rest)
      by (rewrite <- app_assoc; reflexivity).
    replace (List.length before + 1)%nat with (List.length (before ++ [n]))
      by (rewrite length_app; reflexivity).
    rewrite insertAt_middle. rewrite <- app_assoc. reflexivity.
Qed.

Lemma insertAt_next (A : Type) (before after : list A) (x x' y : A) :
  insertAt (setAt (before ++ x :: after) (Z.of_nat (List.length before)) x')
           (List.length before + 1) y
  = before ++ x' :: y :: after.
Proof.
  rewrite setAt_middle.
  replace (before ++ x' :: after) with ((before ++ [x']) ++ after)
    by (rewrite <- app_assoc; reflexivity).
  replace (List.length before + 1)%nat with (List.length (before ++ [x']))
    by (rewrite length_app; reflexivity).
  rewrite insertAt_middle, <- app_assoc. reflexivity.
Qed.

(** X13.  [swap] on a region that is found exchanges it with its
    right-hand neighbour in the strip and lays all strips out again; the
    last region of a strip stays where it is.  No other strip changes its
    regions, and no region is added or lost. *)
Theorem swap_exchanges (rm : RegionManager) (r : Region)
        (pre : list Strip) (s : Strip) (post : list Strip)
        (before : list Region) (r0 : Region) (after : list Region) :
  located (app rm) r pre s post before r0 after ->
  exists rm',
    swap r rm = Ok (tt, rm') /\
    strips (app rm')
    = layoutStrips (app rm)
        (pre ++ set_regions s
                  (match after with
                   | [] => before ++ [r0]
                   | n :: rest => before ++ n :: r0 :: rest
                   end) :: post) None /\
    rCount rm' = rCount rm.
Proof.
  intro H. pose proof (findRegion_located _ _ _ _ _ _ _ _ H) as F.
  destruct (located_at _ _ _ _ _ _ _ _ H) as [As Ar].
  destruct H as [E [Hp [Hs [Er [Hb H0]]]]].
  unfold swap, bind, getApp. rewrite F, neq_minus_one, As, Ar.
  unfold putApp. rewrite layout_in_place. unfold ret.
  eexists. split; [reflexivity |].
  cbn [app rCount set_strips strips].
  rewrite Nat2Z.id, Er, removeAt_middle, insertAt_after, E, setAt_middle.
  split; reflexivity.
Qed.

(** A strip of genome A holds the objects 1, 2 and 3, in this order;
    swapping object 2 gives the order 1, 3, 2. *)
Lemma swap_exchanges_witness :
  let r := Sample.region 2 2001 3000 200 in
  let rm := Sample.rm0 [Sample.strip3 100 200 300] (Sample.dm None None) in
  exists rm',
    swap r rm = Ok (tt, rm') /\
    map (fun s => map obj (regions s)) (strips (app rm')) = [[1; 3; 2]%nat].
Proof.
  intros r rm.
  destruct (swap_exchanges rm r [] (Sample.strip3 100 200 300) []
                           [Sample.region 1 1 1000 100] r
                           [Sample.region 3 4001 5000 300])
    as [rm' [E [S _]]].
  - unfold located. repeat split.
    + constructor.
    + repeat constructor. simpl. lia.
  - exists rm'. split; [exact E |]. rewrite S. reflexivity.
Defined.

(** X14.  [splitRegion] on a region that is found puts two pieces in its
    place, the second one a new object with the next id, and lays all
    strips out again.  The pieces keep the genome, the chromosome and the
    orientation; before the layout the first has [frac] times the width of
    the region and the second [1 - frac] times that width.  Their lengths
    add up to the length of the region, the first piece being as long as
    the floor of the double [frac * length], a finite number; they cover
    the range of the region side by side, the first piece on the low
    coordinates for a forward region and on the high coordinates for a
    reversed one. *)
Theorem splitRegion_tiles (rm : RegionManager) (r : Region) (frac : float)
        (pre : list Strip) (s : Strip) (post : list Strip)
        (before : list Region) (r0 : Region) (after : list Region) :
  located (app rm) r pre s post before r0 after ->
  finite (frac * (Double.ofZ (end_ r0) - Double.ofZ (start r0) + 1)) ->
  exists rm' ra rb,
    splitRegion r frac rm = Ok (tt, rm') /\
    strips (app rm')
    = layoutStrips (app rm)
        (pre ++ set_regions s (before ++ ra :: rb :: after) :: post) None /\
    obj ra = obj r0 /\ id ra = id r0 /\
    obj rb = nextObj rm /\ id rb = Some (rCount rm) /\
    rCount rm' = S (rCount rm) /\
    (genome ra, chr ra, reversed ra) = (genome r0, chr r0, reversed r0) /\
    (genome rb, chr rb, reversed rb) = (genome r0, chr r0, reversed r0) /\
    width ra = frac * width r0 /\ width rb = (1 - frac) * width r0 /\
    ((end_ ra - start ra + 1) + (end_ rb - start rb + 1)
     = end_ r0 - start r0 + 1)%Z /\
    (end_ ra - start ra + 1)%Z
    = Double.floor (frac * (Double.ofZ (end_ r0) - Double.ofZ (start r0)
                            + 1)) /\
    (if reversed r0
     then start rb = start r0 /\ (end_ rb + 1)%Z = start ra /\
          end_ ra = end_ r0
     else start ra = start r0 /\ (end_ ra + 1)%Z = start rb /\
          end_ rb = end_ r0).
Proof.
  intros H _. pose proof (findRegion_located _ _ _ _ _ _ _ _ H) as F.
  destruct (located_at _ _ _ _ _ _ _ _ H) as [As Ar].
  destruct H as [E [Hp [Hs [Er [Hb H0]]]]].
  unfold splitRegion, bind, getApp. rewrite F, neq_minus_one, As, Ar.
  unfold makeRegion, bind, newObj, nextCount, ret. cbn [app rCount nextObj].
  unfold splitPieces.
  remember (Double.floor (frac * (Double.ofZ (end_ r0)
                                  - Double.ofZ (start r0) + 1))) as ll
    eqn:Ell.
  destruct (reversed r0) eqn:Rv;
    unfold putApp; rewrite layout_in_place; unfold ret;
    (eexists; eexists; eexists; split; [reflexivity |]);
    cbn [app rCount set_strips strips];
    rewrite Nat2Z.id, Er, insertAt_next, E, setAt_middle;
    (split; [apply layoutStrips_app; reflexivity |]);
    cbn [obj id genome chr reversed width start end_ set_width set_start
         set_end fieldsOf orDefault i_genome i_chr i_start i_end i_width
         i_deltaX i_reversed i_length];
    rewrite ?Rv; repeat split; try lia.
Qed.

(** The middle region of a strip, 2001..3000, is split at a quarter: the
    pieces are 2001..2250, the old object, and 2251..3000, a new one. *)
Lemma splitRegion_tiles_witness :
  let r := Sample.region 2 2001 3000 200 in
  let rm := Sample.rm0 [Sample.strip3 100 200 300] (Sample.dm None None) in
  exists rm',
    splitRegion r 0.25 rm = Ok (tt, rm') /\
    map (fun s => map coords (regions s)) (strips (app rm'))
    = [[coords (Sample.region 1 1 1000 100);
        (2%nat, Sample.gA, Sample.chr1, 2001%Z, 2250%Z);
        (100%nat, Sample.gA, Sample.chr1, 2251%Z, 3000%Z);
        coords (Sample.region 3 4001 5000 300)]].
Proof.
  intros r rm.
  destruct (splitRegion_tiles rm r 0.25 [] (Sample.strip3 100 200 300) []
                              [Sample.region 1 1 1000 100] r
                              [Sample.region 3 4001 5000 300])
    as [rm' [ra [rb [E [S [Oa [_ [Ob [_ [_ [Ga [Gb [_ [_ [_ [La P]]]]]]]]]]]]]]]].
  - unfold located. repeat split.
    + constructor.
    + repeat constructor. simpl. lia.
  - reflexivity.
  - exists rm'. split; [exact E |]. rewrite S, layoutStrips_coords.
    assert (F : Double.floor (0.25 * (Double.ofZ (end_ r)
                                      - Double.ofZ (start r) + 1))
                = 250%Z) by reflexivity.
    rewrite F in La. cbn [reversed r Sample.region] in P.
    destruct P as [Sa [Ab Eb]].
    injection Ga as Ga1 Ga2 _. injection Gb as Gb1 Gb2 _.
    cbn [map List.app regions set_regions]. unfold coords at 2 3.
    rewrite Oa, Ob, Ga1, Ga2, Gb1, Gb2.
    change (start r) with 2001%Z in Sa. change (end_ r) with 3000%Z in Eb.
    replace (start rb) with 2251%Z by lia.
    replace (end_ ra) with 2250%Z by lia.
    rewrite Sa, Eb. reflexivity.
Defined.

(** ** RegionModel: the ids of new regions *)

Lemma mapM_makeRegion (A : Type) (f : A -> RegionInit) (l : list A) :
  forall rm : RegionManager,
  exists rs rm',
    mapM (fun x => makeRegion (f x)) l rm = Ok (rs, rm') /\
    app rm' = app rm /\ featureAlignment rm' = featureAlignment rm /\
    rCount rm' = (rCount rm + List.length l)%nat /\
    nextObj rm' = (nextObj rm + List.length l)%nat /\
    map id rs = map Some (seq (rCount rm) (List.length l)) /\
    map obj rs = seq (nextObj rm) (List.length l) /\
    Forall2 (fun x r =>
               genome r = i_genome (f x) /\ chr r = i_chr (f x) /\
               start r = i_start (f x) /\ end_ r = i_end (f x) /\
               width r = orDefault (i_width (f x)) 1 /\
               deltaX r = orDefault (i_deltaX (f x)) 0 /\
               reversed r = orDefault (i_reversed (f x)) false) l rs.
Proof.
  induction l as [| x t IH]; intro rm.
  - exists [], rm. cbn [mapM List.length seq map]. unfold ret.
    rewrite !Nat.add_0_r. repeat split. constructor.
  - cbn [mapM]. unfold bind at 1. unfold makeRegion at 1.
    unfold bind, newObj, nextCount, ret. cbn [app rCount nextObj
                                                  featureAlignment].
    match goal with
    | |- context [mapM _ t ?rm1] =>
        destruct (IH rm1) as [rs [rm' [E [Ha [Hf [Hc [Ho [Hi [Hb HF]]]]]]]]];
        rewrite E
    end.
    cbn [app rCount nextObj featureAlignment] in Ha, Hf, Hc, Ho, Hi, Hb.
    eexists. exists rm'. split; [reflexivity |].
    cbn [List.length seq map id obj].
    rewrite Hi, Hb. repeat split; try assumption; try lia.
    constructor; [repeat split | exact HF].
Qed.

(** X15.  Regions made one after the other get the ids [rCount],
    [rCount + 1], ...: no two of them share an id, and the counter ends up
    advanced by their number.  Each keeps the genome, chromosome, start and
    end it was given and gets width 1, offset 0 and forward orientation
    where these are absent; the application state is not touched. *)
Theorem makeRegion_ids (inits : list RegionInit) (rm : RegionManager) :
  exists rs rm',
    mapM makeRegion inits rm = Ok (rs, rm') /\
    map id rs = map Some (seq (rCount rm) (List.length inits)) /\
    NoDup (map id rs) /\
    rCount rm' = (rCount rm + List.length inits)%nat /\
    app rm' = app rm /\
    Forall2 (fun i r =>
               genome r = i_genome i /\ chr r = i_chr i /\
               start r = i_start i /\ end_ r = i_end i /\
               width r = orDefault (i_width i) 1 /\
               deltaX r = orDefault (i_deltaX i) 0 /\
               reversed r = orDefault (i_reversed i) false) inits rs.
Proof.
  destruct (mapM_makeRegion RegionInit (fun i => i) inits rm)
    as [rs [rm' [E [Ha [_ [Hc [_ [Hi [_ HF]]]]]]]]].
  exists rs, rm'. split.
  { rewrite <- E. clear. generalize rm. induction inits as [| i t IH];
      [reflexivity |].
    intro rm0. cbn [mapM]. unfold bind at 1 3.
    destruct (makeRegion i rm0) as [[r rm1] |]; [| reflexivity].
    unfold bind. rewrite (IH rm1). reflexivity. }
  split; [exact Hi |]. split; [| auto].
  rewrite Hi. apply Finite.Injective_map_NoDup; [| apply seq_NoDup].
  intros x y H. injection H as H. exact H.
Qed.

(** ** LandmarkAligner: the windows around the copies of a landmark *)

(** X16.  When the landmark has copies in the genome,
    [computeLandmarkRegion] completes with a strip of that genome that has
    one region per copy, in the order of the copies, on the chromosome of
    the copy; every region is exactly [length] bases long and starts at the
    rounded anchor position minus half the length, a finite number,
    shifted by [delta].  The regions get the next ids and the application
    state is not touched. *)
Theorem computeLandmarkRegion_windows (lc : LCoords) (g : Genome)
        (rm : RegionManager) :
  present (getGenologs (dataManager (app rm)) (landmark lc) [g]) <> [] ->
  Forall (fun lm => finite (anchorPos lc (featureAlignment rm) lm
                            - Double.ofZ (lc_length lc) / 2))
         (present (getGenologs (dataManager (app rm)) (landmark lc) [g])) ->
  exists rs rm',
    computeLandmarkRegion lc g rm = Ok (Some (mkStrip g rs), rm') /\
    app rm' = app rm /\
    map id rs
    = map Some
          (seq (rCount rm)
               (List.length
                  (present (getGenologs (dataManager (app rm)) (landmark lc)
                                        [g])))) /\
    Forall2 (fun lm r =>
               genome r = g /\ chr r = f_chr lm /\
               start r
               = (Double.round (anchorPos lc (featureAlignment rm) lm
                                - Double.ofZ (lc_length lc) / 2)
                  + delta lc)%Z /\
               (end_ r - start r + 1)%Z = lc_length lc)
            (present (getGenologs (dataManager (app rm)) (landmark lc) [g]))
            rs.
Proof.
  intros H _. unfold computeLandmarkRegion, bind at 1, getApp.
  destruct (present (getGenologs (dataManager (app rm)) (landmark lc) [g]))
    as [| lm lms] eqn:E; [congruence |].
  change (Z.of_nat (List.length (lm :: lms)) =? 0)%Z with false. cbv iota.
  destruct (mapM_makeRegion Feature
              (fun lm => coordsOnly g (f_chr lm)
                           (Double.round
                              (anchorPos lc (featureAlignment rm) lm
                               - Double.ofZ (lc_length lc) / 2)
                            + delta lc)
                           (Double.round
                              (anchorPos lc (featureAlignment rm) lm
                               - Double.ofZ (lc_length lc) / 2)
                            + delta lc + lc_length lc - 1))
              (lm :: lms) rm)
    as [rs [rm' [M [Ha [_ [_ [_ [Hi [_ HF]]]]]]]]].
  exists rs, rm'. unfold bind. rewrite M. unfold ret.
  split; [reflexivity |]. split; [exact Ha |]. split; [exact Hi |].
  apply Forall2_impl with (2 := HF).
  intros x r [Hg [Hc [Hs [He _]]]]. cbn in Hg, Hc, Hs, He.
  repeat split; try assumption. lia.
Qed.

(** The landmark LM has one copy in genome A, at 300..400 on the forward
    strand; the window of length 1000 starts at 300 - 500. *)
Lemma computeLandmarkRegion_windows_witness :
  let rm := Sample.rm0 [] (mkDataManager
                             (fun _ _ => None)
                             (fun _ gs => map (fun _ => Some Sample.lm) gs)
                             (fun _ _ => [])) in
  exists r rm',
    computeLandmarkRegion Sample.lcLM Sample.gA rm
    = Ok (Some (mkStrip Sample.gA [r]), rm') /\
    start r = (-200)%Z /\ end_ r = 799%Z.
Proof.
  intro rm.
  destruct (computeLandmarkRegion_windows Sample.lcLM Sample.gA rm)
    as [rs [rm' [E [_ [_ HF]]]]].
  - discriminate.
  - repeat constructor.
  - cbn [getGenologs dataManager app rm Sample.rm0 Sample.app0 map present]
      in HF.
    inversion HF as [| lm r lms rs' [_ [_ [Hs Hl]]] HF' El Er]; subst.
    inversion HF'; subst.
    exists r, rm'. split; [exact E |].
    assert (S : start r = (-200)%Z) by (rewrite Hs; reflexivity).
    split; [exact S |].
    change (lc_length Sample.lcLM) with 1000%Z in Hl. lia.
Defined.

(** [featureAlign] aligns on the landmark coordinates with this anchor. *)

(** The anchor is a double.  A landmark aligned at base 202 of 200..209
    has the anchor 0.3; on its copy at 100..124 the anchor position is
    107.5, and a window of 30 bases starts at 93. *)
Lemma computeLandmarkRegion_rounding :
  let lc := mkLCoords (Some "LM"%string) Sample.gA
                      (Some ((Double.ofZ 202 - Double.ofZ 200 + 1)
                             / (Double.ofZ 209 - Double.ofZ 200 + 1)))
                      0 30 in
  let copy := mkFeature "LM" Sample.gB Sample.chr1 100 124 Plus in
  anchor lc = Some 0.3 /\
  anchorPos lc None copy = 107.5 /\
  Double.round (anchorPos lc None copy - Double.ofZ 30 / 2) = 93%Z.
Proof. vm_compute. repeat split; reflexivity. Qed.

(** ** SyntenyMapper: the strips of the mapped regions *)

(** A loop over computations that complete and leave the application
    state alone does so too, and relates the results to the inputs one by
    one. *)
Lemma mapM_total (A B : Type) (a : App) (f : A -> M B) (P : A -> B -> Prop)
      (l : list A) :
  (forall x rm, app rm = a ->
                exists y rm', f x rm = Ok (y, rm') /\ app rm' = a /\ P x y) ->
  forall rm, app rm = a ->
             exists ys rm',
               mapM f l rm = Ok (ys, rm') /\ app rm' = a /\ Forall2 P l ys.
Proof.
  intro Hf. induction l as [| x t IH]; intros rm Ha.
  - exists [], rm. repeat split; [exact Ha | constructor].
  - destruct (Hf x rm Ha) as [y [rm1 [E1 [Ha1 Hy]]]].
    destruct (IH rm1 Ha1) as [ys [rm2 [E2 [Ha2 Hys]]]].
    exists (y :: ys), rm2. cbn [mapM]. unfold bind. rewrite E1, E2.
    repeat split; [exact Ha2 | constructor; assumption].
Qed.

Lemma Forall2_compose (A B C : Type) (P : A -> B -> Prop) (Q : B -> C -> Prop)
      (R : A -> C -> Prop) (l : list A) :
  (forall x y z, P x y -> Q y z -> R x z) ->
  forall (m : list B) (n : list C),
    Forall2 P l m -> Forall2 Q m n -> Forall2 R l n.
Proof.
  intro H. induction l as [| x l IH]; intros m n HP HQ.
  - inversion HP; subst. inversion HQ; subst. constructor.
  - inversion HP; subst. inversion HQ; subst.
    constructor; [eapply H; eassumption | eapply IH; eassumption].
Qed.

Lemma Forall2_map_r (A B C : Type) (P : A -> C -> Prop) (f : B -> C)
      (l : list A) (m : list B) :
  Forall2 (fun x y => P x (f y)) l m -> Forall2 P l (map f m).
Proof. induction 1; simpl; constructor; assumption. Qed.

Lemma mapRegionToGenome_total (r : Region) (g : Genome) (rm : RegionManager) :
  exists s rm',
    mapRegionToGenome r g rm = Ok (s, rm') /\ app rm' = app rm /\
    s_genome s = g /\
    if sameGenome (genome r) g then regions s = [r]
    else map regionSpan (regions s)
         = map spanOf
               (combineRegions
                  (translate (translator (app rm)) (genome r)
                             (chr_name (chr r)) (start r) (end_ r) g)) /\
         Forall (fun x => genome x = g) (regions s).
Proof.
  unfold mapRegionToGenome. destruct (sameGenome (genome r) g).
  - exists (mkStrip g [r]), rm. repeat split.
  - unfold bind at 1, getApp.
    destruct (mapM_total Block Region (app rm) (regionOfBlock g)
                (fun b y => regionSpan y = spanOf b /\ genome y = g)
                (combineRegions
                   (translate (translator (app rm)) (genome r)
                              (chr_name (chr r)) (start r) (end_ r) g)))
      with (rm := rm) as [rs [rm' [E [Ha HF]]]].
    + intros b rm0 H0. eexists. eexists.
      unfold regionOfBlock, bind, newObj, ret.
      split; [reflexivity |]. split; [exact H0 |]. split; reflexivity.
    + reflexivity.
    + exists (mkStrip g rs), rm'. unfold bind. rewrite E. unfold ret.
      repeat split; [exact Ha | |]; cbn [regions].
      * clear E. induction HF as [| b y bs ys [H1 _] _ IH];
          [reflexivity |]. cbn [map]. rewrite H1, IH. reflexivity.
      * clear E. induction HF as [| b y bs ys [_ H2] _ IH]; constructor;
          assumption.
Qed.

Lemma remakeRegions_total (r : Region) (s : Strip) (rm : RegionManager) :
  exists s' rm',
    remakeRegions r s rm = Ok (s', rm') /\ app rm' = app rm /\
    s_genome s' = s_genome s /\
    map regionSpan (regions s') = map regionSpan (regions s) /\
    map genome (regions s') = map genome (regions s) /\
    (regions s = [r] -> map coords (regions s') = [coords r]).
Proof.
  unfold remakeRegions.
  destruct (mapM_total Region Region (app rm)
              (fun rr => if sameRegion rr r then ret rr
                         else makeRegion (fieldsOf rr))
              (fun x y => regionSpan y = regionSpan x /\
                          genome y = genome x /\
                          (sameRegion x r = true -> y = x))
              (map (fun rr => set_width rr (Double.ofZ (end_ rr)
                                            - Double.ofZ (start rr) + 1))
                   (regions s)))
    with (rm := rm) as [rs [rm' [E [Ha HF]]]].
  - intros x rm0 H0. destruct (sameRegion x r).
    + exists x, rm0. repeat split. exact H0.
    + eexists. eexists. unfold makeRegion, bind, newObj, nextCount, ret.
      split; [reflexivity |]. split; [exact H0 |].
      split; [reflexivity |]. split; [reflexivity | discriminate].
  - reflexivity.
  - exists (set_regions s rs), rm'. unfold bind. rewrite E. unfold ret.
    split; [reflexivity |]. split; [exact Ha |]. split; [reflexivity |].
    cbn [regions set_regions]. clear E.
    remember (regions s) as l eqn:El. clear El.
    split; [| split].
    + revert rs HF. induction l as [| x l IH]; intros rs HF;
        inversion HF as [| ? y ? ys [H1 _] HF']; subst; [reflexivity |].
      cbn [map]. rewrite H1, (IH ys HF'). reflexivity.
    + revert rs HF. induction l as [| x l IH]; intros rs HF;
        inversion HF as [| ? y ? ys [_ [H2 _]] HF']; subst; [reflexivity |].
      cbn [map]. rewrite H2, (IH ys HF'). reflexivity.
    + intro El. subst l. cbn [map] in HF.
      inversion HF as [| ? y ? ys [_ [_ H3]] HF']; subst.
      inversion HF'; subst. rewrite H3; [reflexivity |].
      apply sameRegion_true. reflexivity.
Qed.

Lemma coords_fields (l l' : list Region) :
  map coords l' = map coords l ->
  map regionSpan l' = map regionSpan l /\ map genome l' = map genome l.
Proof.
  revert l'. induction l as [| x l IH]; intros l' H; destruct l' as [| y l'];
    try discriminate; [split; reflexivity |].
  cbn [map] in H. unfold coords at 1 3 in H.
  injection H as _ Hg Hc Hs He Hl. destruct (IH l' Hl) as [H1 H2].
  cbn [map]. unfold regionSpan at 1 3. rewrite H1, H2, Hg, Hc, Hs, He.
  split; reflexivity.
Qed.

Lemma Forall_genome (g : Genome) (l l' : list Region) :
  map genome l' = map genome l ->
  Forall (fun x => genome x = g) l -> Forall (fun x => genome x = g) l'.
Proof.
  revert l'. induction l as [| x l IH]; intros l' H HF;
    destruct l' as [| y l']; try discriminate; constructor.
  - cbn [map] in H. injection H as Hxy _. inversion HF; subst. congruence.
  - cbn [map] in H. injection H as _ Hl. inversion HF; subst. auto.
Qed.

(** X18.  [computeMappedRegions] always completes.  It makes [r] the
    reference region, turns the scroll lock off and drops the landmark
    coordinates, and it replaces the strips by one strip per requested
    genome, in the order requested (the current genomes when none are
    given): the strip of [r]'s own genome holds the object [r] itself with
    its coordinates, every other strip holds one region per combined block
    of the translation of [r] to that genome, with the block's chromosome,
    start and end. *)
Theorem computeMappedRegions_strips (r : Region)
        (genomes : option (list Genome)) (rm : RegionManager) :
  exists rm',
    computeMappedRegions r genomes rm = Ok (tt, rm') /\
    rRegion (app rm') = Some r /\ scrollLock (app rm') = false /\
    lcoords (app rm') = None /\
    Forall2 (fun g s =>
               s_genome s = g /\
               if sameGenome (genome r) g
               then map coords (regions s) = [coords r]
               else map regionSpan (regions s)
                    = map spanOf
                          (combineRegions
                             (translate (translator (app rm)) (genome r)
                                        (chr_name (chr r)) (start r) (end_ r)
                                        g)) /\
                    Forall (fun x => genome x = g) (regions s))
            (orDefault genomes (currentGenomes (app rm)))
            (strips (app rm')).
Proof.
  unfold computeMappedRegions, bind at 1, getApp.
  remember (orDefault genomes (currentGenomes (app rm))) as gs eqn:Egs.
  clear Egs.
  destruct (mapM_total Genome Strip (app rm) (mapRegionToGenome r)
              (fun g s =>
                 s_genome s = g /\
                 if sameGenome (genome r) g then regions s = [r]
                 else map regionSpan (regions s)
                      = map spanOf
                            (combineRegions
                               (translate (translator (app rm)) (genome r)
                                          (chr_name (chr r)) (start r)
                                          (end_ r) g)) /\
                      Forall (fun x => genome x = g) (regions s)) gs)
    with (rm := rm) as [ss [rm1 [E1 [Ha1 F1]]]].
  { intros g rm0 H0.
    destruct (mapRegionToGenome_total r g rm0) as [s [rm' [E [Ha [Hg Hs]]]]].
    exists s, rm'. rewrite H0 in Ha, Hs. auto. }
  { reflexivity. }
  unfold bind at 1. rewrite E1. unfold bind at 1, modifyApp at 1.
  match goal with
  | |- context [mkRegionManager ?a ?c ?f ?n] =>
      set (rm2 := mkRegionManager a c f n)
  end.
  destruct (mapM_total Strip Strip (app rm2) (remakeRegions r)
              (fun s s' =>
                 s_genome s' = s_genome s /\
                 map regionSpan (regions s') = map regionSpan (regions s)
                 /\ map genome (regions s') = map genome (regions s) /\
                 (regions s = [r] -> map coords (regions s') = [coords r]))
              ss)
    with (rm := rm2) as [ss1 [rm3 [E3 [Ha3 F3]]]];
    [| reflexivity |].
  { intros s rm0 H0.
    destruct (remakeRegions_total r s rm0) as [s' [rm' [E [Ha H]]]].
    exists s', rm'. rewrite H0 in Ha. auto. }
  unfold bind at 1. rewrite E3.
  unfold bind, layout, getApp, ret, modifyApp. eexists.
  split; [reflexivity |]. cbn [app strips set_strips rRegion scrollLock lcoords].
  rewrite Ha3. cbn [app strips set_strips rRegion scrollLock lcoords
                        set_lcoords set_scrollLock set_rRegion].
  split; [reflexivity |]. split; [reflexivity |]. split; [reflexivity |].
  unfold layoutStrips. apply Forall2_map_r.
  apply (Forall2_compose _ _ _ _ _ _ gs) with (2 := F1) (3 := F3).
  intros g s s' [Hg Hs] [Hg' [Hsp [Hge Hco]]].
  match goal with
  | |- context [layoutStrip ?a s' None] =>
      pose proof (layoutStrip_coords a s' None) as C
  end.
  destruct (coords_fields _ _ C) as [C1 C2].
  split; [unfold layoutStrip; cbn [s_genome set_regions]; congruence |].
  destruct (sameGenome (genome r) g).
  - rewrite C. apply Hco. exact Hs.
  - destruct Hs as [Hs1 Hs2]. split; [congruence |].
    apply (Forall_genome g (regions s)); [congruence | exact Hs2].
Qed.

(** ** StripController: new strips and new regions *)

Lemma guessLandmarkRegion_genome (lc : LCoords) (g : Genome)
      (rm rm' : RegionManager) (s : Strip) :
  guessLandmarkRegion lc g rm = Ok (Some s, rm') -> s_genome s = g.
Proof.
  unfold guessLandmarkRegion, bind at 1, getApp. cbv zeta.
  destruct (getGenolog (dataManager (app rm)) (ById (landmark lc))
                       (lgenome lc)) as [lmf |]; [| discriminate].
  destruct (findNeighborGenolog _ _ _ _ _ (-1)) as [n1 |];
    destruct (findNeighborGenolog _ _ _ _ _ 1) as [n2 |];
    cbv beta iota;
    try (intro H; discriminate H);
    match goal with
    | |- (if ?c then _ else _) _ = _ -> _ => destruct c
    end;
    unfold bind, makeRegion, literalRegion, newObj, nextCount, ret;
    intro H; injection H as <- _; reflexivity.
Qed.

Lemma computeLandmarkRegion_genome (lc : LCoords) (g : Genome)
      (rm rm' : RegionManager) (s : Strip) :
  computeLandmarkRegion lc g rm = Ok (Some s, rm') -> s_genome s = g.
Proof.
  unfold computeLandmarkRegion, bind at 1, getApp. cbv zeta.
  destruct (Z.of_nat _ =? 0)%Z.
  - apply guessLandmarkRegion_genome.
  - unfold bind. destruct (mapM _ _ rm) as [[rs rm1] |]; [| discriminate].
    unfold ret. intro H. injection H as <- _. reflexivity.
Qed.

Lemma initialStrip_genome (a : App) (g : Genome) (rm rm' : RegionManager)
      (p : Strip) :
  initialStrip a g rm = Ok (p, rm') -> s_genome p = g /\ app rm' = app rm.
Proof.
  intro H. split; [| apply (keepsApp_initialStrip a g rm p rm' H)].
  revert H. unfold initialStrip. destruct (landmarkActive a).
  - destruct (lcoords a) as [lc |]; [| discriminate].
    unfold computeLandmarkRegions. cbn [mapM]. unfold bind at 1 2.
    destruct (computeLandmarkRegion lc g rm) as [[o rm1] |] eqn:E;
      [| discriminate].
    unfold bind, ret. destruct o as [s |]; [| discriminate].
    intro H. injection H as <- _.
    apply (computeLandmarkRegion_genome lc g rm rm1 s E).
  - destruct (rRegion a) as [rr |].
    + intro H.
      destruct (mapRegionToGenome_total (current a rr) g rm)
        as [s [rm1 [E [_ [Hg _]]]]].
      rewrite E in H. injection H as <- _. exact Hg.
    + destruct (chromosomes g) as [| c cs]; [discriminate |].
      unfold bind, literalRegion, newObj, ret. intro H.
      injection H as <- _. reflexivity.
Qed.

(** X19.  When [addStrip] completes, exactly one strip has been appended
    after the strips that were there, it is the strip returned and it is of
    genome [g]; reference region, scroll lock and landmark coordinates are
    as before.  Outside landmark mode [addStrip] completes exactly when
    there is a reference region or the genome has a chromosome. *)
Theorem addStrip_appends (g : Genome) (r : option Region)
        (rm : RegionManager) :
  (forall strip rm',
      addStrip g r rm = Ok (strip, rm') ->
      strips (app rm') = strips (app rm) ++ [strip] /\
      s_genome strip = g /\
      rRegion (app rm') = rRegion (app rm) /\
      scrollLock (app rm') = scrollLock (app rm) /\
      lcoords (app rm') = lcoords (app rm)) /\
  (landmarkActive (app rm) = false ->
   ((exists strip rm', addStrip g r rm = Ok (strip, rm'))
    <-> (rRegion (app rm) <> None \/ chromosomes g <> []))).
Proof.
  split.
  - intros strip rm' H. unfold addStrip in H.
    unfold bind at 1 in H. unfold getApp at 1 in H. unfold bind at 1 in H.
    destruct (initialStrip (app rm) g rm) as [[p rm1] |] eqn:P;
      [| discriminate].
    apply initialStrip_genome in P. destruct P as [Pg Pa].
    unfold bind, getApp, putApp, ret in H. injection H as <- <-.
    cbn [app strips set_strips rRegion scrollLock lcoords]. rewrite Pa.
    repeat split. unfold layoutStrip. cbn [s_genome set_regions]. exact Pg.
  - intro L. unfold addStrip.
    unfold bind at 1. unfold getApp at 1. unfold bind at 1.
    unfold initialStrip. rewrite L.
    destruct (rRegion (app rm)) as [rr |].
    + split; [intros _; left; discriminate |]. intros _.
      destruct (mapRegionToGenome_total (current (app rm) rr) g rm)
        as [s [rm1 [E _]]].
      rewrite E. unfold bind, getApp, putApp, ret.
      eexists. eexists. reflexivity.
    + destruct (chromosomes g) as [| c cs].
      * split; [intros [strip [rm' H]]; discriminate H |].
        intros [H | H]; exfalso; apply H; reflexivity.
      * split; [intros _; right; discriminate |]. intros _.
        unfold bind, literalRegion, newObj, getApp, putApp, ret.
        eexists. eexists. reflexivity.
Qed.

(** With no landmark and no reference region, a strip for genome B is
    appended after the strip of genome A. *)
Lemma addStrip_appends_witness :
  let sA := Sample.strip3 100 200 300 in
  let rm := Sample.rm0 [sA] (Sample.dm None None) in
  exists strip rm',
    addStrip Sample.gB None rm = Ok (strip, rm') /\
    strips (app rm') = [sA; strip] /\ s_genome strip = Sample.gB.
Proof.
  intros sA rm.
  destruct (proj2 (proj2 (addStrip_appends Sample.gB None rm) eq_refl))
    as [strip [rm' E]].
  - right. discriminate.
  - exists strip, rm'. split; [exact E |].
    destruct (proj1 (addStrip_appends Sample.gB None rm) strip rm' E)
      as [S [G _]].
    split; [exact S | exact G].
Defined.

(** X20.  [addRegion] for a genome that has a strip makes a region with
    the next id from the coordinates given and puts it in the first strip
    of that genome: after the regions that are there, or in place of all
    of them when [only] is set.  The region starts with the width of the
    first region of the strip, 1 for an empty strip, and all strips are
    laid out again. *)
Theorem addRegion_appends (r : RegionInit) (only : bool) (rm : RegionManager)
        (pre : list Strip) (s : Strip) (post : list Strip) :
  strips (app rm) = pre ++ s :: post ->
  Forall (fun t => s_genome t <> i_genome r) pre ->
  s_genome s = i_genome r ->
  exists rm' r1,
    addRegion r only rm = Ok (tt, rm') /\
    strips (app rm')
    = layoutStrips (app rm)
        (pre ++ set_regions s (if only then [r1] else regions s ++ [r1])
             :: post) None /\
    id r1 = Some (rCount rm) /\ obj r1 = nextObj rm /\
    rCount rm' = S (rCount rm) /\
    (genome r1, chr r1, start r1, end_ r1)
    = (i_genome r, i_chr r, i_start r, i_end r) /\
    width r1 = match regions s with
               | r0 :: _ => width r0
               | [] => 1
               end.
Proof.
  intros E Hp Hs. unfold addRegion.
  unfold bind at 1. unfold makeRegion, bind at 1 2, newObj, nextCount, ret.
  cbn [app rCount nextObj featureAlignment].
  unfold bind at 1. unfold getApp at 1. cbn [app genome].
  rewrite (findStrip_first (app rm) (i_genome r) pre post s E Hp Hs).
  assert (A : at_ (strips (app rm)) (Z.of_nat (List.length pre)) = Some s)
    by (rewrite E; apply at_middle).
  rewrite neq_minus_one, A.
  unfold bind at 1. unfold putApp at 1. cbn [app rCount nextObj
                                                 featureAlignment].
  unfold bind. rewrite layout_in_place. unfold ret.
  eexists. eexists. split; [reflexivity |].
  cbn [app rCount set_strips strips]. rewrite E, setAt_middle.
  split; [apply layoutStrips_app; reflexivity |].
  repeat split.
Qed.

(** A region of genome A is added to the strip of A, which holds the
    objects 1, 2 and 3. *)
Lemma addRegion_appends_witness :
  let rm := Sample.rm0 [Sample.strip3 100 200 300] (Sample.dm None None) in
  exists rm',
    addRegion (coordsOnly Sample.gA Sample.chr2 1 500) false rm
    = Ok (tt, rm') /\
    map (fun s => map coords (regions s)) (strips (app rm'))
    = [[coords (Sample.region 1 1 1000 100);
        coords (Sample.region 2 2001 3000 200);
        coords (Sample.region 3 4001 5000 300);
        (100%nat, Sample.gA, Sample.chr2, 1%Z, 500%Z)]].
Proof.
  intro rm.
  destruct (addRegion_appends (coordsOnly Sample.gA Sample.chr2 1 500) false
                              rm [] (Sample.strip3 100 200 300) [])
    as [rm' [r1 [E [S [_ [Ho [_ [Hc _]]]]]]]].
  - reflexivity.
  - constructor.
  - reflexivity.
  - exists rm'. split; [exact E |]. rewrite S, layoutStrips_coords.
    injection Hc as Hg Hch Hst He.
    cbn [map List.app regions set_regions Sample.strip3]. unfold coords at 4.
    rewrite Ho, Hg, Hch, Hst, He. reflexivity.
Defined.

(** ** ViewportNavigator: scrolling in landmark mode *)

(** X21.  In landmark mode [zoomScrollAllRegions] with a zoom factor for
    which the test [zAmt <= 0] fails completes and keeps landmark, genome
    and anchor of the landmark coordinates; their length becomes the
    rounded zoomed length, the double [zAmt * length], and their delta
    the rounded double [sAmt * length + delta], both finite numbers.
    With the zoom factor 1 a length below 2^50 stays as it is. *)
Theorem zoomScrollAllRegions_landmark (zAmt sAmt : float) (rm : RegionManager)
        (lc : LCoords) :
  lcoords (app rm) = Some lc -> landmarkActive (app rm) = true ->
  (zAmt <=? 0) = false ->
  finite (zAmt * Double.ofZ (lc_length lc)) ->
  finite (sAmt * Double.ofZ (lc_length lc) + Double.ofZ (delta lc)) ->
  exists rm' lc',
    zoomScrollAllRegions zAmt sAmt rm = Ok (tt, rm') /\
    lcoords (app rm') = Some lc' /\
    (landmark lc', lgenome lc', anchor lc')
    = (landmark lc, lgenome lc, anchor lc) /\
    lc_length lc' = Double.round (zAmt * Double.ofZ (lc_length lc)) /\
    delta lc'
    = Double.round (sAmt * Double.ofZ (lc_length lc)
                    + Double.ofZ (delta lc)) /\
    (rRegion (app rm'), scrollLock (app rm'))
    = (rRegion (app rm), scrollLock (app rm)) /\
    (zAmt = 1 -> (Z.abs (lc_length lc) < 2 ^ 50)%Z ->
     lc_length lc' = lc_length lc).
Proof.
  intros Hl Ha Hz _ _.
  destruct (zoomScrollStrips_each (strips (app rm)) zAmt sAmt Hz)
    as [ss' [E F]].
  unfold zoomScrollAllRegions, bind, getApp, putApp. rewrite E.
  assert (Ha' : landmarkActive (set_strips (app rm) ss') = true)
    by exact Ha.
  cbn [lcoords set_strips]. rewrite Hl, Ha'.
  eexists. eexists. split; [reflexivity |].
  cbn [app lcoords set_lcoords landmark lgenome anchor delta lc_length
           strips rRegion scrollLock].
  repeat split; try reflexivity.
  intros -> Hlen. cbn [lc_length].
  rewrite mul_1_l, ofZ_halves, round_halves by (clear - Hlen; lia).
  replace (2 * lc_length lc + 1)%Z with (1 + lc_length lc * 2)%Z
    by (clear; lia).
  rewrite Z.div_add by (clear; lia). change (1 / 2)%Z with 0%Z. clear. lia.
Qed.

(** Landmark coordinates of 1000005 bases zoomed by 0.7 get the length
    700004, and scrolled by 0.1 the delta 100001. *)
Lemma zoomScrollAllRegions_landmark_witness :
  let lc := mkLCoords (Some "LM"%string) Sample.gA None 0 1000005 in
  let rm := mkRegionManager
              (mkApp [mkStrip Sample.gA [Sample.region 1 1 1000005 100]]
                     None true (Some lc) []
                     1000 (Sample.dm None None) Sample.noTranslation)
              100 None 100 in
  exists rm' lc',
    zoomScrollAllRegions 0.7 0.1 rm = Ok (tt, rm') /\
    lcoords (app rm') = Some lc' /\
    lc_length lc' = 700004%Z /\ delta lc' = 100001%Z.
Proof.
  intros lc rm.
  destruct (zoomScrollAllRegions_landmark 0.7 0.1 rm lc
              eq_refl eq_refl eq_refl eq_refl eq_refl)
    as [rm' [lc' [E [L [_ [Hl [Hd _]]]]]]].
  exists rm', lc'. split; [exact E |]. split; [exact L |].
  split; [rewrite Hl | rewrite Hd]; vm_compute; reflexivity.
Defined.

(** ** HomologyManager: the index *)

Lemma dget_dput_same (V : Type) (d : Dict V) (k : string) (v : V) :
  dget (dput d k v) k = Some v.
Proof.
  induction d as [| [k' v'] t IH]; cbn [dput dget].
  - rewrite String.eqb_refl. reflexivity.
  - destruct (String.eqb k' k) eqn:E; cbn [dget]; rewrite E;
      [reflexivity | exact IH].
Qed.

Lemma dget_dput_other (V : Type) (d : Dict V) (k k' : string) (v : V) :
  k <> k' -> dget (dput d k v) k' = dget d k'.
Proof.
  intro H. induction d as [| [k0 v0] t IH]; cbn [dput dget].
  - apply String.eqb_neq in H. rewrite H. reflexivity.
  - destruct (String.eqb k0 k) eqn:E; cbn [dget].
    + apply String.eqb_eq in E. subst k0.
      apply String.eqb_neq in H. rewrite H. reflexivity.
    + rewrite IH. reflexivity.
Qed.

Lemma dput_dput (V : Type) (d : Dict V) (k : string) (v v' : V) :
  dput (dput d k v) k v' = dput d k v'.
Proof.
  induction d as [| [k0 v0] t IH]; cbn [dput].
  - rewrite String.eqb_refl. reflexivity.
  - destruct (String.eqb k0 k) eqn:E; cbn [dput]; rewrite E;
      [reflexivity | rewrite IH; reflexivity].
Qed.

Lemma lookup3_dput (index : Index) (a b i : string) (l : list string)
      (a' b' i' : string) :
  lookup3 (dput index a
                (dput (orEmpty (dget index a)) b
                      (dput (orEmpty (dget (orEmpty (dget index a)) b)) i l)))
          a' b' i'
  = if String.eqb a a' && String.eqb b b' && String.eqb i i' then Some l
    else lookup3 index a' b' i'.
Proof.
  unfold lookup3.
  destruct (String.eqb a a') eqn:Ea.
  - apply String.eqb_eq in Ea. subst a'. rewrite dget_dput_same.
    cbn [orEmpty andb].
    destruct (String.eqb b b') eqn:Eb.
    + apply String.eqb_eq in Eb. subst b'. rewrite dget_dput_same.
      cbn [orEmpty andb].
      destruct (String.eqb i i') eqn:Ei.
      * apply String.eqb_eq in Ei. subst i'. apply dget_dput_same.
      * apply String.eqb_neq in Ei. apply dget_dput_other. exact Ei.
    + apply String.eqb_neq in Eb. rewrite dget_dput_other by exact Eb.
      reflexivity.
  - apply String.eqb_neq in Ea. rewrite dget_dput_other by exact Ea.
    reflexivity.
Qed.

Lemma lookup3_addRow (index : Index) (r : Row) (a b i : string) :
  lookup3 (addRow index r) a b i
  = if String.eqb (row_txA r) a && String.eqb (row_txB r) b
       && String.eqb (row_idA r) i
    then Some (orEmpty (lookup3 index a b i) ++ [row_idB r])
    else lookup3 index a b i.
Proof.
  unfold addRow. cbv zeta. rewrite lookup3_dput.
  destruct (String.eqb (row_txA r) a) eqn:Ea; [| reflexivity].
  destruct (String.eqb (row_txB r) b) eqn:Eb; [| reflexivity].
  destruct (String.eqb (row_idA r) i) eqn:Ei; [| reflexivity].
  apply String.eqb_eq in Ea, Eb, Ei. subst a b i. reflexivity.
Qed.

Lemma lookup3_fold (data : list Row) (index : Index) (a b i : string) :
  lookup3 (fold_left addRow data index) a b i
  = match homologsIn data a b i with
    | [] => lookup3 index a b i
    | l => Some (orEmpty (lookup3 index a b i) ++ l)
    end.
Proof.
  revert index. induction data as [| r data IH]; intro index;
    [reflexivity |].
  cbn [fold_left]. rewrite IH, lookup3_addRow. unfold homologsIn.
  cbn [filter].
  destruct (String.eqb (row_txA r) a && String.eqb (row_txB r) b
            && String.eqb (row_idA r) i).
  - cbn [map orEmpty].
    destruct (map row_idB (filter _ data)) as [| x l]; [reflexivity |].
    rewrite <- app_assoc. reflexivity.
  - reflexivity.
Qed.

Lemma existsb_eqb_In (x : string) (l : list string) :
  existsb (String.eqb x) l = true <-> In x l.
Proof.
  rewrite existsb_exists. split.
  - intros [y [Hy E]]. apply String.eqb_eq in E. subst y. exact Hy.
  - intro H. exists x. split; [exact H | apply String.eqb_refl].
Qed.

(** X22.  For data whose taxons and ids [idA] name no member of
    [Object.prototype], the index that the constructor builds holds, for
    two such taxons and such an id, exactly the ids [idB] of the rows with
    that id and those taxons, in the order of the rows; where no row
    matches it holds nothing. *)
Theorem buildIndex_lookup (data : list Row) (a b i : string) :
  Forall plainRow data -> plainKey a -> plainKey b -> plainKey i ->
  lookup3 (buildIndex data) a b i
  = match homologsIn data a b i with
    | [] => None
    | l => Some l
    end.
Proof.
  intros _ _ _ _. unfold buildIndex. rewrite lookup3_fold.
  destruct (homologsIn data a b i); reflexivity.
Qed.

(** The sample data: b1 of taxon 2 has the homologs a1 and a2 in
    taxon 1. *)
Lemma buildIndex_lookup_witness :
  lookup3 SampleHomology.index SampleHomology.t2 SampleHomology.t1
          SampleHomology.b1
  = Some [SampleHomology.a1; SampleHomology.a2].
Proof.
  assert (P : forall k : string,
             existsb (String.eqb k) inherited = false -> plainKey k).
  { intros k H I. apply (existsb_eqb_In k inherited) in I.
    rewrite I in H. discriminate H. }
  unfold SampleHomology.index.
  rewrite buildIndex_lookup.
  - reflexivity.
  - repeat constructor; apply P; reflexivity.
  - apply P. reflexivity.
  - apply P. reflexivity.
  - apply P. reflexivity.
Defined.

(** ** HomologyManager: the queries *)





Lemma homIds_other (idA txA : string) (txBs : list string) (index : Index) :
  existsb (String.eqb txA) txBs = false ->
  homIds idA txA txBs index
  = (map (fun txB => orEmpty (lookup3 index txA txB idA)) txBs, index).
Proof.
  induction txBs as [| txB t IH]; intro H; [reflexivity |].
  cbn [existsb] in H. apply Bool.orb_false_elim in H. destruct H as [H1 H2].
  cbn [homIds map]. unfold homsOf. cbv zeta. rewrite H1. cbn [andb].
  change (dget (orEmpty (dget (orEmpty (dget index txA)) txB)) idA)
    with (lookup3 index txA txB idA).
  destruct (lookup3 index txA txB idA); rewrite (IH H2); reflexivity.
Qed.

Lemma getOrthologIds_pure (u : Utils) (idA txA : string)
      (txBs : list string) (index : Index) :
  getOrthologIds u idA txA txBs index
  = (flatten u (map (fun txB => orEmpty (lookup3 index txA txB idA))
                    (filter (fun txB => negb (String.eqb txB txA)) txBs)),
     index).
Proof.
  unfold getOrthologIds, getHomologIds. rewrite homIds_other; [reflexivity |].
  induction txBs as [| txB t IH]; [reflexivity |]. cbn [filter].
  destruct (String.eqb txB txA) eqn:E; cbn [negb]; [exact IH |].
  cbn [existsb]. rewrite IH, String.eqb_sym, E. reflexivity.
Qed.



(** ** HomologyManager: inferred paralogs *)

Lemma uniq_In (x : string) (l : list string) : In x (uniq l) <-> In x l.
Proof.
  induction l as [| y t IH]; [reflexivity |]. cbn [uniq].
  split.
  - intros [H | H]; [left; exact H |].
    apply filter_In in H. right. apply IH. tauto.
  - intros [H | H]; [left; exact H |].
    destruct (String.eqb y x) eqn:E.
    + left. apply String.eqb_eq. exact E.
    + right. apply filter_In. split; [apply IH; exact H |].
      rewrite E. reflexivity.
Qed.

Lemma uniq_NoDup (l : list string) : NoDup (uniq l).
Proof.
  induction l as [| y t IH]; cbn [uniq]; constructor.
  - intro H. apply filter_In in H. destruct H as [_ H].
    rewrite String.eqb_refl in H. discriminate.
  - apply NoDup_filter. exact IH.
Qed.

Lemma paralogsVia_NoDup (u : Utils) (index : Index) (txA : string)
      (paraIx : Dict (list string)) (txB : string) :
  Forall (fun e => NoDup (snd e)) paraIx ->
  Forall (fun e => NoDup (snd e)) (paralogsVia u index txA paraIx txB).
Proof.
  intro H. unfold paralogsVia. destruct (String.eqb txA txB); [exact H |].
  cbv zeta. rewrite Forall_map. apply Forall_forall. intros e _.
  apply uniq_NoDup.
Qed.

Lemma paralogs_NoDup (u : Utils) (index : Index) (txA : string)
      (txBs : list string) :
  forall paraIx : Dict (list string),
    Forall (fun e => NoDup (snd e)) paraIx ->
    Forall (fun e => NoDup (snd e))
           (fold_left (paralogsVia u index txA) txBs paraIx).
Proof.
  induction txBs as [| txB t IH]; intros p Hp; [exact Hp |].
  cbn [fold_left]. apply IH. apply paralogsVia_NoDup. exact Hp.
Qed.

Lemma dget_In (V : Type) (d : Dict V) (k : string) (v : V) :
  dget d k = Some v -> In (k, v) d.
Proof.
  induction d as [| [k' v'] t IH]; cbn [dget]; [discriminate |].
  destruct (String.eqb k' k) eqn:E.
  - apply String.eqb_eq in E. subst k'. intro H. injection H as ->.
    left. reflexivity.
  - intro H. right. apply IH. exact H.
Qed.

(** The paralog index is computed from entries for two different taxons
    only. *)
Lemma paralogsVia_ext (u : Utils) (index index' : Index) (txA : string) :
  (forall a b, a <> b ->
               dget (orEmpty (dget index' a)) b
               = dget (orEmpty (dget index a)) b) ->
  forall (txBs : list string) (paraIx : Dict (list string)),
    fold_left (paralogsVia u index' txA) txBs paraIx
    = fold_left (paralogsVia u index txA) txBs paraIx.
Proof.
  intro H. induction txBs as [| txB t IH]; intro paraIx; [reflexivity |].
  cbn [fold_left]. rewrite IH. f_equal. unfold paralogsVia.
  destruct (String.eqb txA txB) eqn:E; [reflexivity |].
  apply String.eqb_neq in E. cbv zeta.
  rewrite (H txA txB E), (H txB txA (not_eq_sym E)). reflexivity.
Qed.

Lemma computeInferredParalogs_other (u : Utils) (txA : string)
      (txBs : list string) (index : Index) (a b : string) :
  a <> txA \/ b <> txA ->
  dget (orEmpty (dget (computeInferredParalogs u txA txBs index) a)) b
  = dget (orEmpty (dget index a)) b.
Proof.
  intro H. unfold computeInferredParalogs. cbv zeta.
  destruct (String.eqb txA a) eqn:E.
  - apply String.eqb_eq in E. subst a. rewrite dget_dput_same.
    cbn [orEmpty]. apply dget_dput_other.
    destruct H as [H | H]; [contradiction | auto].
  - apply String.eqb_neq in E. rewrite dget_dput_other by exact E.
    reflexivity.
Qed.

Lemma computeInferredParalogs_diag (u : Utils) (txA : string)
      (txBs : list string) (index : Index) :
  dget (orEmpty (dget (computeInferredParalogs u txA txBs index) txA)) txA
  = Some (fold_left (paralogsVia u index txA) txBs []).
Proof.
  unfold computeInferredParalogs. cbv zeta.
  rewrite dget_dput_same. cbn [orEmpty]. apply dget_dput_same.
Qed.

Lemma computeInferredParalogs_ext (u : Utils) (txA : string)
      (txBs : list string) (index index' : Index) (i : string) :
  (forall a b, a <> b ->
               dget (orEmpty (dget index' a)) b
               = dget (orEmpty (dget index a)) b) ->
  lookup3 (computeInferredParalogs u txA txBs index') txA txA i
  = lookup3 (computeInferredParalogs u txA txBs index) txA txA i.
Proof.
  intro H. unfold lookup3. rewrite !computeInferredParalogs_diag.
  rewrite (paralogsVia_ext u index index' txA H). reflexivity.
Qed.

(** X25.  [computeInferredParalogs] for a taxon replaces the entries of
    inferred paralogs of that taxon and nothing else: what the index holds
    for two different taxons, or for another taxon with itself, is as
    before.  No list of inferred paralogs it stores has an id twice.  The
    new entries are computed from the entries for different taxons only,
    so what was stored before, by an earlier computation or by a query, is
    discarded, and computing again gives the same index. *)
Theorem computeInferredParalogs_replaces (u : Utils) (txA : string)
        (txBs : list string) (index : Index) :
  (forall a b i,
      a <> txA \/ b <> txA ->
      lookup3 (computeInferredParalogs u txA txBs index) a b i
      = lookup3 index a b i) /\
  (forall i l,
      lookup3 (computeInferredParalogs u txA txBs index) txA txA i = Some l ->
      NoDup l) /\
  (forall index',
      (forall a b, a <> b ->
                   dget (orEmpty (dget index' a)) b
                   = dget (orEmpty (dget index a)) b) ->
      forall i,
        lookup3 (computeInferredParalogs u txA txBs index') txA txA i
        = lookup3 (computeInferredParalogs u txA txBs index) txA txA i) /\
  computeInferredParalogs u txA txBs
                          (computeInferredParalogs u txA txBs index)
  = computeInferredParalogs u txA txBs index.
Proof.
  split; [| split; [| split]].
  - intros a b i H. unfold lookup3.
    rewrite (computeInferredParalogs_other u txA txBs index a b H).
    reflexivity.
  - intros i l. unfold lookup3. rewrite computeInferredParalogs_diag.
    cbn [orEmpty]. intro H.
    apply dget_In in H.
    pose proof (paralogs_NoDup u index txA txBs [] (Forall_nil _)) as F.
    rewrite Forall_forall in F. apply (F (i, l) H).
  - intros index' H i. apply computeInferredParalogs_ext. exact H.
  - unfold computeInferredParalogs at 1. cbv zeta.
    rewrite (paralogsVia_ext u index
               (computeInferredParalogs u txA txBs index) txA).
    + unfold computeInferredParalogs. cbv zeta.
      rewrite dget_dput_same. cbn [orEmpty].
      rewrite !dput_dput. reflexivity.
    + intros a b Hab.
      apply computeInferredParalogs_other.
      destruct (String.eqb a txA) eqn:E.
      * apply String.eqb_eq in E. subst a. right. auto.
      * apply String.eqb_neq in E. left. exact E.
Qed.

(** In the sample data the entry of a1 for the taxons 1 and 2 stays, and
    the inferred paralogs of a1 are a1 and a2. *)
Lemma computeInferredParalogs_replaces_witness :
  lookup3 (computeInferredParalogs SampleHomology.utils SampleHomology.t1
             [SampleHomology.t1; SampleHomology.t2] SampleHomology.index)
          SampleHomology.t1 SampleHomology.t2 SampleHomology.a1
  = Some [SampleHomology.b1] /\
  lookup3 (computeInferredParalogs SampleHomology.utils SampleHomology.t1
             [SampleHomology.t1; SampleHomology.t2] SampleHomology.index)
          SampleHomology.t1 SampleHomology.t1 SampleHomology.a1
  = Some [SampleHomology.a1; SampleHomology.a2] /\
  NoDup [SampleHomology.a1; SampleHomology.a2].
Proof.
  assert (H : SampleHomology.t1 <> SampleHomology.t1 \/
              SampleHomology.t2 <> SampleHomology.t1)
    by (right; discriminate).
  pose proof (computeInferredParalogs_replaces
                SampleHomology.utils SampleHomology.t1
                [SampleHomology.t1; SampleHomology.t2] SampleHomology.index)
    as [Other [Unique _]].
  split; [| split].
  - rewrite (Other SampleHomology.t1 SampleHomology.t2 SampleHomology.a1 H).
    vm_compute. reflexivity.
  - vm_compute. reflexivity.
  - apply (Unique SampleHomology.a1). vm_compute. reflexivity.
Defined.

Lemma computeAll_fold (u : Utils) (txBs : list string) (index : Index)
      (l : list string) :
  forall ix : Index,
    (forall a b, a <> b ->
                 dget (orEmpty (dget ix a)) b
                 = dget (orEmpty (dget index a)) b) ->
    (forall a b, a <> b ->
                 dget (orEmpty
                         (dget (fold_left
                                  (fun ix txA =>
                                     computeInferredParalogs u txA txBs ix)
                                  l ix) a)) b
                 = dget (orEmpty (dget index a)) b) /\
    forall t i,
      lookup3 (fold_left (fun ix txA => computeInferredParalogs u txA txBs ix)
                         l ix) t t i
      = if existsb (String.eqb t) l
        then lookup3 (computeInferredParalogs u t txBs index) t t i
        else lookup3 ix t t i.
Proof.
  induction l as [| t0 l IH]; intros ix H.
  - split; [exact H | reflexivity].
  - cbn [fold_left existsb].
    assert (H1 : forall a b, a <> b ->
                 dget (orEmpty
                         (dget (computeInferredParalogs u t0 txBs ix) a)) b
                 = dget (orEmpty (dget index a)) b).
    { intros a b Hab. rewrite computeInferredParalogs_other; [auto |].
      destruct (String.eqb a t0) eqn:E.
      - apply String.eqb_eq in E. subst a. right. auto.
      - apply String.eqb_neq in E. left. exact E. }
    destruct (IH _ H1) as [IH1 IH2]. split; [exact IH1 |].
    intros t i. rewrite IH2.
    destruct (existsb (String.eqb t) l); [rewrite Bool.orb_true_r;
                                          reflexivity |].
    rewrite Bool.orb_false_r.
    destruct (String.eqb t t0) eqn:E.
    + apply String.eqb_eq in E. subst t0.
      apply computeInferredParalogs_ext. exact H.
    + apply String.eqb_neq in E. unfold lookup3.
      rewrite computeInferredParalogs_other; [reflexivity |].
      left. exact E.
Qed.

(** X26.  [computeAllInferredParalogs] leaves what the index holds for
    two different taxons as it is, and for every taxon given it stores
    the inferred paralogs that [computeInferredParalogs] computes for that
    taxon from the index as it was before: the order of the taxons, and a
    taxon given twice, make no difference.  The inferred paralogs of a
    taxon that is not given stay. *)
Theorem computeAllInferredParalogs_each (u : Utils) (txAs : list string)
        (index : Index) :
  (forall a b i,
      a <> b ->
      lookup3 (computeAllInferredParalogs u txAs index) a b i
      = lookup3 index a b i) /\
  (forall t i,
      lookup3 (computeAllInferredParalogs u txAs index) t t i
      = if existsb (String.eqb t) txAs
        then lookup3 (computeInferredParalogs u t txAs index) t t i
        else lookup3 index t t i).
Proof.
  unfold computeAllInferredParalogs.
  destruct (computeAll_fold u txAs index txAs index) as [H1 H2];
    [reflexivity |].
  split; [| exact H2].
  intros a b i Hab. unfold lookup3. rewrite (H1 a b Hab). reflexivity.
Qed.

(** In the sample data, with the taxons 1 and 2, the entry of a1 for the
    taxons 1 and 2 stays. *)
Lemma computeAllInferredParalogs_each_witness :
  lookup3 (computeAllInferredParalogs
             SampleHomology.utils [SampleHomology.t1; SampleHomology.t2]
             SampleHomology.index)
          SampleHomology.t1 SampleHomology.t2 SampleHomology.a1
  = Some [SampleHomology.b1].
Proof.
  assert (H : SampleHomology.t1 <> SampleHomology.t2) by discriminate.
  pose proof (computeAllInferredParalogs_each
                SampleHomology.utils [SampleHomology.t1; SampleHomology.t2]
                SampleHomology.index) as [Other _].
  rewrite (Other SampleHomology.t1 SampleHomology.t2 SampleHomology.a1 H).
  vm_compute. reflexivity.
Defined.

Lemma orthologs_fold (u : Utils) (txA : string) (txBs : list string)
      (index : Index) (idAs : list string) :
  forall acc : list (list string),
    snd (fold_left (fun acc a =>
                      let '(l, ix) := acc in
                      let '(o, ix') := getOrthologIds u a txA txBs ix in
                      (l ++ [o], ix'))
                   idAs (acc, index))
    = index.
Proof.
  induction idAs as [| a t IH]; intro acc; [reflexivity |].
  cbn [fold_left]. rewrite getOrthologIds_pure. apply IH.
Qed.

(** X27.  [getHomologIdsExt] never returns an id twice, and it changes
    the index only as its query for the inferred paralogs does: the
    queries for the orthologs of the paralogs change nothing. *)
Theorem getHomologIdsExt_unique (u : Utils) (idA txA : string)
        (txBs : list string) (index : Index) :
  NoDup (fst (getHomologIdsExt u idA txA txBs index)) /\
  snd (getHomologIdsExt u idA txA txBs index)
  = snd (getInferredParalogIds u idA txA index).
Proof.
  unfold getHomologIdsExt.
  destruct (getInferredParalogIds u idA txA index) as [idAs index1].
  pose proof (orthologs_fold u txA txBs index1 idAs []) as H.
  destruct (fold_left _ idAs ([], index1)) as [idBs index2].
  cbn [fst snd] in *. split; [apply uniq_NoDup | exact H].
Qed.

